(** * Audio editor front-end: breakpoints, chunks, track list and upload flow

    A shallow embedding of the editor page ([src/app/page.tsx]), the track
    component ([src/components/audio-track.tsx]) and the upload route
    ([src/app/api/upload/route.ts]), with the properties of the written
    specification stated over it.

    Conventions.
    - A JavaScript [number] is a value of a type [T] carrying the operations the
      program applies to numbers ([JsNumber]).  Two instances are given: IEEE
      binary64 ([float], what the engine computes with) and exact rationals
      ([Qc], the arithmetic the specification reasons in).  Everything that is
      not arithmetic is proved for every instance; what rests on the order of
      numbers names the laws it uses ([JsNumberOrder], [JsNumberConnected]),
      which both instances are proved to meet, and what rests on rounding
      names the error of each operation ([evenSplit_rounds]).
    - A React state variable is read through the snapshot captured by the
      render that created the handler (a [Variable] of the section below) and
      written through queued updates ([SetAudioFiles] and friends), which React
      applies in order to the latest state ([audioFiles_after]).
    - An async function is the run it makes: its events and the points
      where it suspends ([Yield]), with the value it returns or throws.
    - Calls that leave the program (fetch, storage client) take their answer
      from an explicit environment. *)

From Stdlib Require Import List String Ascii Bool Arith ZArith Lia.
From Stdlib Require Import QArith Qcanon Qabs Lqa Permutation Sorted DecimalString DecimalNat.
From Stdlib Require Import Floats.
Import ListNotations.

Local Close Scope Qc_scope.
Local Close Scope Q_scope.
Local Open Scope string_scope.
Local Open Scope list_scope.

(** ** JavaScript numbers *)

Class JsNumber (T : Type) : Type := {
  zero : T;
  sub : T -> T -> T;
  mul : T -> T -> T;
  div : T -> T -> T;
  (** an integer-valued number (loop counters, [count + 1]) *)
  ofZ : Z -> T;
  (** [a === b] *)
  strictEq : T -> T -> bool;
  (** [a < b] *)
  ltb : T -> T -> bool
}.

Declare Scope js_scope.
Delimit Scope js_scope with js.
Notation "a - b" := (sub a b) : js_scope.
Notation "a * b" := (mul a b) : js_scope.
Notation "a / b" := (div a b) : js_scope.
Notation "a === b" := (strictEq a b) (at level 70, no associativity) : js_scope.
Notation "a <? b" := (ltb a b) : js_scope.

(** IEEE 754 binary64. *)
Definition float_ofZ (z : Z) : float :=
  match z with
  | Z0 => PrimFloat.zero
  | Zpos _ => PrimFloat.of_uint63 (Uint63.of_Z z)
  | Zneg p => PrimFloat.opp (PrimFloat.of_uint63 (Uint63.of_Z (Zpos p)))
  end.

#[export] Instance JsNumber_float : JsNumber float := {
  zero := PrimFloat.zero;
  sub := PrimFloat.sub;
  mul := PrimFloat.mul;
  div := PrimFloat.div;
  ofZ := float_ofZ;
  strictEq := PrimFloat.eqb;
  ltb := PrimFloat.ltb
}.

(** Exact rational arithmetic. *)
Definition Qc_ltb (a b : Qc) : bool :=
  match (a ?= b)%Qc with Lt => true | _ => false end.

#[export] Instance JsNumber_Qc : JsNumber Qc := {
  zero := Q2Qc 0;
  sub := Qcminus;
  mul := Qcmult;
  div := Qcdiv;
  ofZ := fun z => Q2Qc (inject_Z z);
  strictEq := Qc_eq_bool;
  ltb := Qc_ltb
}.

(** The rational a number stands for, in lowest terms.  The infinities and
    NaN stand for none. *)
Class JsNumberValue (T : Type) : Type := {
  value : T -> option Q
}.



#[export] Instance JsNumberValue_Qc : JsNumberValue Qc := {
  value := fun q => Some (this q)
}.

Section Arrays.
Context {T : Type} `{JsNumber T}.

(** [x !== x] holds of NaN only. *)
Definition isNaN (x : T) : bool := negb (x === x)%js.

(** The SameValueZero comparison of [Array.prototype.includes]. *)
Definition sameValueZero (x y : T) : bool :=
    (x === y)%js || (isNaN x && isNaN y).

(** [arr.includes(x)] *)
Definition includes (arr : list T) (x : T) : bool :=
    existsb (fun e => sameValueZero e x) arr.

(** [arr.sort(comparefn)]: a stable sort; [comparefn(a, b) < 0] puts [a]
      before [b].  Every stable sort returns the same array when the
      comparator is consistent, so insertion from the left stands for the
      engine's algorithm. *)
Fixpoint sort_insert (comparefn : T -> T -> T) (x : T) (sorted : list T) : list T :=
    match sorted with
    | [] => [x]
    | y :: rest =>
        if (comparefn x y <? zero)%js then x :: sorted
        else y :: sort_insert comparefn x rest
    end.

Definition sort (comparefn : T -> T -> T) (arr : list T) : list T :=
    fold_left (fun sorted x => sort_insert comparefn x sorted) arr [].
End Arrays.

(** [arr.splice(start, 1)] and [arr.splice(start, 0, item)] for a start index
    that is a natural number; a start past the end is clamped to the length,
    which [firstn] and [skipn] do on their own. *)
Definition splice_delete {A : Type} (start : nat) (arr : list A) : list A :=
  firstn start arr ++ skipn (S start) arr.

Definition splice_insert {A : Type} (start : nat) (item : A) (arr : list A) : list A :=
  firstn start arr ++ item :: skipn start arr.

(** [for (let i = lo; i < hi; i++) body], for bodies that do not assign [i]. *)
Fixpoint for_steps {S : Type} (steps i : nat) (body : nat -> S -> S) (s : S) : S :=
  match steps with
  | O => s
  | Datatypes.S steps' => for_steps steps' (Datatypes.S i) body (body i s)
  end.

Definition for_range {S : Type} (lo hi : nat) (body : nat -> S -> S) (s : S) : S :=
  for_steps (hi - lo) lo body s.

(** Template literal interpolation of a non-negative integer. *)
Definition string_of_nat (n : nat) : string :=
  NilEmpty.string_of_uint (Nat.to_uint n).

(** ** Data model ([src/app/page.tsx], lines 13-33) *)

Record File : Type := {
  name : string;
  size : nat;
  type : string
}.

Module AudioChunk.
Record t (T : Type) : Type := mk {
    id : string;
    startTime : T;
    endTime : T;
    duration : T
  }.
Arguments mk {T}.
Arguments id {T}.
Arguments startTime {T}.
Arguments endTime {T}.
Arguments duration {T}.
End AudioChunk.

Module AudioFile.
Record t (T : Type) : Type := mk {
    id : string;
    file : File;
    fileName : string;
    storageKey : string;
    storageUrl : string;
    duration : T;
    url : string;
    breakpoints : list T;
    uploading : bool;
    uploaded : bool;
    chunks : list (AudioChunk.t T);
    currentTime : option T
  }.
Arguments mk {T}.
Arguments id {T}.
Arguments file {T}.
Arguments fileName {T}.
Arguments storageKey {T}.
Arguments storageUrl {T}.
Arguments duration {T}.
Arguments url {T}.
Arguments breakpoints {T}.
Arguments uploading {T}.
Arguments uploaded {T}.
Arguments chunks {T}.
Arguments currentTime {T}.

Section Spread.
Context {T : Type}.

(** [{ ...file, breakpoints: bps }] *)
Definition with_breakpoints (bps : list T) (f : t T) : t T :=
      mk (id f) (file f) (fileName f) (storageKey f) (storageUrl f) (duration f)
         (url f) bps (uploading f) (uploaded f) (chunks f) (currentTime f).

(** [{ ...file, uploading: b }] *)
Definition with_uploading (b : bool) (f : t T) : t T :=
      mk (id f) (file f) (fileName f) (storageKey f) (storageUrl f) (duration f)
         (url f) (breakpoints f) b (uploaded f) (chunks f) (currentTime f).

(** [{ ...file, currentTime: time }] *)
Definition with_currentTime (time : T) (f : t T) : t T :=
      mk (id f) (file f) (fileName f) (storageKey f) (storageUrl f) (duration f)
         (url f) (breakpoints f) (uploading f) (uploaded f) (chunks f) (Some time).

(** [{ ...file, uploading: false, uploaded: true, storageKey: key,
          storageUrl: url, chunks: cs }] *)
Definition with_upload (key url' : string) (cs : list (AudioChunk.t T)) (f : t T) : t T :=
      mk (id f) (file f) (fileName f) key url' (duration f)
         (url f) (breakpoints f) false true cs (currentTime f).
End Spread.
End AudioFile.

(** ** Effects of the event handlers *)

(** A thrown value: an [Error] with its message, or anything else. *)
Inductive Thrown : Type :=
| ErrorObject (message : string)
| NotAnError.

(** [error instanceof Error ? error.message : fallback] *)
Definition message_or (fallback : string) (error : Thrown) : string :=
  match error with
  | ErrorObject message => message
  | NotAnError => fallback
  end.

(** The outcome of an awaited promise. *)
Inductive Awaited (A : Type) : Type :=
| Fulfilled (value : A)
| Rejected (reason : Thrown).
Arguments Fulfilled {A}.
Arguments Rejected {A}.

(** ** Async functions *)

Section Async.
Context {E : Type}.

(** One step of a run: an event, or the suspension of an [await]. *)
Inductive Step : Type :=
| Do (event : E)
| Yield.

(** An async function body over events [E]: the steps it took, and its
    return value or the value it threw. *)
Definition M (A : Type) : Type := (list Step * (Thrown + A))%type.

Definition ret {A : Type} (a : A) : M A := ([], inr a).

Definition throw {A : Type} (e : Thrown) : M A := ([], inl e).

Definition emit (event : E) : M unit := ([Do event], inr tt).

Definition bind {A B : Type} (m : M A) (k : A -> M B) : M B :=
  match m with
  | (trace, inl e) => (trace, inl e)
  | (trace, inr a) => let (trace', r) := k a in (trace ++ trace', r)
  end.

(** [await p] for a promise [p] that the environment settles. *)
Definition await {A : Type} (p : Awaited A) : M A :=
  match p with
  | Fulfilled value => ([Yield], inr value)
  | Rejected reason => ([Yield], inl reason)
  end.

(** A synchronous call into the platform that returns or throws. *)
Definition call {A : Type} (r : Thrown + A) : M A := ([], r).

(** [try { body } catch (error) { handler }] *)
Definition try_catch {A : Type} (body : M A) (handler : Thrown -> M A) : M A :=
  match body with
  | (trace, inl e) => let (trace', r) := handler e in (trace ++ trace', r)
  | (trace, inr a) => (trace, inr a)
  end.

(** [try { body } finally { cleanup }], for a cleanup that does not throw. *)
Definition try_finally {A : Type} (body : M A) (cleanup : list E) : M A :=
  let (trace, r) := body in (trace ++ map Do cleanup, r).

(** The events of a run, in order. *)
Definition events (trace : list Step) : list E :=
  flat_map (fun step => match step with Do event => [event] | Yield => [] end) trace.

(** What a call to an async function does before it returns its promise
    (the steps up to its first [await]), and what it does afterwards. *)
Fixpoint before_await (trace : list Step) : list Step :=
  match trace with
  | Do event :: rest => Do event :: before_await rest
  | _ => []
  end.

Fixpoint from_await (trace : list Step) : list Step :=
  match trace with
  | Do event :: rest => from_await rest
  | _ => trace
  end.

(** The value of [Promise.all]: the values in order, or the first rejection
    in the order of the array. *)
Fixpoint all_settled {A : Type} (results : list (Thrown + A)) : Thrown + list A :=
  match results with
  | [] => inr []
  | r :: rest =>
      match r, all_settled rest with
      | inl e, _ => inl e
      | inr _, inl e => inl e
      | inr a, inr values => inr (a :: values)
      end
  end.

(** [await Promise.all(calls)]: every call runs to its first [await] as the
    array is built, the caller suspends, and every call then runs to its end,
    whatever the others do.  The calls are resumed in the order of the array,
    one of the orders in which the environment may settle what they wait
    for. *)
Definition promise_all {A : Type} (calls : list (M A)) : M (list A) :=
  (flat_map (fun c => before_await (fst c)) calls ++
   Yield :: flat_map (fun c => from_await (fst c)) calls,
   all_settled (map snd calls)).
End Async.

Arguments Step : clear implicits.
Arguments M : clear implicits.

Notation "x <- m ;; k" := (bind m (fun x => k))
  (at level 61, m at next level, right associativity) : js_scope.
Notation "m ;; k" := (bind m (fun _ => k))
  (at level 61, right associativity) : js_scope.

(** What the handlers read of a fetch [Response]. *)
Record Response (J : Type) : Type := {
  ok : bool;
  statusText : string;
  json : Awaited J
}.
Arguments ok {J}.
Arguments statusText {J}.
Arguments json {J}.

(** The body of the upload route's answer: [{success, key, url}] or
    [{success: false, error}]; an absent property is [None]. *)
Record UploadResult : Type := {
  success : bool;
  key : option string;
  url : option string;
  error : option string
}.

(** The body of the processing API's answer: the [detail] property and the
    text [JSON.stringify(result, null, 2)] renders. *)
Record ApiResult : Type := {
  detail : option string;
  rendered : string
}.

(** [value || fallback] on an optional string: undefined and the empty string
    are falsy. *)
Definition or_else (value : option string) (fallback : string) : string :=
  match value with
  | Some s => if String.eqb s "" then fallback else s
  | None => fallback
  end.

(** [`${value}`] on an optional string. *)
Definition interpolate (value : option string) : string :=
  match value with
  | Some s => s
  | None => "undefined"
  end.

Record ToastProps : Type := {
  title : string;
  description : string;
  variant : option string
}.

Section Effects.
Context {T : Type}.

(** The object given to [JSON.stringify] for the form field [breakpoints]. *)
Record Metadata : Type := {
  meta_fileName : string;
  meta_duration : T;
  meta_breakpoints : list T
}.

(** The multipart form: [file] (with its file name) and [breakpoints]. *)
Record FormData : Type := {
  form_file : File;
  form_fileName : string;
  form_breakpoints : Metadata
}.

(** One element of the payload's [data]. *)
Record AudioBreakpoints : Type := {
  supabase_url : string;
  breakpoints : list T
}.

Record RequestPayload : Type := {
  data : list AudioBreakpoints;
  combine_videos : bool;
  output_dir : string
}.

(** The debug text, as the pieces concatenated into it:
    [JSON.stringify(requestPayload, null, 2)] or a plain string. *)
Inductive DebugPart : Type :=
| PayloadJson (payload : RequestPayload)
| Text (s : string).

Definition DebugData : Type := list DebugPart.

Inductive Request : Type :=
| PostForm (to : string) (body : FormData)
| PostJson (to : string) (body : RequestPayload).

Inductive Effect : Type :=
| PreventDefault
| SetAudioFiles (update : list (AudioFile.t T) -> list (AudioFile.t T))
| SetIsSubmitting (value : bool)
| SetDraggedItem (value : option nat)
| SetDebugData (update : option DebugData -> option DebugData)
| Fetch (request : Request)
| Toast (props : ToastProps)
| Console (level : string) (text : string).

(** The queued updates of [audioFiles], applied in order to the state. *)
Definition audioFiles_after (trace : list Effect) (state : list (AudioFile.t T))
  : list (AudioFile.t T) :=
  fold_left
    (fun st eff => match eff with SetAudioFiles update => update st | _ => st end)
    trace state.

(** The requests sent, in order. *)
Definition requests (trace : list Effect) : list Request :=
  flat_map (fun eff => match eff with Fetch r => [r] | _ => [] end) trace.

(** The JSON requests among them: address and payload. *)
Definition json_posts (trace : list Effect) : list (string * RequestPayload) :=
  flat_map
    (fun eff => match eff with Fetch (PostJson to body) => [(to, body)] | _ => [] end)
    trace.

(** The notifications shown, in order. *)
Definition toasts (trace : list Effect) : list ToastProps :=
  flat_map (fun eff => match eff with Toast props => [props] | _ => [] end) trace.

(** The answers of the network: the upload route for a form, the processing
    API for a payload. *)
Record Network : Type := {
  fetch_upload : FormData -> Awaited (Response UploadResult);
  fetch_process : RequestPayload -> Awaited (Response ApiResult)
}.
End Effects.

Arguments Metadata : clear implicits.
Arguments FormData : clear implicits.
Arguments AudioBreakpoints : clear implicits.
Arguments RequestPayload : clear implicits.
Arguments DebugPart : clear implicits.
Arguments DebugData : clear implicits.
Arguments Request : clear implicits.
Arguments Effect : clear implicits.
Arguments Network : clear implicits.

(** ** The editor page ([src/app/page.tsx], [VideoEditor]) *)

Section VideoEditor.
Context {T : Type} `{JsNumber T}.

(** What the handlers of one render close over: the state variables
    [audioFiles] and [draggedItem] as that render saw them, the network, and
    [process.env.NEXT_PUBLIC_API_URL] as the template literal prints it. *)
Variable audioFiles : list (AudioFile.t T).
Variable draggedItem : option nat.
Variable network : Network T.
Variable NEXT_PUBLIC_API_URL : string.

Definition handleDragStart (index : nat) : list (Effect T) :=
  [SetDraggedItem (Some index)].

(** Lines 95-112.  [None] stands for the one case the typed state cannot hold:
    [draggedItem] past the end of the array, where [newAudioFiles[draggedItem]]
    is [undefined] and would be spliced into the list. *)
Definition handleDragOver (index : nat) : option (list (Effect T)) :=
  match draggedItem with
  | None => Some [PreventDefault]
  | Some dragged =>
      if Nat.eqb dragged index then Some [PreventDefault]
      else
        match nth_error audioFiles dragged with
        | None => None
        | Some draggedItemContent =>
            let newAudioFiles :=
              splice_insert index draggedItemContent (splice_delete dragged audioFiles) in
            Some [PreventDefault;
                  SetAudioFiles (fun _ => newAudioFiles);
                  SetDraggedItem (Some index)]
        end
  end.

Definition handleDragEnd : list (Effect T) :=
  [SetDraggedItem None].

Definition removeAudioFile (id : string) : list (Effect T) :=
  [SetAudioFiles (fun prev =>
     filter (fun file => negb (String.eqb (AudioFile.id file) id)) prev)].

(** Lines 125-138. *)
Definition addBreakpoint (fileId : string) (time : T) : list (Effect T) :=
  [SetAudioFiles (fun prev =>
     map (fun file =>
            if String.eqb (AudioFile.id file) fileId then
              if negb (includes (AudioFile.breakpoints file) time) then
                let newBreakpoints :=
                  sort (fun a b => a - b)%js (AudioFile.breakpoints file ++ [time]) in
                AudioFile.with_breakpoints newBreakpoints file
              else file
            else file)
         prev)].

(** Lines 140-152. *)
Definition removeBreakpoint (fileId : string) (time : T) : list (Effect T) :=
  [SetAudioFiles (fun prev =>
     map (fun file =>
            if String.eqb (AudioFile.id file) fileId then
              AudioFile.with_breakpoints
                (filter (fun bp => negb (bp === time)%js) (AudioFile.breakpoints file))
                file
            else file)
         prev)].

(** Line 165: [[0, ...audioFile.breakpoints, audioFile.duration]]. *)
Definition saveBoundaries (audioFile : AudioFile.t T) : list T :=
  zero :: AudioFile.breakpoints audioFile ++ [AudioFile.duration audioFile].

(** Lines 166-179.  The loop bound keeps both indices inside the array, so
    the default of [nth] is never returned. *)
Definition saveChunks (audioFile : AudioFile.t T) : list (AudioChunk.t T) :=
  let breakpoints := saveBoundaries audioFile in
  for_range 0 (List.length breakpoints - 1)
    (fun i chunks =>
       let startTime := nth i breakpoints zero in
       let endTime := nth (i + 1) breakpoints zero in
       chunks ++
       [AudioChunk.mk
          ("chunk-" ++ AudioFile.id audioFile ++ "-" ++ string_of_nat i)%string
          startTime endTime (endTime - startTime)%js])
    [].

(** Lines 155-248. *)
Definition saveAudioFile (fileId : string) : M (Effect T) unit :=
  match find (fun file => String.eqb (AudioFile.id file) fileId) audioFiles with
  | None => ret tt
  | Some audioFile =>
      (emit (SetAudioFiles (fun prev =>
         map (fun file =>
                if String.eqb (AudioFile.id file) fileId
                then AudioFile.with_uploading true file else file)
             prev)) ;;
       try_catch
         (let chunks := saveChunks audioFile in
          let formData :=
            {| form_file := AudioFile.file audioFile;
               form_fileName := AudioFile.fileName audioFile;
               form_breakpoints :=
                 {| meta_fileName := AudioFile.fileName audioFile;
                    meta_duration := AudioFile.duration audioFile;
                    meta_breakpoints := AudioFile.breakpoints audioFile |} |} in
          emit (Console "log" "Uploading file:") ;;
          emit (Fetch (PostForm "/api/upload" formData)) ;;
          response <- await (fetch_upload network formData) ;;
          result <- await (json response) ;;
          if success result then
            emit (SetAudioFiles (fun prev =>
              map (fun file =>
                     if String.eqb (AudioFile.id file) fileId
                     then AudioFile.with_upload
                            (or_else (key result) "") (or_else (url result) "")
                            chunks file
                     else file)
                  prev)) ;;
            emit (Toast
              {| title := "File uploaded successfully";
                 description :=
                   (AudioFile.fileName audioFile ++ " has been uploaded with " ++
                    string_of_nat (List.length (AudioFile.breakpoints audioFile)) ++
                    " breakpoints.")%string;
                 variant := None |})
          else
            throw (ErrorObject
                     ("Failed to upload file: " ++ interpolate (error result))%string))
         (fun error =>
            emit (Console "error" "Error processing file:") ;;
            emit (SetAudioFiles (fun prev =>
              map (fun file =>
                     if String.eqb (AudioFile.id file) fileId
                     then AudioFile.with_uploading false file else file)
                  prev)) ;;
            emit (Toast
              {| title := "Upload failed";
                 description :=
                   ("Failed to upload " ++ AudioFile.fileName audioFile ++ ". " ++
                    message_or "" error)%string;
                 variant := Some "destructive" |})))%js
  end.

(** Lines 268-278: the payload built from [audioFiles]. *)
Definition requestPayload : RequestPayload T :=
  let audioBreakpoints :=
    map (fun file =>
           {| supabase_url := AudioFile.storageUrl file;
              breakpoints := AudioFile.breakpoints file |})
        audioFiles in
  {| data := audioBreakpoints;
     combine_videos := false;
     output_dir := "output_videos" |}.

(** Lines 250-316. *)
Definition handleSubmit : M (Effect T) unit :=
  (emit (SetIsSubmitting true) ;;
   try_finally
     (try_catch
        (let stillUploading := existsb AudioFile.uploading audioFiles in
         (if stillUploading
          then throw (ErrorObject "Please wait for all files to finish uploading")
          else ret tt) ;;
         let unprocessedFiles :=
           filter (fun file => negb (AudioFile.uploaded file)) audioFiles in
         (if Nat.ltb 0 (List.length unprocessedFiles)
          then promise_all
                 (map (fun file => saveAudioFile (AudioFile.id file)) unprocessedFiles) ;;
               ret tt
          else ret tt) ;;
         emit (SetDebugData (fun _ => Some [PayloadJson requestPayload])) ;;
         emit (Fetch (PostJson (NEXT_PUBLIC_API_URL ++ "/video/process-and-store")%string
                               requestPayload)) ;;
         response <- await (fetch_process network requestPayload) ;;
         (if negb (ok response) then
            errorData <- await (json response) ;;
            throw (ErrorObject
                     ("API error: " ++
                      or_else (detail errorData) (statusText response))%string)
          else ret tt) ;;
         result <- await (json response) ;;
         emit (Console "log" "API response:") ;;
         emit (Toast
           {| title := "Project submitted successfully";
              description :=
                "Your audio files and breakpoints have been sent for processing.";
              variant := None |}) ;;
         emit (SetDebugData (fun prev =>
           Some (match prev with Some text => text | None => [Text "null"] end ++
                 [Text "

Response:
"; Text (rendered result)]))))
        (fun error =>
           emit (Console "error" "Error submitting project:") ;;
           emit (Toast
             {| title := "Error submitting project";
                description :=
                  message_or
                    "There was a problem submitting your project. Please try again."
                    error;
                variant := Some "destructive" |})))
     [SetIsSubmitting false])%js.


Definition submitDisabled (isSubmitting : bool) : bool :=
  isSubmitting ||
  existsb AudioFile.uploading audioFiles ||
  existsb (fun file => negb (AudioFile.uploaded file)) audioFiles.

(** Lines 329-358. *)
Definition addEvenBreakpoints (fileId : string) (count : Z) : list (Effect T) :=
  if (count <=? 0)%Z then []
  else
    match find (fun file => String.eqb (AudioFile.id file) fileId) audioFiles with
    | None => []
    | Some audioFile =>
        let duration := AudioFile.duration audioFile in
        let interval := (duration / ofZ (count + 1))%js in
        let newBreakpoints :=
          for_range 1 (S (Z.to_nat count))
            (fun i newBreakpoints =>
               let time := (interval * ofZ (Z.of_nat i))%js in
               newBreakpoints ++ [time])
            [] in
        [SetAudioFiles (fun prev =>
           map (fun file =>
                  if String.eqb (AudioFile.id file) fileId
                  then AudioFile.with_breakpoints [] file else file)
               prev);
         SetAudioFiles (fun prev =>
           map (fun file =>
                  if String.eqb (AudioFile.id file) fileId
                  then AudioFile.with_breakpoints newBreakpoints file else file)
               prev)]
    end.

Definition updateCurrentTime (fileId : string) (time : T) : list (Effect T) :=
  [SetAudioFiles (fun prev =>
     map (fun file =>
            if String.eqb (AudioFile.id file) fileId
            then AudioFile.with_currentTime time file else file)
         prev)].
End VideoEditor.



(** ** The track component ([src/components/audio-track.tsx]) *)

Module AudioTrack.
Section Component.
Context {T : Type} `{JsNumber T}.

(** The props the two helpers read, and [audioRef.current]: the audio element
    (through the one property read of it, [currentTime]) or [null]. *)
Variable audio : AudioFile.t T.
Variable onAddBreakpoint : T -> list (Effect T).
Variable onRemoveBreakpoint : T -> list (Effect T).
Variable disabled : bool.
Variable audioRef_current : option T.

(** Lines 116-120. *)
Definition addBreakpoint : list (Effect T) :=
  match audioRef_current with
  | Some currentTime => if negb disabled then onAddBreakpoint currentTime else []
  | None => []
  end.

(** Lines 122-138. *)
Definition addEvenBreakpoints (count : Z) : list (Effect T) :=
  if match audioRef_current with None => true | Some _ => false end
     || disabled || (count <=? 0)%Z
  then []
  else
    let duration := AudioFile.duration audio in
    let interval := (duration / ofZ (count + 1))%js in
    flat_map onRemoveBreakpoint (AudioFile.breakpoints audio) ++
    for_range 1 (S (Z.to_nat count))
      (fun i calls =>
         let time := (interval * ofZ (Z.of_nat i))%js in
         calls ++ onAddBreakpoint time)
      [].
End Component.
End AudioTrack.

(** ** The upload route ([src/app/api/upload/route.ts]) *)

Module UploadRoute.

(** The result of a storage call: [{ data, error }]. *)
Record StorageResult (A : Type) : Type := {
  data : option A;
  error : option string
}.
Arguments data {A}.
Arguments error {A}.

(** Everything [POST] obtains from outside: the two environment variables,
    the parsed form, the random hash, and the answers of the storage client. *)
Record Env : Type := {
  supabaseUrl : string;
  supabaseAnonKey : string;
  formData : Awaited (option File * option string);
  randomHash : string;
  arrayBuffer : Awaited unit;
  listBuckets : Awaited (StorageResult (list string));
  createBucket : Awaited (option string);
  upload : string -> Awaited (StorageResult unit);
  getPublicUrl : string -> option string;
  JSON_parse : string -> Thrown + unit;
  upload_metadata : string -> string -> Awaited (option string)
}.

Inductive Body : Type :=
| Success (key url : string)
| Failure (error : string).

(** [NextResponse.json(body, { status })]. *)
Record NextResponse : Type := {
  status : nat;
  body : Body
}.

Inductive Event : Type :=
| Log (level : string) (text : string)
| StorageCall (method : string) (key : string).

(** [s.split(".").pop()]: the text after the last dot, or all of [s]. *)
Fixpoint split_pop (s : string) (segment : string) : string :=
  match s with
  | EmptyString => segment
  | String c rest =>
      if Ascii.eqb c "."%char then split_pop rest EmptyString
      else split_pop rest (segment ++ String c EmptyString)%string
  end.

Definition truthy (s : string) : bool := negb (String.eqb s "").

Section Route.
Variable env : Env.

(** Lines 121-144: the metadata block. *)
Definition store_metadata (breakpointsJson : option string) : M Event unit :=
  match breakpointsJson with
  | Some text =>
      if truthy text then
        try_catch
          (let metadataKey := ("audio/metadata-" ++ randomHash env ++ ".json")%string in
           call (JSON_parse env text) ;;
           emit (StorageCall "upload" metadataKey) ;;
           metadataError <- await (upload_metadata env metadataKey text) ;;
           match metadataError with
           | Some _ =>
               emit (Log "warn"
                 "Failed to upload metadata, but continuing with main file upload:")
           | None => ret tt
           end)%js
          (fun metadataError =>
             emit (Log "error" "Failed to process or upload metadata, but continuing:"))
      else ret tt
  | None => ret tt
  end.

(** Lines 21-161, given what [createClient] does at line 36: it returns the
    client, whose answers are the fields of [Env], or it throws. *)
Definition POST_with (createClient : Thrown + unit) : M Event NextResponse :=
    try_catch
      (if negb (truthy (supabaseUrl env)) || negb (truthy (supabaseAnonKey env)) then
         emit (Log "error" "Missing Supabase credentials:") ;;
         ret {| status := 500; body := Failure "Supabase credentials not configured" |}
       else
         call createClient ;;
         form <- await (formData env) ;;
         let breakpointsJson := snd form in
         match fst form with
         | None => ret {| status := 400; body := Failure "No file provided" |}
         | Some audioFile =>
             let fileExtension := split_pop (name audioFile) EmptyString in
             let key :=
               ("audio/original-" ++ randomHash env ++ "." ++ fileExtension)%string in
             await (arrayBuffer env) ;;
             emit (StorageCall "listBuckets" "") ;;
             buckets <- await (listBuckets env) ;;
             match error buckets with
             | Some _ =>
                 emit (Log "error" "Error listing buckets:") ;;
                 ret {| status := 500; body := Failure "Failed to check storage buckets" |}
             | None =>
                 names <- match data buckets with
                          | Some names => ret names
                          | None => throw (ErrorObject
                              "Cannot read properties of null (reading 'some')")
                          end ;;
                 let bucketExists :=
                   existsb (fun bucket => String.eqb bucket "audio-files") names in
                 created <-
                   (if negb bucketExists then
                      emit (StorageCall "createBucket" "audio-files") ;;
                      await (createBucket env)
                    else ret None) ;;
                 match created with
                 | Some _ =>
                     emit (Log "error" "Error creating bucket:") ;;
                     ret {| status := 500;
                            body := Failure "Failed to create storage bucket" |}
                 | None =>
                     emit (Log "log" "Uploading audio file:") ;;
                     emit (StorageCall "upload" key) ;;
                     uploaded <- await (upload env key) ;;
                     match error uploaded with
                     | Some message =>
                         emit (Log "error" "File upload error:") ;;
                         ret {| status := 500;
                                body := Failure
                                  ("Failed to upload audio file: " ++ message)%string |}
                     | None =>
                         match getPublicUrl env key with
                         | Some publicUrl =>
                             if truthy publicUrl then
                               store_metadata breakpointsJson ;;
                               ret {| status := 200; body := Success key publicUrl |}
                             else
                               ret {| status := 500;
                                      body := Failure "Failed to get public URL" |}
                         | None =>
                             ret {| status := 500;
                                    body := Failure "Failed to get public URL" |}
                         end
                     end
                 end
             end
         end)%js
      (fun error =>
         emit (Log "error" "Error uploading original audio:") ;;
         ret {| status := 500;
                body := Failure (message_or "Unknown error occurred" error) |})%js.

(** [POST] where the client is built: the run that reaches the form and the
    storage, read through the answers of [Env]. *)
Definition POST : M Event NextResponse := POST_with (inr tt).
End Route.
End UploadRoute.

(** ** The breakpoint model as the specification words it (section 4.1) *)

Section SpecBreakpointModel.
Context {T : Type} `{JsNumber T}.

(** [unique]: every value once, at its first occurrence. *)
Fixpoint unique (values : list T) : list T :=
  match values with
  | [] => []
  | x :: rest => x :: filter (fun y => negb (sameValueZero x y)) (unique rest)
  end.

(** [boundaries = sort(unique({0} + breakpoints + {duration}))], the three
    joined as one sequence *)
Definition spec_boundaries (duration : T) (breakpoints : list T) : list T :=
  sort (fun a b => a - b)%js (unique (zero :: breakpoints ++ [duration])).

(** [chunks[i] = {start: boundaries[i], end: boundaries[i+1], duration: end-start}]
    for the indices [i] of a range [[0, count)]. *)
Definition spec_chunks (id : string) (boundaries : list T) (count : nat)
  : list (AudioChunk.t T) :=
  map (fun i =>
         let startTime := nth i boundaries zero in
         let endTime := nth (i + 1) boundaries zero in
         AudioChunk.mk ("chunk-" ++ id ++ "-" ++ string_of_nat i)%string
                       startTime endTime (endTime - startTime)%js)
      (seq 0 count).

(** [evenSplit(n)]: [n] points at [duration/(n+1) * k] for [k = 1..n]. *)
Definition spec_evenSplit (duration : T) (n : Z) : list T :=
  map (fun k => (duration / ofZ (n + 1) * ofZ (Z.of_nat k))%js) (seq 1 (Z.to_nat n)).

(** [a < b] holds. *)
Definition js_lt (a b : T) : Prop := (a <? b)%js = true.

(** A strictly ascending sequence: each element [<] the next. *)
Definition ascending (values : list T) : Prop := Sorted js_lt values.
End SpecBreakpointModel.

(** The facts about [<], [-] and [===] that order-dependent statements rest
    on.  They hold of exact arithmetic ([JsNumberOrder_Qc]) and of IEEE 754
    binary64 ([JsNumberOrder_float]), where [a - b] is negative exactly when
    [a < b] thanks to the subnormal numbers. *)
Class JsNumberOrder (T : Type) `{JsNumber T} : Prop := {
  ltb_trans : forall a b c : T,
    (a <? b)%js = true -> (b <? c)%js = true -> (a <? c)%js = true;
  ltb_asym : forall a b : T, (a <? b)%js = true -> (b <? a)%js = false;
  ltb_sub : forall a b : T, (a - b <? zero)%js = (a <? b)%js;
  ltb_distinct : forall a b : T, (a <? b)%js = true -> sameValueZero a b = false
}.

(** Rounding.  Each arithmetic operation returns a number that stands for a
    rational within the relative error [u] of the exact result: what IEEE 754
    guarantees of binary64 with [u = 2^-53], as long as the result neither
    overflows nor falls below the normal numbers, the second operand of [/]
    and [*] being an integer that the number type holds exactly. *)
Section Rounding.
Context {T : Type} `{JsNumber T} `{JsNumberValue T}.




End Rounding.

(** The further facts about [<] and [===] that inserting into a sorted list
    rests on: [===] is symmetric, and of two numbers that are not NaN one is
    below the other or they are [===].  Both hold of exact arithmetic
    ([JsNumberConnected_Qc]) and of IEEE 754 binary64
    ([JsNumberConnected_float]), where 0 and -0 are [===] and NaN alone
    compares with nothing. *)
Class JsNumberConnected (T : Type) `{JsNumber T} : Prop := {
  strictEq_sym : forall a b : T, (a === b)%js = (b === a)%js;
  ltb_connected : forall a b : T,
    isNaN a = false -> isNaN b = false ->
    (a <? b)%js = false -> (b <? a)%js = false -> (a === b)%js = true
}.

(** ** Strings

    A JavaScript string is a [string]: a sequence of 8-bit code units. *)

(** [s.substring(0, k)] and [s.substring(k)] *)
Fixpoint string_take (k : nat) (s : string) : string :=
  match k, s with
  | S k', String c rest => String c (string_take k' rest)
  | _, _ => EmptyString
  end.

Fixpoint string_drop (k : nat) (s : string) : string :=
  match k, s with
  | S k', String _ rest => string_drop k' rest
  | _, _ => s
  end.

(** [s.indexOf(pattern)] and [s.lastIndexOf(pattern)], counted from [pos];
    [None] is the result -1. *)
Fixpoint indexOf_from (pattern s : string) (pos : nat) {struct s} : option nat :=
  if String.prefix pattern s then Some pos
  else
    match s with
    | EmptyString => None
    | String _ rest => indexOf_from pattern rest (S pos)
    end.

Fixpoint lastIndexOf_from (pattern s : string) (pos : nat) {struct s} : option nat :=
  match
    match s with
    | EmptyString => None
    | String _ rest => lastIndexOf_from pattern rest (S pos)
    end
  with
  | Some later => Some later
  | None => if String.prefix pattern s then Some pos else None
  end.

Definition indexOf (s pattern : string) : option nat := indexOf_from pattern s 0.

Definition lastIndexOf (s pattern : string) : option nat := lastIndexOf_from pattern s 0.

(** [s.includes(pattern)] *)
Definition string_includes (s pattern : string) : bool :=
  match indexOf s pattern with Some _ => true | None => false end.

(** [s.split(sep)[0]] for a one-character separator. *)
Fixpoint split_first (sep : ascii) (s : string) : string :=
  match s with
  | EmptyString => EmptyString
  | String c rest =>
      if Ascii.eqb c sep then EmptyString else String c (split_first sep rest)
  end.

(** [s.includes(c)] for one character. *)
Fixpoint has_char (c : ascii) (s : string) : bool :=
  match s with
  | EmptyString => false
  | String c' rest => Ascii.eqb c' c || has_char c rest
  end.

(** The white space and line terminators [trim] removes, among the 8-bit
    code units: TAB, LF, VT, FF, CR, SP and NBSP. *)
Definition is_whitespace (c : ascii) : bool :=
  match nat_of_ascii c with
  | 9 | 10 | 11 | 12 | 13 | 32 | 160 => true
  | _ => false
  end.

(** [s.trim() === ""] *)
Fixpoint trims_to_empty (s : string) : bool :=
  match s with
  | EmptyString => true
  | String c rest => is_whitespace c && trims_to_empty rest
  end.

(** [arr.map((x, index) => f(x, index))], the indices counted from [index]. *)
Fixpoint map_indexed {A B : Type} (f : A -> nat -> B) (index : nat) (arr : list A) : list B :=
  match arr with
  | [] => []
  | x :: rest => f x index :: map_indexed f (S index) rest
  end.

(** [arr.slice(start, end)]: a negative index counts from the end, and both
    are clamped to the array. *)
Definition relative_index (len : nat) (i : Z) : nat :=
  if (i <? 0)%Z then Z.to_nat (Z.max (Z.of_nat len + i) 0)
  else Nat.min (Z.to_nat i) len.

Definition slice {A : Type} (start stop : Z) (arr : list A) : list A :=
  let from := relative_index (List.length arr) start in
  let final := relative_index (List.length arr) stop in
  firstn (final - from) (skipn from arr).

(** [Math.ceil(n / d)] for an array length [n] and a positive integer [d]:
    the quotient of two such integers is rounded by less than the distance
    of [n / d] to the next integer, so the ceiling is the exact one. *)
Definition ceil_div (n : nat) (d : Z) : Z := ((Z.of_nat n + d - 1) / d)%Z.

(** ** The edit page ([src/app/page.tsx], [EditVideoPage]) *)

Module EditVideoPage.

(** The fields of a [videos] row that the page reads; [video_urls] is [None]
    when absent or not an array. *)
Module Video.
Record t : Type := mk {
  id : string;
  video_urls : option (list string)
}.
End Video.

Module VideoChunk.
Record t : Type := mk {
  id : string;
  url : string;
  thumbnailUrl : option string;
  index : nat;
  duration : Z;
  hasError : option bool
}.

(** [{ ...c, hasError: true }] *)
Definition with_hasError (value : bool) (c : t) : t :=
  mk (id c) (url c) (thumbnailUrl c) (index c) (duration c) (Some value).
End VideoChunk.

Module CustomVideo.
Record t : Type := mk {
  id : string;
  url : string;
  name : string;
  created_at : string
}.
End CustomVideo.

Module DragItem.
Record t : Type := mk {
  type : string;
  id : string;
  url : string
}.
End DragItem.

(** The body of the request to [/video/replace-chunk]. *)
Record ReplaceChunk : Type := {
  custom_video_url : string;
  chunk_video_url : string;
  video_id : string;
  chunk_index : nat
}.

(** What is read of the API's answer: the [message] property. *)
Record ReplaceResult : Type := {
  message : option string
}.

(** The answer of a query or storage call: [{ data, error }]. *)
Record Result (A : Type) : Type := {
  data : option A;
  error : option Thrown
}.
Arguments data {A}.
Arguments error {A}.

(** The Supabase client, through the three calls the page awaits. *)
Record Supabase : Type := {
  select_video : string -> Awaited (Result Video.t);
  storage_upload : string -> File -> Awaited (Result unit);
  storage_getPublicUrl : string -> Awaited (option string)
}.

Inductive Effect : Type :=
| PreventDefault
| SetDragData (item : DragItem.t)
| SetDragImage
| SetVideo (value : option Video.t)
| SetChunks (update : list VideoChunk.t -> list VideoChunk.t)
| SetLoading (value : bool)
| SetError (value : option string)
| SetCurrentlyPlaying (value : option string)
| SetUploadingFile (value : bool)
| SetCurrentPage (value : Z)
| SetTotalPages (value : Z)
| SetDisplayedChunks (value : list VideoChunk.t)
| SetCustomVideos (update : list CustomVideo.t -> list CustomVideo.t)
| SetDraggedItem (value : option DragItem.t)
| SetIsDragging (value : bool)
| SetDropTargetId (value : option string)
| Pause (chunkId : string)
| Play (chunkId : string)
| Fetch (to : string) (body : ReplaceChunk)
| StorageCall (method : string) (path : string)
| Toast (props : ToastProps)
| Console (level : string) (text : string)
| ClearFileInput.

Definition CHUNKS_PER_PAGE : Z := 10.

Definition storageBaseUrl : string :=
  "https://qfpjbgjxkpwtsegtkaze.supabase.co/storage/v1/object/public/".

(** Lines 729-737: the URL of a chunk, cut after the path of the second
    storage URL when the storage URL occurs twice. *)
Definition cleanUrl (url : string) : string :=
  if string_includes url storageBaseUrl &&
     negb (match indexOf url storageBaseUrl, lastIndexOf url storageBaseUrl with
           | Some first, Some last => Nat.eqb first last
           | None, None => true
           | _, _ => false
           end)
  then
    match lastIndexOf url storageBaseUrl with
    | Some secondBaseUrlIndex =>
        (string_take secondBaseUrlIndex url ++
         split_first "?" (string_drop secondBaseUrlIndex url))%string
    | None => url
    end
  else url.

(** Lines 726-748: one chunk per URL, named after its position. *)
Definition processedChunks (video_urls : list string) : list VideoChunk.t :=
  map_indexed
    (fun url index =>
       VideoChunk.mk ("chunk-" ++ string_of_nat index)%string (cleanUrl url)
                     None index 0 None)
    0 video_urls.

(** Line 751: the chunks whose URL is neither empty nor blank. *)
Definition validChunks (video_urls : list string) : list VideoChunk.t :=
  filter (fun chunk =>
            negb (String.eqb (VideoChunk.url chunk) "") &&
            negb (trims_to_empty (VideoChunk.url chunk)))
         (processedChunks video_urls).

(** The three state variables of the drag protocol, and how a run leaves
    them. *)
Record DragState : Type := {
  isDragging : bool;
  draggedItem : option DragItem.t;
  dropTargetId : option string
}.

Definition drag_after (trace : list Effect) (state : DragState) : DragState :=
  fold_left
    (fun st eff =>
       match eff with
       | SetIsDragging value =>
           {| isDragging := value; draggedItem := draggedItem st;
              dropTargetId := dropTargetId st |}
       | SetDraggedItem value =>
           {| isDragging := isDragging st; draggedItem := value;
              dropTargetId := dropTargetId st |}
       | SetDropTargetId value =>
           {| isDragging := isDragging st; draggedItem := draggedItem st;
              dropTargetId := value |}
       | _ => st
       end)
    trace state.

(** [currentPage] after a run. *)
Definition currentPage_after (trace : list Effect) (page : Z) : Z :=
  fold_left
    (fun p eff => match eff with SetCurrentPage value => value | _ => p end)
    trace page.

(** [currentlyPlaying] after a run. *)
Definition currentlyPlaying_after (trace : list Effect) (playing : option string)
  : option string :=
  fold_left
    (fun p eff => match eff with SetCurrentlyPlaying value => value | _ => p end)
    trace playing.

(** The audio elements that are playing after a run, by chunk id. *)
Definition sounding_after (trace : list Effect) (sounding : list string) : list string :=
  fold_left
    (fun ids eff =>
       match eff with
       | Play chunkId => chunkId :: ids
       | Pause chunkId => filter (fun id => negb (String.eqb id chunkId)) ids
       | _ => ids
       end)
    trace sounding.

(** The requests sent, in order. *)
Definition requests (trace : list Effect) : list (string * ReplaceChunk) :=
  flat_map (fun eff => match eff with Fetch to body => [(to, body)] | _ => [] end) trace.

(** The chunks shown after a run. *)
Definition displayedChunks_after (trace : list Effect) (shown : list VideoChunk.t)
  : list VideoChunk.t :=
  fold_left
    (fun d eff => match eff with SetDisplayedChunks value => value | _ => d end)
    trace shown.

(** [chunks], [totalPages], [loading] and [error] after a run. *)
Definition chunks_after (trace : list Effect) (chunks : list VideoChunk.t)
  : list VideoChunk.t :=
  fold_left
    (fun cs eff => match eff with SetChunks update => update cs | _ => cs end)
    trace chunks.

Definition totalPages_after (trace : list Effect) (pages : Z) : Z :=
  fold_left
    (fun p eff => match eff with SetTotalPages value => value | _ => p end)
    trace pages.

Definition loading_after (trace : list Effect) (loading : bool) : bool :=
  fold_left
    (fun l eff => match eff with SetLoading value => value | _ => l end)
    trace loading.

Definition error_after (trace : list Effect) (error : option string) : option string :=
  fold_left
    (fun e eff => match eff with SetError value => value | _ => e end)
    trace error.

Definition uploadingFile_after (trace : list Effect) (uploading : bool) : bool :=
  fold_left
    (fun u eff => match eff with SetUploadingFile value => value | _ => u end)
    trace uploading.

(** The notifications shown, in order. *)
Definition toasts (trace : list Effect) : list ToastProps :=
  flat_map (fun eff => match eff with Toast props => [props] | _ => [] end) trace.

(** The custom videos after a run. *)
Definition customVideos_after (trace : list Effect) (videos : list CustomVideo.t)
  : list CustomVideo.t :=
  fold_left
    (fun vs eff => match eff with SetCustomVideos update => update vs | _ => vs end)
    trace videos.

Section Page.

(** What the handlers of one render close over: [params.id], the state
    variables, the refs, and the environment: the processing API, the clock
    ([Date.now()] as it prints at its two calls, [new Date().toISOString()]). *)
Variable videoId : string.
Variable supabase : option Supabase.
Variable chunks : list VideoChunk.t.
Variable currentlyPlaying : option string.
Variable currentPage : Z.
Variable totalPages : Z.
Variable audioRefs : string -> bool.
Variable fileInputRef_current : bool.
Variable fetch_replace : ReplaceChunk -> Awaited (Response ReplaceResult).
Variable now_fileName : string.
Variable now_id : string.
Variable now_iso : string.

(** Lines 708-768. *)
Definition fetchVideoData : M Effect unit :=
  match supabase with
  | None => ret tt
  | Some client =>
      try_finally
        (try_catch
           (emit (SetLoading true) ;;
            emit (StorageCall "select" videoId) ;;
            result <- await (select_video client videoId) ;;
            match error result with
            | Some videoError => throw videoError
            | None =>
                emit (SetVideo (data result)) ;;
                match data result with
                | None =>
                    throw (ErrorObject
                      "Cannot read properties of null (reading 'video_urls')")
                | Some videoData =>
                    match Video.video_urls videoData with
                    | Some video_urls =>
                        bind
                          (flat_map
                             (fun url =>
                                [Do (Console "log" ("Original URL: " ++ url)%string);
                                 Do (Console "log"
                                       ("Cleaned URL: " ++ cleanUrl url)%string)])
                             video_urls, inr tt)
                          (fun _ =>
                             emit (Console "log" "Valid chunks:") ;;
                             emit (SetChunks (fun _ => validChunks video_urls)) ;;
                             emit (SetTotalPages
                                     (ceil_div (List.length (validChunks video_urls))
                                               CHUNKS_PER_PAGE)))
                    | None => ret tt
                    end
                end
            end)
           (fun err =>
              emit (Console "error" "Error fetching video data:") ;;
              emit (SetError (Some (message_or "Failed to load video data" err)))))
        [SetLoading false]
  end%js.

(** Lines 771-775: the effect that fills the page shown. *)
Definition displayChunks : list Effect :=
  let startIndex := (currentPage * CHUNKS_PER_PAGE)%Z in
  let endIndex := (startIndex + CHUNKS_PER_PAGE)%Z in
  [SetDisplayedChunks (slice startIndex endIndex chunks)].

(** Lines 824-843.  [currentlyPlaying && ...] tests a string: the empty
    string is falsy. *)
Definition handlePlayPause (chunkId : string) : list Effect :=
  if match currentlyPlaying with
     | Some playing => String.eqb playing chunkId
     | None => false
     end
  then
    (if audioRefs chunkId then [Pause chunkId] else []) ++
    [SetCurrentlyPlaying None]
  else
    (match currentlyPlaying with
     | Some playing =>
         if negb (String.eqb playing "") && audioRefs playing
         then [Pause playing] else []
     | None => []
     end) ++
    (if audioRefs chunkId then [Play chunkId] else []) ++
    [SetCurrentlyPlaying (Some chunkId)].

Definition handleAudioEnded (chunkId : string) : list Effect :=
  [SetCurrentlyPlaying None].

(** Lines 848-933. *)
Definition handleFileUpload (file : option File) : M Effect unit :=
  match supabase with
  | None =>
      emit (Toast {| title := "Error";
                     description := "Supabase client not initialized";
                     variant := Some "destructive" |})
  | Some client =>
      match file with
      | None => ret tt
      | Some file =>
          try_finally
            (try_catch
               (emit (SetUploadingFile true) ;;
                let fileName := (videoId ++ "/" ++ now_fileName ++ "-" ++ name file)%string in
                emit (Console "log" "Uploading file:") ;;
                emit (StorageCall "upload" fileName) ;;
                uploaded <- await (storage_upload client fileName file) ;;
                match error uploaded with
                | Some error =>
                    emit (Console "error" "Upload error:") ;;
                    throw (ErrorObject
                             ("Upload failed: " ++
                              match error with
                              | ErrorObject text => text
                              | NotAnError => "undefined"
                              end)%string)
                | None =>
                    emit (Console "log" "Upload successful:") ;;
                    emit (StorageCall "getPublicUrl" fileName) ;;
                    publicUrlData <- await (storage_getPublicUrl client fileName) ;;
                    match publicUrlData with
                    | Some publicUrl =>
                        if String.eqb publicUrl "" then
                          throw (ErrorObject "Failed to get public URL for uploaded file")
                        else
                          emit (Console "log" "Public URL:") ;;
                          let newVideo :=
                            CustomVideo.mk now_id publicUrl (name file) now_iso in
                          emit (SetCustomVideos (fun prev => newVideo :: prev)) ;;
                          emit (Toast
                            {| title := "File uploaded successfully";
                               description := "Your custom video has been uploaded.";
                               variant := None |})
                    | None =>
                        throw (ErrorObject "Failed to get public URL for uploaded file")
                    end
                end)
               (fun err =>
                  emit (Console "error" "Error uploading file:") ;;
                  emit (Toast
                    {| title := "Error uploading file";
                       description :=
                         message_or "There was a problem uploading your file." err;
                       variant := Some "destructive" |})))
            (SetUploadingFile false ::
             if fileInputRef_current then [ClearFileInput] else [])
      end
  end%js.

(** Lines 941-951. *)
Definition handleNextPage : list Effect :=
  if (currentPage <? totalPages - 1)%Z then [SetCurrentPage (currentPage + 1)%Z]
  else [].

Definition handlePrevPage : list Effect :=
  if (0 <? currentPage)%Z then [SetCurrentPage (currentPage - 1)%Z]
  else [].

(** Lines 953-962. *)
Definition handleAudioError (chunkId : string) : list Effect :=
  [SetChunks (fun prev =>
     map (fun c =>
            if String.eqb (VideoChunk.id c) chunkId
            then VideoChunk.with_hasError true c else c)
         prev)].

(** Lines 965-984. *)
Definition handleDragStart (video : CustomVideo.t) : list Effect :=
  let item :=
    DragItem.mk "custom-video" (CustomVideo.id video) (CustomVideo.url video) in
  [SetDragData item; SetDragImage; SetIsDragging true; SetDraggedItem (Some item)].

(** Lines 986-1000. *)
Definition handleDragEnd : list Effect :=
  [SetIsDragging false; SetDraggedItem None; SetDropTargetId None].

Definition handleDragOver (chunkId : string) : list Effect :=
  [PreventDefault; SetDropTargetId (Some chunkId)].

Definition handleDragLeave : list Effect :=
  [SetDropTargetId None].

(** Lines 1002-1065.  [transferred] is
    [JSON.parse(e.dataTransfer.getData('application/json'))]: the item
    parsed, or what the parser threw. *)
Definition handleDrop (transferred : Thrown + DragItem.t) (chunkId : string)
  : M Effect unit :=
  (emit PreventDefault ;;
   try_catch
     (data <- call transferred ;;
      if String.eqb (DragItem.type data) "custom-video" then
        match find (fun chunk => String.eqb (VideoChunk.id chunk) chunkId) chunks with
        | None => throw (ErrorObject "Target chunk not found")
        | Some targetChunk =>
            emit (Toast
              {| title := "Processing videos";
                 description := "Sending request to process the videos...";
                 variant := None |}) ;;
            let body :=
              {| custom_video_url := DragItem.url data;
                 chunk_video_url := VideoChunk.url targetChunk;
                 video_id := videoId;
                 chunk_index := VideoChunk.index targetChunk |} in
            emit (Fetch "http://localhost:8000/video/replace-chunk" body) ;;
            response <- await (fetch_replace body) ;;
            (if negb (ok response) then
               errorData <- await (json response) ;;
               throw (ErrorObject (or_else (message errorData) "Failed to process videos"))
             else ret tt) ;;
            result <- await (json response) ;;
            emit (Toast
              {| title := "Request sent successfully";
                 description :=
                   "The videos are being processed. This may take a few minutes.";
                 variant := None |}) ;;
            emit (Console "log" "Process videos response:")
        end
      else ret tt)
     (fun err =>
        emit (Console "error" "Error processing drop:") ;;
        emit (Toast
          {| title := "Error processing videos";
             description :=
               message_or "There was a problem processing the videos." err;
             variant := Some "destructive" |})) ;;
   emit (SetIsDragging false) ;;
   emit (SetDraggedItem None) ;;
   emit (SetDropTargetId None))%js.
End Page.
End EditVideoPage.

(** ** Scenarios *)

Definition mp3 : File :=
  {| name := "take.one.mp3"; size := 2048; type := "audio/mpeg" |}.

(** A track as [handleFileUpload] creates it, with the given breakpoints. *)
Definition local_track {T : Type} (id : string) (duration : T) (breakpoints : list T)
  : AudioFile.t T :=
  AudioFile.mk id mp3 "take.one.mp3" "" "" duration "blob:local" breakpoints
               false false [] None.

(** Section 8: duration 120 s with breakpoints at 30 s and 90 s. *)
Definition scenario_track : AudioFile.t Qc :=
  local_track "file-1" (ofZ 120) [ofZ 30; ofZ 90].

(** A 10 s track whose only breakpoint is at 0, as the page's "add
    breakpoint" button stores it before any playback. *)
Definition zero_breakpoint_track : AudioFile.t float :=
  local_track "file-1" 10%float [0%float].

(** The same scenario in binary64. *)
Definition scenario_track64 : AudioFile.t float :=
  local_track "file-1" 120%float [30%float; 90%float].

(** A 10 s track whose breakpoint list is not in ascending order, which no
    handler of the page stores. *)
Definition unordered_track64 : AudioFile.t float :=
  local_track "file-1" 10%float [8%float; 2%float].

(** Section 8: [evenSplit(3)] on a 100 s track that already has a breakpoint,
    in exact arithmetic and in binary64; and a 1 s track, whose thirds
    binary64 cannot hold. *)
Definition even_track : AudioFile.t Qc :=
  local_track "file-1" (ofZ 100) [ofZ 7].

Definition even_track64 : AudioFile.t float :=
  local_track "file-1" 100%float [7%float].

Definition unit_track64 : AudioFile.t float :=
  local_track "file-1" 1%float [].

(** Three tracks, for reordering. *)
Definition three_tracks : list (AudioFile.t float) :=
  [local_track "a" 1%float []; local_track "b" 2%float [];
   local_track "c" 3%float []].

(** A request to the upload route in which everything succeeds up to the
    public URL, the [breakpoints] field is not JSON, and the metadata upload
    would be refused as well. *)
Definition bad_metadata_env : UploadRoute.Env :=
  {| UploadRoute.supabaseUrl := "https://project.supabase.co";
     UploadRoute.supabaseAnonKey := "anon";
     UploadRoute.formData := Fulfilled (Some mp3, Some "{not json");
     UploadRoute.randomHash := "h";
     UploadRoute.arrayBuffer := Fulfilled tt;
     UploadRoute.listBuckets :=
       Fulfilled {| UploadRoute.data := Some ["audio-files"];
                    UploadRoute.error := None |};
     UploadRoute.createBucket := Fulfilled None;
     UploadRoute.upload := fun _ =>
       Fulfilled {| UploadRoute.data := Some tt; UploadRoute.error := None |};
     UploadRoute.getPublicUrl := fun key =>
       Some ("https://project.supabase.co/storage/" ++ key)%string;
     UploadRoute.JSON_parse := fun _ =>
       inl (ErrorObject "Unexpected token n in JSON at position 1");
     UploadRoute.upload_metadata := fun _ _ => Fulfilled (Some "quota exceeded") |}.

(** The same request without the [file] field, and the same request to a
    server that lacks the anonymous key. *)
Definition no_file_env : UploadRoute.Env :=
  {| UploadRoute.supabaseUrl := UploadRoute.supabaseUrl bad_metadata_env;
     UploadRoute.supabaseAnonKey := UploadRoute.supabaseAnonKey bad_metadata_env;
     UploadRoute.formData := Fulfilled (None, Some "[30,90]");
     UploadRoute.randomHash := UploadRoute.randomHash bad_metadata_env;
     UploadRoute.arrayBuffer := UploadRoute.arrayBuffer bad_metadata_env;
     UploadRoute.listBuckets := UploadRoute.listBuckets bad_metadata_env;
     UploadRoute.createBucket := UploadRoute.createBucket bad_metadata_env;
     UploadRoute.upload := UploadRoute.upload bad_metadata_env;
     UploadRoute.getPublicUrl := UploadRoute.getPublicUrl bad_metadata_env;
     UploadRoute.JSON_parse := UploadRoute.JSON_parse bad_metadata_env;
     UploadRoute.upload_metadata := UploadRoute.upload_metadata bad_metadata_env |}.

Definition no_credentials_env : UploadRoute.Env :=
  {| UploadRoute.supabaseUrl := UploadRoute.supabaseUrl bad_metadata_env;
     UploadRoute.supabaseAnonKey := "";
     UploadRoute.formData := UploadRoute.formData bad_metadata_env;
     UploadRoute.randomHash := UploadRoute.randomHash bad_metadata_env;
     UploadRoute.arrayBuffer := UploadRoute.arrayBuffer bad_metadata_env;
     UploadRoute.listBuckets := UploadRoute.listBuckets bad_metadata_env;
     UploadRoute.createBucket := UploadRoute.createBucket bad_metadata_env;
     UploadRoute.upload := UploadRoute.upload bad_metadata_env;
     UploadRoute.getPublicUrl := UploadRoute.getPublicUrl bad_metadata_env;
     UploadRoute.JSON_parse := UploadRoute.JSON_parse bad_metadata_env;
     UploadRoute.upload_metadata := UploadRoute.upload_metadata bad_metadata_env |}.

(** The upload route answers with the given public URL. *)
Definition upload_succeeds {T : Type} (publicUrl : string) (form : FormData T)
  : Awaited (Response UploadResult) :=
  Fulfilled
    {| ok := true; statusText := "OK";
       json := Fulfilled {| success := true;
                            key := Some "audio/original-h.mp3";
                            url := Some publicUrl;
                            error := None |} |}.

(** The upload route answers [{success: false, error}] with status 500. *)
Definition upload_refused {T : Type} (message : string) (form : FormData T)
  : Awaited (Response UploadResult) :=
  Fulfilled
    {| ok := false; statusText := "Internal Server Error";
       json := Fulfilled {| success := false; key := None; url := None;
                            error := Some message |} |}.

Definition process_succeeds {T : Type} (payload : RequestPayload T)
  : Awaited (Response ApiResult) :=
  Fulfilled
    {| ok := true; statusText := "OK";
       json := Fulfilled {| detail := None; rendered := "{}" |} |}.

(** A network whose upload route stores the file, one whose upload route
    refuses it. *)
Definition accepting_network : Network float :=
  {| fetch_upload :=
       upload_succeeds "https://project.supabase.co/storage/audio/original-h.mp3";
     fetch_process := process_succeeds |}.

Definition refusing_network : Network float :=
  {| fetch_upload := upload_refused "Failed to upload audio file: quota";
     fetch_process := process_succeeds |}.



(** The scenario track while its upload is in flight. *)
Definition uploading_track64 : AudioFile.t float :=
  AudioFile.with_uploading true scenario_track64.

(** Submitting the scenario track before it was saved. *)
Definition unsaved_submit : M (Effect float) unit :=
  handleSubmit [scenario_track64] accepting_network "https://api.example".

(** The scenario track after a successful save, and a network whose
    processing API refuses the payload. *)
Definition uploaded_track64 : AudioFile.t float :=
  AudioFile.with_upload
    "audio/original-h.mp3" "https://project.supabase.co/storage/audio/original-h.mp3"
    (saveChunks scenario_track64) scenario_track64.

Definition refusing_api_network : Network float :=
  {| fetch_upload :=
       upload_succeeds "https://project.supabase.co/storage/audio/original-h.mp3";
     fetch_process := fun _ =>
       Fulfilled
         {| ok := false; statusText := "Unprocessable Entity";
            json := Fulfilled {| detail := Some "breakpoints out of range";
                                 rendered := "" |} |} |}.

(** A video whose second URL is blank and whose third holds the storage URL
    twice, with a query string. *)
Definition sample_video_urls : list string :=
  ["https://cdn.example/chunk0.mp4";
   "  ";
   "https://qfpjbgjxkpwtsegtkaze.supabase.co/storage/v1/object/public/videos/https://qfpjbgjxkpwtsegtkaze.supabase.co/storage/v1/object/public/videos/c2.mp4?token=abc"].

Definition sample_chunks : list EditVideoPage.VideoChunk.t :=
  EditVideoPage.validChunks sample_video_urls.

Definition sample_drag_item : EditVideoPage.DragItem.t :=
  EditVideoPage.DragItem.mk "custom-video" "1700000000000"
    "https://project.supabase.co/storage/audio-files/v1/clip.mp4".

(** The processing API accepts a replacement. *)
Definition replace_accepted (body : EditVideoPage.ReplaceChunk)
  : Awaited (Response EditVideoPage.ReplaceResult) :=
  Fulfilled {| ok := true; statusText := "OK";
               json := Fulfilled {| EditVideoPage.message := None |} |}.

(** * Properties *)

(** ** Loops and arrays *)

Lemma for_steps_append {A : Type} (g : nat -> list A) (steps i : nat) (acc : list A) :
  for_steps steps i (fun j out => out ++ g j) acc = acc ++ flat_map g (seq i steps).
Proof.
  revert i acc.
  induction steps as [|steps IH]; intros i acc; simpl.
  - now rewrite app_nil_r.
  - rewrite IH. now rewrite <- app_assoc.
Qed.

Lemma for_range_push {A : Type} (f : nat -> A) (lo hi : nat) :
  for_range lo hi (fun j out => out ++ [f j]) [] = map f (seq lo (hi - lo)).
Proof.
  unfold for_range.
  rewrite (for_steps_append (fun j => [f j])). simpl.
  induction (seq lo (hi - lo)) as [|j js IH]; simpl; congruence.
Qed.

Lemma suffix_cons {A : Type} (x : A) (l suffix : list A) :
  (exists before, l = before ++ suffix) ->
  exists before, x :: l = before ++ suffix.
Proof.
  intros [before ->]. now exists (x :: before).
Qed.

(** ** Runs of async functions *)

Section Runs.
Context {E : Type}.

Lemma events_app (trace trace' : list (Step E)) :
  events (trace ++ trace') = events trace ++ events trace'.
Proof. apply flat_map_app. Qed.

Lemma before_from_await (trace : list (Step E)) :
  before_await trace ++ from_await trace = trace.
Proof.
  induction trace as [|[event|] trace IH]; simpl; congruence.
Qed.

Lemma all_settled_returns {A : Type} (results : list (Thrown + A)) :
  Forall (fun r => exists a, r = inr a) results ->
  exists values, all_settled results = inr values.
Proof.
  induction 1 as [|r results [a ->] _ [values IH]]; simpl.
  - now exists [].
  - rewrite IH. now exists (a :: values).
Qed.
End Runs.

(** ** Chunk derivation at save time *)

Lemma map_nth_seq {A : Type} (l : list A) (d : A) :
  map (fun i => nth i l d) (seq 0 (List.length l)) = l.
Proof.
  induction l as [|a l IH]; cbn [List.length seq map nth]; [reflexivity|].
  f_equal. rewrite <- seq_shift, map_map. exact IH.
Qed.

Lemma Sorted_consecutive {A : Type} (R : A -> A -> Prop) (l : list A) (d : A) :
  Sorted R l ->
  forall i, i + 1 < List.length l -> R (nth i l d) (nth (i + 1) l d).
Proof.
  induction 1 as [|a l Hsorted IH Hhead]; intros i Hi; cbn in Hi; [lia|].
  destruct i as [|i].
  - destruct Hhead as [|b l Hab]; cbn in Hi; [lia|]. exact Hab.
  - cbn [Nat.add nth]. apply IH. lia.
Qed.

Lemma Sorted_snoc {A : Type} (R : A -> A -> Prop) (l : list A) (last : A) :
  Sorted R l -> (forall a, In a l -> R a last) -> Sorted R (l ++ [last]).
Proof.
  induction 1 as [|a l Hsorted IH Hhead]; intros Hbelow; cbn.
  - repeat constructor.
  - constructor.
    + apply IH. intros b Hb. apply Hbelow. now right.
    + destruct Hhead as [|b l Hab]; cbn; constructor; [|exact Hab].
      apply Hbelow. now left.
Qed.

Section SaveChunks.
Context {T : Type} `{JsNumber T}.
Variable audioFile : AudioFile.t T.

Lemma saveBoundaries_length :
  List.length (saveBoundaries audioFile) =
  List.length (AudioFile.breakpoints audioFile) + 2.
Proof.
  unfold saveBoundaries. simpl. rewrite length_app. simpl. lia.
Qed.

Lemma saveChunks_spec_chunks :
  saveChunks audioFile =
  spec_chunks (AudioFile.id audioFile) (saveBoundaries audioFile)
              (List.length (saveBoundaries audioFile) - 1).
Proof.
  unfold saveChunks, spec_chunks.
  rewrite for_range_push. now rewrite Nat.sub_0_r.
Qed.

Lemma saveChunks_length :
  List.length (saveChunks audioFile) =
  List.length (AudioFile.breakpoints audioFile) + 1.
Proof.
  rewrite saveChunks_spec_chunks. unfold spec_chunks.
  rewrite length_map, length_seq, saveBoundaries_length. lia.
Qed.

Lemma saveChunks_nth (i : nat) :
  i < List.length (AudioFile.breakpoints audioFile) + 1 ->
  nth_error (saveChunks audioFile) i =
  Some (AudioChunk.mk
          ("chunk-" ++ AudioFile.id audioFile ++ "-" ++ string_of_nat i)%string
          (nth i (saveBoundaries audioFile) zero)
          (nth (i + 1) (saveBoundaries audioFile) zero)
          (nth (i + 1) (saveBoundaries audioFile) zero -
           nth i (saveBoundaries audioFile) zero)%js).
Proof.
  intros Hi.
  rewrite saveChunks_spec_chunks. unfold spec_chunks.
  rewrite nth_error_map, nth_error_seq.
  rewrite saveBoundaries_length.
  destruct (Nat.ltb_spec i (List.length (AudioFile.breakpoints audioFile) + 2 - 1));
    [reflexivity | lia].
Qed.

Lemma saveBoundaries_first : nth 0 (saveBoundaries audioFile) zero = zero.
Proof. reflexivity. Qed.

Lemma saveBoundaries_last :
  nth (List.length (AudioFile.breakpoints audioFile) + 1) (saveBoundaries audioFile) zero =
  AudioFile.duration audioFile.
Proof.
  unfold saveBoundaries.
  rewrite Nat.add_1_r. simpl.
  rewrite app_nth2 by lia. now rewrite Nat.sub_diag.
Qed.

Lemma saveChunks_startTimes :
  map AudioChunk.startTime (saveChunks audioFile) =
  zero :: AudioFile.breakpoints audioFile.
Proof.
  rewrite saveChunks_spec_chunks. unfold spec_chunks.
  rewrite map_map. cbn [AudioChunk.startTime].
  rewrite saveBoundaries_length.
  replace (List.length (AudioFile.breakpoints audioFile) + 2 - 1)
    with (List.length (zero :: AudioFile.breakpoints audioFile))
    by (cbn [List.length]; lia).
  rewrite <- (map_nth_seq (zero :: AudioFile.breakpoints audioFile) zero) at 2.
  apply map_ext_in. intros i Hi. apply in_seq in Hi.
  unfold saveBoundaries.
  change (zero :: AudioFile.breakpoints audioFile ++ [AudioFile.duration audioFile])
    with ((zero :: AudioFile.breakpoints audioFile) ++ [AudioFile.duration audioFile]).
  apply app_nth1. lia.
Qed.

Lemma saveChunks_endTimes :
  map AudioChunk.endTime (saveChunks audioFile) =
  AudioFile.breakpoints audioFile ++ [AudioFile.duration audioFile].
Proof.
  rewrite saveChunks_spec_chunks. unfold spec_chunks.
  rewrite map_map. cbn [AudioChunk.endTime].
  rewrite saveBoundaries_length.
  replace (List.length (AudioFile.breakpoints audioFile) + 2 - 1)
    with (List.length (AudioFile.breakpoints audioFile ++ [AudioFile.duration audioFile]))
    by (rewrite length_app; cbn [List.length]; lia).
  rewrite <- (map_nth_seq (AudioFile.breakpoints audioFile ++ [AudioFile.duration audioFile])
                          zero) at 2.
  apply map_ext. intros i. unfold saveBoundaries.
  now rewrite Nat.add_1_r.
Qed.

Lemma saveChunks_In (chunk : AudioChunk.t T) :
  In chunk (saveChunks audioFile) ->
  exists i,
    i + 1 < List.length (saveBoundaries audioFile) /\
    AudioChunk.startTime chunk = nth i (saveBoundaries audioFile) zero /\
    AudioChunk.endTime chunk = nth (i + 1) (saveBoundaries audioFile) zero /\
    AudioChunk.duration chunk =
      (AudioChunk.endTime chunk - AudioChunk.startTime chunk)%js.
Proof.
  rewrite saveChunks_spec_chunks. unfold spec_chunks.
  intros Hchunk. apply in_map_iff in Hchunk. destruct Hchunk as (i & <- & Hi).
  apply in_seq in Hi. exists i. split; [lia|]. cbn. repeat split.
Qed.

(** The stored list bracketed by 0 and the duration is strictly ascending
    when the list is, the duration is positive and the breakpoints lie
    strictly between 0 and the duration. *)
Lemma saveBoundaries_ascending :
  js_lt zero (AudioFile.duration audioFile) ->
  (forall bp, In bp (AudioFile.breakpoints audioFile) ->
              js_lt zero bp /\ js_lt bp (AudioFile.duration audioFile)) ->
  ascending (AudioFile.breakpoints audioFile) ->
  ascending (saveBoundaries audioFile).
Proof.
  intros Hduration Hrange Hascending. unfold ascending, saveBoundaries.
  constructor.
  - apply Sorted_snoc; [exact Hascending|]. intros bp Hbp. now apply Hrange.
  - destruct (AudioFile.breakpoints audioFile) as [|bp rest] eqn:Hbps; cbn.
    + now constructor.
    + constructor. apply Hrange. now left.
Qed.

(** C1. The chunk list [saveAudioFile] computes for a track is cut at the
    track's breakpoints: the chunks start at 0 and at each breakpoint, in the
    order of the list, and end at each breakpoint and at the duration; so
    there is one chunk more than breakpoints, the first chunk starts at 0, the
    last one ends at the duration, every chunk ends where the next one starts,
    and the duration of a chunk is its end minus its start.  When the
    duration is positive and the breakpoints are strictly ascending and lie
    strictly between 0 and the duration, as the page stores them, every chunk
    starts before it ends and the starts and the ends are strictly ascending:
    the chunks partition the track without gap or overlap. *)
Theorem saveChunks_partition :
  let chunks := saveChunks audioFile in
  let breakpoints := AudioFile.breakpoints audioFile in
  let duration := AudioFile.duration audioFile in
  (List.length chunks = List.length breakpoints + 1 /\
   map AudioChunk.startTime chunks = zero :: breakpoints /\
   map AudioChunk.endTime chunks = breakpoints ++ [duration] /\
   (forall chunk, In chunk chunks ->
      AudioChunk.duration chunk =
        (AudioChunk.endTime chunk - AudioChunk.startTime chunk)%js) /\
   option_map AudioChunk.startTime (nth_error chunks 0) = Some zero /\
   option_map AudioChunk.endTime (nth_error chunks (List.length chunks - 1)) =
     Some duration /\
   forall i, i + 1 < List.length chunks ->
     exists boundary,
       option_map AudioChunk.endTime (nth_error chunks i) = Some boundary /\
       option_map AudioChunk.startTime (nth_error chunks (i + 1)) = Some boundary) /\
  (js_lt zero duration ->
   (forall bp, In bp breakpoints -> js_lt zero bp /\ js_lt bp duration) ->
   ascending breakpoints ->
   (forall chunk, In chunk chunks ->
      js_lt (AudioChunk.startTime chunk) (AudioChunk.endTime chunk)) /\
   ascending (map AudioChunk.startTime chunks) /\
   ascending (map AudioChunk.endTime chunks)).
Proof.
  cbv zeta. split.
  - rewrite saveChunks_length.
    split; [reflexivity|]. split; [apply saveChunks_startTimes|].
    split; [apply saveChunks_endTimes|]. split.
    { intros chunk Hchunk.
      now destruct (saveChunks_In chunk Hchunk) as (i & _ & _ & _ & Hduration). }
    repeat split.
    + rewrite saveChunks_nth by lia. reflexivity.
    + rewrite saveChunks_nth by lia. cbn [option_map AudioChunk.endTime].
      replace (List.length (AudioFile.breakpoints audioFile) + 1 - 1 + 1)
        with (List.length (AudioFile.breakpoints audioFile) + 1) by lia.
      now rewrite saveBoundaries_last.
    + intros i Hi.
      exists (nth (i + 1) (saveBoundaries audioFile) zero).
      rewrite !saveChunks_nth by lia. split; reflexivity.
  - intros Hduration Hrange Hascending.
    pose proof (saveBoundaries_ascending Hduration Hrange Hascending) as Hboundaries.
    split; [|split].
    + intros chunk Hchunk.
      destruct (saveChunks_In chunk Hchunk) as (i & Hi & -> & -> & _).
      now apply Sorted_consecutive.
    + rewrite saveChunks_startTimes.
      unfold ascending, saveBoundaries in *.
      inversion Hboundaries as [|? ? Hrest Hhead]; subst.
      constructor; [exact Hascending|].
      destruct (AudioFile.breakpoints audioFile); cbn in *;
        [constructor|now inversion Hhead; constructor].
    + rewrite saveChunks_endTimes.
      unfold ascending, saveBoundaries in Hboundaries. now inversion Hboundaries.
Qed.
End SaveChunks.

(** The section 8 scenario in binary64: 120 s cut at 30 s and 90 s. *)
Lemma saveChunks_partition_witness :
  (forall chunk, In chunk (saveChunks scenario_track64) ->
     js_lt (AudioChunk.startTime chunk) (AudioChunk.endTime chunk)) /\
  ascending (map AudioChunk.startTime (saveChunks scenario_track64)) /\
  ascending (map AudioChunk.endTime (saveChunks scenario_track64)).
Proof.
  apply (proj2 (saveChunks_partition scenario_track64)).
  - reflexivity.
  - intros bp Hbp. cbn in Hbp. destruct Hbp as [<-|[<-|[]]]; split; reflexivity.
  - repeat constructor.
Defined.

(** Without the order the chunks overlap: cut at 8 s and then at 2 s, a 10 s
    track gives a middle chunk that runs backwards, with a negative
    duration. *)
Example saveChunks_unordered_overlap :
  map (fun c => (AudioChunk.startTime c, AudioChunk.endTime c, AudioChunk.duration c))
      (saveChunks unordered_track64) =
    [(0, 8, 8); (8, 2, -6); (2, 10, 8)]%float.
Proof. reflexivity. Qed.

(** ** Boundaries against the specification's [sort(unique(...))] *)

Lemma filter_keep_all {A : Type} (f : A -> bool) (l : list A) :
  Forall (fun a => f a = true) l -> filter f l = l.
Proof.
  induction 1 as [|a l Ha _ IH]; simpl.
  - reflexivity.
  - now rewrite Ha, IH.
Qed.

Section OrderedBoundaries.
Context {T : Type} `{JsNumberOrder T}.

Lemma sort_insert_after (x : T) (sorted : list T) :
  Forall (fun y => js_lt y x) sorted ->
  sort_insert (fun a b => a - b)%js x sorted = sorted ++ [x].
Proof.
  induction 1 as [|y sorted Hy _ IH]; simpl.
  - reflexivity.
  - rewrite ltb_sub, (ltb_asym _ _ Hy). now rewrite IH.
Qed.

Lemma sort_fold_ascending (arr sorted : list T) :
  StronglySorted js_lt arr ->
  Forall (fun y => Forall (js_lt y) arr) sorted ->
  fold_left (fun acc x => sort_insert (fun a b => a - b)%js x acc) arr sorted = sorted ++ arr.
Proof.
  intros Harr. revert sorted.
  induction Harr as [|x arr Harr IH Hx]; intros sorted Hsorted; simpl.
  - now rewrite app_nil_r.
  - rewrite sort_insert_after.
    + rewrite IH.
      * now rewrite <- app_assoc.
      * apply Forall_app. split.
        -- eapply Forall_impl; [|exact Hsorted].
           intros y Hy. now inversion Hy.
        -- now constructor.
    + eapply Forall_impl; [|exact Hsorted].
      intros y Hy. now inversion Hy.
Qed.

Lemma sort_ascending (arr : list T) :
  StronglySorted js_lt arr -> sort (fun a b => a - b)%js arr = arr.
Proof.
  intros Harr. unfold sort.
  now rewrite sort_fold_ascending.
Qed.

Lemma unique_ascending (arr : list T) :
  StronglySorted js_lt arr -> unique arr = arr.
Proof.
  induction 1 as [|x arr _ IH Hx]; simpl.
  - reflexivity.
  - rewrite IH. f_equal.
    apply filter_keep_all.
    eapply Forall_impl; [|exact Hx].
    intros y Hy. now rewrite (ltb_distinct _ _ Hy).
Qed.

Lemma ascending_StronglySorted (arr : list T) :
  ascending arr -> StronglySorted js_lt arr.
Proof.
  apply Sorted_StronglySorted.
  intros a b c. apply ltb_trans.
Qed.

End OrderedBoundaries.

(** C2, as amended.  For every number model, binary64 included: at save time
    the boundary sequence is the stored breakpoint list bracketed by 0 and the
    duration, in the list's own order and with its repetitions, and the chunks
    are [{start: boundaries[i], end: boundaries[i+1], duration: end - start}]
    for every [i] below [len(boundaries) - 1]; with a positive duration and
    breakpoints strictly ascending and strictly between 0 and the duration,
    the sequence is strictly ascending.  Where, besides, the numbers obey the
    order laws [JsNumberOrder], as binary64 and the exact rationals do
    ([JsNumberOrder_float], [JsNumberOrder_Qc]), a strictly ascending
    sequence is [sort(unique({0} + breakpoints + {duration}))]. *)
Theorem saveBoundaries_chunks :
  forall (T : Type) (N : JsNumber T) (audioFile : AudioFile.t T),
    let boundaries := saveBoundaries audioFile in
    let breakpoints := AudioFile.breakpoints audioFile in
    let duration := AudioFile.duration audioFile in
    boundaries = zero :: breakpoints ++ [duration] /\
    saveChunks audioFile =
      spec_chunks (AudioFile.id audioFile) boundaries (List.length boundaries - 1) /\
    (js_lt zero duration ->
     (forall bp, In bp breakpoints -> js_lt zero bp /\ js_lt bp duration) ->
     ascending breakpoints ->
     ascending boundaries) /\
    (JsNumberOrder T ->
     ascending boundaries ->
     boundaries = spec_boundaries duration breakpoints).
Proof.
  intros T N audioFile. cbv zeta.
  split; [reflexivity|]. split; [apply saveChunks_spec_chunks|].
  split; [apply saveBoundaries_ascending|].
  intros O Hasc. apply ascending_StronglySorted in Hasc.
  unfold spec_boundaries. fold (saveBoundaries audioFile).
  now rewrite (unique_ascending _ Hasc), (sort_ascending _ Hasc).
Qed.

(** Exact rational arithmetic satisfies the order facts. *)

Lemma Qc_ltb_lt (a b : Qc) : Qc_ltb a b = true <-> (a < b)%Qc.
Proof.
  unfold Qc_ltb. rewrite Qclt_alt.
  destruct (a ?= b)%Qc; split; congruence.
Qed.

Lemma Qc_eq_bool_refl (a : Qc) : Qc_eq_bool a a = true.
Proof.
  unfold Qc_eq_bool. destruct (Qc_eq_dec a a); congruence.
Qed.

Lemma JsNumberOrder_Qc : JsNumberOrder Qc.
Proof.
  split; cbn [ltb sub zero JsNumber_Qc].
  - intros a b c. rewrite !Qc_ltb_lt. apply Qclt_trans.
  - intros a b Hab. apply Qc_ltb_lt in Hab.
    destruct (Qc_ltb b a) eqn:Hba; [|reflexivity].
    apply Qc_ltb_lt in Hba.
    destruct (Qclt_not_eq a a); [now apply Qclt_trans with b | reflexivity].
  - intros a b. apply eq_iff_eq_true. rewrite !Qc_ltb_lt.
    rewrite (Qclt_minus_iff (a - b)%Qc), (Qclt_minus_iff a b).
    replace (Q2Qc 0 + - (a - b))%Qc with (b + - a)%Qc by ring.
    reflexivity.
  - intros a b Hab. apply Qc_ltb_lt in Hab.
    unfold sameValueZero, isNaN. cbn [strictEq JsNumber_Qc].
    rewrite !Qc_eq_bool_refl. cbn [negb andb]. rewrite orb_false_r.
    destruct (Qc_eq_bool a b) eqn:Heq; [|reflexivity].
    apply Qc_eq_bool_correct in Heq.
    now destruct (Qclt_not_eq a b).
Qed.

(** IEEE 754 binary64 satisfies the order facts as well.  The comparisons
    and the subtraction of [float] are those of [SpecFloat] ([ltb_spec],
    [eqb_spec], [sub_spec]); the facts are proved of the specification, for
    the canonical numbers that [Prim2SF] returns. *)
Section Binary64Order.
Local Open Scope Z_scope.

Lemma digits2_pos_bounds (m : positive) :
  2 ^ (Zpos (digits2_pos m) - 1) <= Zpos m < 2 ^ Zpos (digits2_pos m).
Proof.
  induction m as [m IH|m IH|]; cbn [digits2_pos].
  - rewrite Pos2Z.inj_succ, (Pos2Z.inj_xI m).
    replace (Z.succ (Zpos (digits2_pos m)) - 1) with (Zpos (digits2_pos m)) by lia.
    rewrite Z.pow_succ_r by lia.
    assert (Hd : 2 ^ Zpos (digits2_pos m) = 2 * 2 ^ (Zpos (digits2_pos m) - 1))
      by (rewrite <- Z.pow_succ_r by lia; f_equal; lia).
    generalize dependent (2 ^ (Zpos (digits2_pos m) - 1)).
    generalize (2 ^ Zpos (digits2_pos m)). intros; lia.
  - rewrite Pos2Z.inj_succ, (Pos2Z.inj_xO m).
    replace (Z.succ (Zpos (digits2_pos m)) - 1) with (Zpos (digits2_pos m)) by lia.
    rewrite Z.pow_succ_r by lia.
    assert (Hd : 2 ^ Zpos (digits2_pos m) = 2 * 2 ^ (Zpos (digits2_pos m) - 1))
      by (rewrite <- Z.pow_succ_r by lia; f_equal; lia).
    generalize dependent (2 ^ (Zpos (digits2_pos m) - 1)).
    generalize (2 ^ Zpos (digits2_pos m)). intros; lia.
  - cbn. lia.
Qed.

Lemma shr_1_halves (mrs : shr_record) :
  0 <= shr_m mrs -> shr_m (shr_1 mrs) = shr_m mrs / 2.
Proof.
  destruct mrs as [m r s]. cbn [shr_m]. intros Hm.
  destruct m as [|[p|p|]|p]; cbn [shr_1 shr_m].
  - reflexivity.
  - rewrite Pos2Z.inj_xI. apply Z.div_unique with (r := 1); lia.
  - rewrite Pos2Z.inj_xO. apply Z.div_unique with (r := 0); lia.
  - reflexivity.
  - pose proof (Pos2Z.neg_is_neg p). lia.
Qed.

Lemma iter_shr_1_divides (n : positive) :
  forall mrs : shr_record,
    0 <= shr_m mrs -> shr_m (iter_pos shr_1 n mrs) = shr_m mrs / 2 ^ Zpos n.
Proof.
  induction n as [n IH|n IH|]; intros mrs Hm; cbn [iter_pos].
  - assert (H2 : 0 < 2 ^ Zpos n) by (apply Z.pow_pos_nonneg; lia).
    assert (H1 : 0 <= shr_m (shr_1 mrs))
      by (rewrite shr_1_halves by exact Hm; apply Z.div_pos; lia).
    assert (H3 : 0 <= shr_m (iter_pos shr_1 n (shr_1 mrs)))
      by (rewrite IH by exact H1; apply Z.div_pos; lia).
    rewrite IH by exact H3. rewrite IH by exact H1. rewrite shr_1_halves by exact Hm.
    rewrite !Z.div_div by lia.
    f_equal. rewrite (Pos2Z.inj_xI n).
    replace (2 * Zpos n + 1) with (1 + Zpos n + Zpos n) by lia.
    rewrite !Z.pow_add_r by lia. rewrite Z.pow_1_r. ring.
  - assert (H2 : 0 < 2 ^ Zpos n) by (apply Z.pow_pos_nonneg; lia).
    assert (H3 : 0 <= shr_m (iter_pos shr_1 n mrs))
      by (rewrite IH by exact Hm; apply Z.div_pos; lia).
    rewrite IH by exact H3. rewrite IH by exact Hm.
    rewrite !Z.div_div by lia.
    f_equal. rewrite (Pos2Z.inj_xO n).
    replace (2 * Zpos n) with (Zpos n + Zpos n) by lia.
    rewrite !Z.pow_add_r by lia. ring.
  - rewrite shr_1_halves by exact Hm. reflexivity.
Qed.

Lemma shr_record_of_loc_m (m : Z) (l : location) :
  shr_m (shr_record_of_loc m l) = m.
Proof. destruct l as [|[]]; reflexivity. Qed.

Lemma shr_fexp_positive (m : positive) (e : Z) (l : location) :
  -1074 <= e ->
  (exists m', shr_m (fst (shr_fexp prec emax (Zpos m) e l)) = Zpos m') /\
  -1074 <= snd (shr_fexp prec emax (Zpos m) e l).
Proof.
  intros He. unfold shr_fexp, shr, fexp, emin, prec, emax. cbn [Zdigits2].
  destruct (Z.max (Zpos (digits2_pos m) + e - 53) (3 - 1024 - 53) - e) as [|p|p] eqn:Hn;
    cbn [fst snd].
  - rewrite shr_record_of_loc_m. eauto.
  - assert (Hp : Zpos p = Zpos (digits2_pos m) - 53) by lia.
    split; [|lia].
    rewrite iter_shr_1_divides by (rewrite shr_record_of_loc_m; lia).
    rewrite shr_record_of_loc_m.
    pose proof (digits2_pos_bounds m) as [Hlow _].
    assert (Hle : 2 ^ Zpos p <= 2 ^ (Zpos (digits2_pos m) - 1))
      by (apply Z.pow_le_mono_r; lia).
    assert (H2 : 0 < 2 ^ Zpos p) by (apply Z.pow_pos_nonneg; lia).
    assert (Hdiv : 0 < Zpos m / 2 ^ Zpos p) by (apply Z.div_str_pos; lia).
    destruct (Zpos m / 2 ^ Zpos p) as [|q|q]; [lia| eauto | lia].
  - rewrite shr_record_of_loc_m. eauto.
Qed.

Lemma round_nearest_even_positive (m : positive) (l : location) :
  exists m', round_nearest_even (Zpos m) l = Zpos m'.
Proof.
  assert (H : 0 < round_nearest_even (Zpos m) l).
  { destruct l as [|[]]; cbn [round_nearest_even]; try lia.
    destruct (Z.even (Zpos m)); lia. }
  destruct (round_nearest_even (Zpos m) l) as [|q|q]; [lia| eauto | lia].
Qed.

Lemma binary_round_aux_sign (s : bool) (m : positive) (e : Z) (l : location) :
  -1074 <= e ->
  (exists m' e', binary_round_aux prec emax s (Zpos m) e l = S754_finite s m' e') \/
  binary_round_aux prec emax s (Zpos m) e l = S754_infinity s.
Proof.
  intros He. unfold binary_round_aux.
  destruct (shr_fexp_positive m e l He) as [[m1 Hm1] He1].
  destruct (shr_fexp prec emax (Zpos m) e l) as [mrs1 e1]. cbn [fst snd] in Hm1, He1.
  rewrite Hm1.
  destruct (round_nearest_even_positive m1 (loc_of_shr_record mrs1)) as [m2 Hm2].
  rewrite Hm2.
  destruct (shr_fexp_positive m2 e1 loc_Exact He1) as [[m3 Hm3] _].
  destruct (shr_fexp prec emax (Zpos m2) e1 loc_Exact) as [mrs3 e3]. cbn [fst] in Hm3.
  rewrite Hm3.
  destruct (e3 <=? emax - prec); eauto.
Qed.

Lemma binary_round_sign (s : bool) (m : positive) (e : Z) :
  -1074 <= e ->
  (exists m' e', binary_round prec emax s m e = S754_finite s m' e') \/
  binary_round prec emax s m e = S754_infinity s.
Proof.
  intros He. unfold binary_round.
  destruct (shl_align m e (fexp prec emax (Zpos (digits2_pos m) + e))) as [mz ez] eqn:Hz.
  apply binary_round_aux_sign.
  unfold shl_align, fexp, emin, prec, emax in Hz.
  destruct (Z.max (Zpos (digits2_pos m) + e - 53) (3 - 1024 - 53) - e);
    injection Hz as _ Hez; lia.
Qed.

Lemma iter_xO_shifts (m d : positive) :
  Zpos (Pos.iter xO m d) = Zpos m * 2 ^ Zpos d.
Proof.
  induction d as [|d IH] using Pos.peano_ind.
  - cbn. lia.
  - rewrite Pos.iter_succ, Pos2Z.inj_xO, IH, Pos2Z.inj_succ, Z.pow_succ_r by lia. lia.
Qed.

Lemma shl_align_fst (m : positive) (e e' : Z) :
  e' <= e -> Zpos (fst (shl_align m e e')) = Zpos m * 2 ^ (e - e').
Proof.
  intros Hle. unfold shl_align.
  destruct (e' - e) as [|d|d] eqn:Hd; cbn [fst].
  - replace (e - e') with 0 by lia. cbn. lia.
  - lia.
  - rewrite iter_xO_shifts. f_equal. f_equal. lia.
Qed.

Lemma bounded_canonical (m : positive) (e : Z) :
  bounded prec emax m e = true ->
  Z.max (Zpos (digits2_pos m) + e - 53) (-1074) = e.
Proof.
  unfold bounded, canonical_mantissa, fexp, emin, prec, emax.
  intros H. apply andb_true_iff in H as [H _]. apply Z.eqb_eq in H. exact H.
Qed.

(** Of two canonical mantissas the one with the lower exponent is the smaller
    once both are aligned. *)
Lemma aligned_lt (mx my : positive) (ex ey : Z) :
  bounded prec emax mx ex = true -> bounded prec emax my ey = true ->
  ex < ey ->
  Zpos mx * 2 ^ (ex - Z.min ex ey) < Zpos my * 2 ^ (ey - Z.min ex ey).
Proof.
  intros Hx Hy Hlt.
  apply bounded_canonical in Hx, Hy.
  pose proof (digits2_pos_bounds mx) as [_ Hmx].
  pose proof (digits2_pos_bounds my) as [Hmy _].
  rewrite Z.min_l by lia.
  replace (ex - ex) with 0 by lia. rewrite Z.pow_0_r, Z.mul_1_r.
  assert (Hx53 : 2 ^ Zpos (digits2_pos mx) <= 2 ^ 53) by (apply Z.pow_le_mono_r; lia).
  assert (Hy52 : 2 ^ 52 <= 2 ^ (Zpos (digits2_pos my) - 1))
    by (apply Z.pow_le_mono_r; lia).
  assert (Hp : 2 ^ 1 <= 2 ^ (ey - ex)) by (apply Z.pow_le_mono_r; lia).
  assert (H53 : 2 ^ 53 = 2 ^ 52 * 2 ^ 1) by reflexivity.
  assert (Hprod : 2 ^ 52 * 2 ^ 1 <= Zpos my * 2 ^ (ey - ex)).
  { apply Z.mul_le_mono_nonneg; lia. }
  lia.
Qed.

Lemma SFltb_trans (x y z : spec_float) :
  SFltb x y = true -> SFltb y z = true -> SFltb x z = true.
Proof.
  unfold SFltb, SFcompare.
  destruct x as [sx|sx| |sx mx ex], y as [sy|sy| |sy my ey], z as [sz|sz| |sz mz ez];
    try destruct sx; try destruct sy; try destruct sz;
    try discriminate; try reflexivity;
    change (Pos.compare_cont Eq) with Pos.compare;
    destruct (Z.compare_spec ex ey), (Z.compare_spec ey ez), (Z.compare_spec ex ez);
    try discriminate; try reflexivity; try lia; subst;
    destruct (Pos.compare_spec mx my), (Pos.compare_spec my mz), (Pos.compare_spec mx mz);
    cbn; try discriminate; try reflexivity; try lia; subst; lia.
Qed.

Lemma SFcompare_antisym (x y : spec_float) :
  SFcompare y x = option_map CompOpp (SFcompare x y).
Proof.
  unfold SFcompare.
  destruct x as [sx|sx| |sx mx ex], y as [sy|sy| |sy my ey];
    try destruct sx; try destruct sy; try reflexivity;
    change (Pos.compare_cont Eq) with Pos.compare;
    rewrite (Z.compare_antisym ey ex), (Pos.compare_antisym my mx);
    cbn; destruct (ey ?= ex), (my ?= mx)%positive; reflexivity.
Qed.

Lemma SFltb_asym (x y : spec_float) : SFltb x y = true -> SFltb y x = false.
Proof.
  unfold SFltb. rewrite (SFcompare_antisym x y).
  destruct (SFcompare x y) as [[]|]; cbn; congruence.
Qed.

Lemma SFeqb_sym (x y : spec_float) : SFeqb x y = SFeqb y x.
Proof.
  unfold SFeqb. rewrite (SFcompare_antisym x y).
  destruct (SFcompare x y) as [[]|]; reflexivity.
Qed.

Lemma SFltb_not_eqb (x y : spec_float) : SFltb x y = true -> SFeqb x y = false.
Proof. unfold SFltb, SFeqb. destruct (SFcompare x y) as [[]|]; congruence. Qed.

Lemma SFltb_not_nan (x y : spec_float) :
  SFltb x y = true -> SFeqb x x = true /\ SFeqb y y = true.
Proof.
  unfold SFltb, SFeqb, SFcompare.
  destruct x as [sx|sx| |sx mx ex], y as [sy|sy| |sy my ey];
    try destruct sx; try destruct sy; try discriminate; intros _;
    change (Pos.compare_cont Eq) with Pos.compare;
    rewrite ?Z.compare_refl, ?Pos.compare_refl; split; reflexivity.
Qed.

Lemma SFcompare_connected (x y : spec_float) :
  SFeqb x x = true -> SFeqb y y = true ->
  SFltb x y = false -> SFltb y x = false -> SFeqb x y = true.
Proof.
  unfold SFltb, SFeqb. rewrite (SFcompare_antisym x y).
  destruct x as [sx|sx| |sx mx ex], y as [sy|sy| |sy my ey]; cbn;
    try discriminate; try destruct sx; try destruct sy; cbn; try congruence;
    destruct (ex ?= ey); cbn; try congruence;
    destruct (Pos.compare_cont Eq mx my); cbn; congruence.
Qed.

Lemma SFsub_negative (x y : spec_float) :
  valid_binary x = true -> valid_binary y = true ->
  SFltb (SF64sub x y) (S754_zero false) = SFltb x y.
Proof.
  intros Hx Hy. unfold SF64sub.
  destruct x as [sx|sx| |sx mx ex], y as [sy|sy| |sy my ey];
    try (try destruct sx; try destruct sy; reflexivity).
  cbn [valid_binary] in Hx, Hy.
  unfold SFsub.
  pose proof (bounded_canonical _ _ Hx) as Hcx.
  pose proof (bounded_canonical _ _ Hy) as Hcy.
  rewrite (shl_align_fst mx ex (Z.min ex ey)) by lia.
  rewrite (shl_align_fst my ey (Z.min ex ey)) by lia.
  set (Mx := Zpos mx * 2 ^ (ex - Z.min ex ey)).
  set (My := Zpos my * 2 ^ (ey - Z.min ex ey)).
  assert (HMx : 0 < Mx) by (apply Z.mul_pos_pos; [lia | apply Z.pow_pos_nonneg; lia]).
  assert (HMy : 0 < My) by (apply Z.mul_pos_pos; [lia | apply Z.pow_pos_nonneg; lia]).
  assert (Hcmp : (Mx < My <-> (ex < ey \/ (ex = ey /\ (mx < my)%positive))) /\
                 (My < Mx <-> (ey < ex \/ (ex = ey /\ (my < mx)%positive)))).
  { destruct (Z.lt_total ex ey) as [Hlt|[Heq|Hgt]].
    - pose proof (aligned_lt mx my ex ey Hx Hy Hlt) as H. fold Mx My in H. lia.
    - subst ey. subst Mx My. rewrite Z.min_id, Z.sub_diag, Z.pow_0_r, !Z.mul_1_r. lia.
    - pose proof (aligned_lt my mx ey ex Hy Hx Hgt) as H.
      rewrite (Z.min_comm ey ex) in H. fold Mx My in H. lia. }
  assert (Hez : -1074 <= Z.min ex ey) by lia.
  assert (Hneg : forall d : Z, d < 0 ->
            SFltb (binary_normalize prec emax d (Z.min ex ey) false) (S754_zero false) = true).
  { intros [|p|p] Hd; try lia. cbn [binary_normalize].
    destruct (binary_round_sign true p _ Hez) as [(m' & e' & ->)| ->]; reflexivity. }
  assert (Hnonneg : forall d : Z, 0 <= d ->
            SFltb (binary_normalize prec emax d (Z.min ex ey) false) (S754_zero false) = false).
  { intros [|p|p] Hd; try lia; [reflexivity|]. cbn [binary_normalize].
    destruct (binary_round_sign false p _ Hez) as [(m' & e' & ->)| ->]; reflexivity. }
  unfold SFltb at 2. unfold SFcompare.
  change (Pos.compare_cont Eq) with Pos.compare.
  destruct sx, sy; cbn [cond_Zopp].
  - destruct (Z.compare_spec ex ey) as [Heq|Hlt|Hgt].
    + destruct (Pos.compare_spec mx my) as [Hm|Hm|Hm]; cbn [CompOpp].
      * apply Hnonneg. subst. lia.
      * apply Hnonneg. lia.
      * apply Hneg. lia.
    + apply Hnonneg. lia.
    + apply Hneg. lia.
  - apply Hneg. lia.
  - apply Hnonneg. lia.
  - destruct (Z.compare_spec ex ey) as [Heq|Hlt|Hgt].
    + destruct (Pos.compare_spec mx my) as [Hm|Hm|Hm].
      * apply Hnonneg. subst. lia.
      * apply Hneg. lia.
      * apply Hnonneg. lia.
    + apply Hneg. lia.
    + apply Hnonneg. lia.
Qed.

Lemma Prim2SF_isNaN (a : float) :
  isNaN a = false -> SFeqb (Prim2SF a) (Prim2SF a) = true.
Proof.
  unfold isNaN. cbn [strictEq JsNumber_float]. rewrite FloatAxioms.eqb_spec.
  apply negb_false_iff.
Qed.
End Binary64Order.

Lemma JsNumberOrder_float : JsNumberOrder float.
Proof.
  split; cbn [ltb sub zero JsNumber_float].
  - intros a b c. rewrite !ltb_spec. apply SFltb_trans.
  - intros a b. rewrite !ltb_spec. apply SFltb_asym.
  - intros a b. rewrite !ltb_spec, sub_spec.
    apply (SFsub_negative (Prim2SF a) (Prim2SF b)); apply Prim2SF_valid.
  - intros a b. rewrite ltb_spec. intros Hab.
    unfold sameValueZero, isNaN. cbn [strictEq JsNumber_float].
    rewrite !FloatAxioms.eqb_spec.
    destruct (SFltb_not_nan _ _ Hab) as [-> _].
    now rewrite (SFltb_not_eqb _ _ Hab).
Qed.

Lemma JsNumberConnected_float : JsNumberConnected float.
Proof.
  split.
  - intros a b. cbn [strictEq JsNumber_float].
    rewrite !FloatAxioms.eqb_spec. apply SFeqb_sym.
  - intros a b Ha Hb. apply Prim2SF_isNaN in Ha, Hb.
    cbn [ltb strictEq JsNumber_float].
    rewrite !ltb_spec, FloatAxioms.eqb_spec.
    now apply SFcompare_connected.
Qed.

(** The section 8 scenario: [0, 30, 90, 120] is strictly ascending in
    binary64, and in binary64 as in exact arithmetic it is the
    specification's boundary sequence. *)
Lemma saveBoundaries_chunks_witness :
  ascending (saveBoundaries scenario_track64) /\
  saveBoundaries scenario_track64 = spec_boundaries 120%float [30; 90]%float /\
  saveBoundaries scenario_track = spec_boundaries (ofZ 120) [ofZ 30; ofZ 90].
Proof.
  split; [|split].
  - apply (proj1 (proj2 (proj2
             (saveBoundaries_chunks float JsNumber_float scenario_track64)))).
    + reflexivity.
    + intros bp Hbp. cbn in Hbp. destruct Hbp as [<-|[<-|[]]]; split; reflexivity.
    + repeat constructor.
  - apply (proj2 (proj2 (proj2
             (saveBoundaries_chunks float JsNumber_float scenario_track64)))).
    + exact JsNumberOrder_float.
    + repeat constructor.
  - apply (proj2 (proj2 (proj2
             (saveBoundaries_chunks Qc JsNumber_Qc scenario_track)))).
    + exact JsNumberOrder_Qc.
    + repeat constructor.
Defined.

(** In binary64 the scenario's sequence is the specification's as well. *)
Example saveBoundaries_scenario_binary64 :
  saveBoundaries scenario_track64 = spec_boundaries 120%float [30; 90]%float.
Proof. reflexivity. Qed.

(** C2, counterexample.  For a 10 s track whose breakpoint list is [[0]], the
    sequence the code brackets is [0, 0, 10]: it repeats 0, it is not
    [sort(unique({0, 0, 10})) = [0, 10]], and it yields two chunks, the first
    of them empty. *)
Lemma saveBoundaries_not_unique :
  saveBoundaries zero_breakpoint_track = [0; 0; 10]%float /\
  spec_boundaries 10%float [0%float] = [0; 10]%float /\
  saveBoundaries zero_breakpoint_track <>
    spec_boundaries (AudioFile.duration zero_breakpoint_track)
                    (AudioFile.breakpoints zero_breakpoint_track) /\
  map (fun c => (AudioChunk.startTime c, AudioChunk.endTime c, AudioChunk.duration c))
      (saveChunks zero_breakpoint_track) =
    [(0, 0, 0); (0, 10, 10)]%float.
Proof.
  repeat split; try reflexivity.
  intros Heq. apply (f_equal (@List.length float)) in Heq.
  vm_compute in Heq. discriminate.
Qed.

(** The breakpoint list [[0]] is what [addBreakpoint] stores when it is given
    the time 0: it checks for repetition, not for the range. *)
Example addBreakpoint_accepts_zero :
  audioFiles_after (addBreakpoint "file-1" 0%float) [local_track "file-1" 10%float []] =
  [zero_breakpoint_track].
Proof. reflexivity. Qed.

(** The loop runs over every [i] below [len(boundaries) - 1]: the section 8
    scenario has four boundaries and three chunks, one more than the indices
    below [len(boundaries) - 2] would give. *)
Example saveChunks_scenario :
  map (fun c => (AudioChunk.id c, AudioChunk.startTime c, AudioChunk.endTime c,
                 AudioChunk.duration c))
      (saveChunks scenario_track64) =
    [("chunk-file-1-0", 0, 30, 30); ("chunk-file-1-1", 30, 90, 60);
     ("chunk-file-1-2", 90, 120, 30)]%float /\
  List.length (saveBoundaries scenario_track64) - 2 = 2.
Proof. split; reflexivity. Qed.

(** A track without breakpoints is saved as one chunk over its whole
    duration. *)
Example saveChunks_no_breakpoints :
  map (fun c => (AudioChunk.startTime c, AudioChunk.endTime c, AudioChunk.duration c))
      (saveChunks unit_track64) = [(0, 1, 1)%float].
Proof. reflexivity. Qed.

(** ** Breakpoint edits *)

Lemma with_breakpoints_same {T : Type} (file : AudioFile.t T) :
  AudioFile.with_breakpoints (AudioFile.breakpoints file) file = file.
Proof. now destruct file. Qed.

Lemma map_fixes {A : Type} (f : A -> A) (l : list A) :
  (forall a, In a l -> f a = a) -> map f l = l.
Proof.
  intros Hf. rewrite <- (map_id l) at 2. now apply map_ext_in.
Qed.

Lemma filter_strictEq_absent {T : Type} `{JsNumber T} (time : T) (bps : list T) :
  (forall bp, In bp bps -> (bp === time)%js = false) ->
  filter (fun bp => negb (bp === time)%js) bps = bps.
Proof.
  intros Habsent. apply filter_keep_all, Forall_forall.
  intros bp Hbp. now rewrite (Habsent bp Hbp).
Qed.

Lemma includes_false_strictEq {T : Type} `{JsNumber T} (time : T) (bps : list T) :
  includes bps time = false ->
  forall bp, In bp bps -> (bp === time)%js = false.
Proof.
  unfold includes. intros Hinc bp Hbp.
  destruct (bp === time)%js eqn:Heq; [|reflexivity].
  rewrite <- Hinc. symmetry. apply existsb_exists.
  exists bp. split; [exact Hbp|]. unfold sameValueZero. now rewrite Heq.
Qed.

(** C8. Adding a time that [includes] already finds in the breakpoint list of
    the track leaves the whole track list as it was.  Removing a time that no
    breakpoint of the track is [===] to leaves the whole track list as it
    was, in particular when the track has no breakpoint at all.  Each of the
    two holds on its own condition, for any file id and any two times. *)
Theorem breakpoint_edits_noop :
  forall (T : Type) (N : JsNumber T) (state : list (AudioFile.t T))
         (fileId : string) (present absent : T),
    ((forall file, In file state -> AudioFile.id file = fileId ->
                   includes (AudioFile.breakpoints file) present = true) ->
     audioFiles_after (addBreakpoint fileId present) state = state) /\
    ((forall file, In file state -> AudioFile.id file = fileId ->
                   forall bp, In bp (AudioFile.breakpoints file) ->
                              (bp === absent)%js = false) ->
     audioFiles_after (removeBreakpoint fileId absent) state = state).
Proof.
  intros T N state fileId present absent.
  split; intros Hcondition; simpl; apply map_fixes; intros file Hfile.
  - destruct (String.eqb_spec (AudioFile.id file) fileId) as [Hid|]; [|reflexivity].
    now rewrite (Hcondition file Hfile Hid).
  - destruct (String.eqb_spec (AudioFile.id file) fileId) as [Hid|]; [|reflexivity].
    rewrite filter_strictEq_absent by exact (Hcondition file Hfile Hid).
    apply with_breakpoints_same.
Qed.

(** The scenario track holds 90 and does not hold 45; a track without
    breakpoints holds no time at all. *)
Lemma breakpoint_edits_noop_witness :
  audioFiles_after (addBreakpoint "file-1" 90%float) [scenario_track64] =
    [scenario_track64] /\
  audioFiles_after (removeBreakpoint "file-1" 45%float) [scenario_track64] =
    [scenario_track64] /\
  audioFiles_after (removeBreakpoint "file-1" 45%float) [unit_track64] =
    [unit_track64].
Proof.
  split; [|split].
  - apply (proj1 (breakpoint_edits_noop float JsNumber_float [scenario_track64]
                    "file-1" 90%float 45%float)).
    intros file [<-|[]] _. reflexivity.
  - apply (proj2 (breakpoint_edits_noop float JsNumber_float [scenario_track64]
                    "file-1" 90%float 45%float)).
    intros file [<-|[]] _ bp Hbp. cbn in Hbp.
    destruct Hbp as [<-|[<-|[]]]; reflexivity.
  - apply (proj2 (breakpoint_edits_noop float JsNumber_float [unit_track64]
                    "file-1" 90%float 45%float)).
    intros file [<-|[]] _ bp Hbp. destruct Hbp.
Defined.

(** C10. With a count that is zero or negative, both [addEvenBreakpoints]
    (the page's and the track component's) return at once: no update is
    queued, no callback is called, and the track list stays as it is. *)
Theorem addEvenBreakpoints_nonpositive :
  forall (T : Type) (N : JsNumber T) (audioFiles state : list (AudioFile.t T))
         (fileId : string) (count : Z),
    (count <= 0)%Z ->
    addEvenBreakpoints audioFiles fileId count = [] /\
    audioFiles_after (addEvenBreakpoints audioFiles fileId count) state = state /\
    forall audio onAddBreakpoint onRemoveBreakpoint disabled audioRef_current,
      AudioTrack.addEvenBreakpoints
        audio onAddBreakpoint onRemoveBreakpoint disabled audioRef_current count = [].
Proof.
  intros T N audioFiles state fileId count Hcount.
  apply Z.leb_le in Hcount.
  unfold addEvenBreakpoints, AudioTrack.addEvenBreakpoints. rewrite Hcount.
  repeat split.
  intros. now rewrite !orb_true_r.
Qed.

Lemma addEvenBreakpoints_nonpositive_witness :
  addEvenBreakpoints [scenario_track64] "file-1" (-2) = [] /\
  audioFiles_after (addEvenBreakpoints [scenario_track64] "file-1" (-2))
                   [scenario_track64] = [scenario_track64] /\
  forall (audio : AudioFile.t float)
         onAddBreakpoint onRemoveBreakpoint disabled audioRef_current,
    AudioTrack.addEvenBreakpoints
      audio onAddBreakpoint onRemoveBreakpoint disabled audioRef_current (-2) = [].
Proof.
  apply (addEvenBreakpoints_nonpositive float JsNumber_float). lia.
Defined.

(** ** Drag reordering *)

Section Reorder.
Context {A : Type}.

Lemma nth_error_middle (l : list A) (i : nat) (x : A) :
  nth_error l i = Some x -> l = firstn i l ++ x :: skipn (S i) l.
Proof.
  revert i. induction l as [|a l IH]; intros [|i] Hi; simpl in *; try discriminate.
  - now injection Hi as ->.
  - f_equal. now apply IH.
Qed.

Lemma splice_delete_length (l : list A) (i : nat) :
  i < List.length l -> List.length (splice_delete i l) = List.length l - 1.
Proof.
  intros Hi. unfold splice_delete.
  rewrite length_app, length_firstn, length_skipn. lia.
Qed.

Lemma splice_delete_Permutation (l : list A) (i : nat) (x : A) :
  nth_error l i = Some x -> Permutation l (x :: splice_delete i l).
Proof.
  intros Hi. rewrite (nth_error_middle l i x Hi) at 1.
  symmetry. apply Permutation_middle.
Qed.

Lemma splice_insert_Permutation (l : list A) (i : nat) (x : A) :
  Permutation (x :: l) (splice_insert i x l).
Proof.
  unfold splice_insert. rewrite <- (firstn_skipn i l) at 1.
  apply Permutation_middle.
Qed.

Lemma splice_insert_nth (l : list A) (i : nat) (x : A) :
  i <= List.length l -> nth_error (splice_insert i x l) i = Some x.
Proof.
  intros Hi. unfold splice_insert.
  rewrite nth_error_app2; rewrite length_firstn, Nat.min_l by exact Hi; [|lia].
  now rewrite Nat.sub_diag.
Qed.

Lemma splice_delete_insert (l : list A) (i : nat) (x : A) :
  i <= List.length l -> splice_delete i (splice_insert i x l) = l.
Proof.
  unfold splice_delete, splice_insert.
  revert i. induction l as [|a l IH]; intros [|i] Hi; simpl in *;
    try reflexivity; try lia.
  f_equal. apply IH. lia.
Qed.
End Reorder.

(** C6. For a dragged index and a target index inside the track list,
    [handleDragOver] yields a list that is a rearrangement of the tracks (the
    records themselves, hence their ids and every field), holds the dragged
    track at the target index, and, the moved track left out, is the old list
    with the moved track left out: the other tracks keep their order. *)
Theorem handleDragOver_reorders :
  forall (T : Type) (audioFiles : list (AudioFile.t T)) (dragged index : nat),
    dragged < List.length audioFiles ->
    index < List.length audioFiles ->
    exists trace,
      handleDragOver audioFiles (Some dragged) index = Some trace /\
      let newAudioFiles := audioFiles_after trace audioFiles in
      Permutation audioFiles newAudioFiles /\
      Permutation (map AudioFile.id audioFiles) (map AudioFile.id newAudioFiles) /\
      nth_error newAudioFiles index = nth_error audioFiles dragged /\
      splice_delete index newAudioFiles = splice_delete dragged audioFiles.
Proof.
  intros T audioFiles dragged index Hdragged Hindex.
  unfold handleDragOver.
  destruct (Nat.eqb_spec dragged index) as [->|Hneq].
  - exists [PreventDefault]. simpl. repeat split; reflexivity.
  - destruct (nth_error audioFiles dragged) as [content|] eqn:Hcontent.
    2:{ apply nth_error_None in Hcontent. lia. }
    eexists. split; [reflexivity|]. simpl.
    assert (Hperm : Permutation audioFiles
              (splice_insert index content (splice_delete dragged audioFiles))).
    { etransitivity; [apply (splice_delete_Permutation _ _ _ Hcontent)|].
      apply splice_insert_Permutation. }
    assert (Hle : index <= List.length (splice_delete dragged audioFiles))
      by (rewrite splice_delete_length; lia).
    repeat split.
    + exact Hperm.
    + now apply Permutation_map.
    + now apply splice_insert_nth.
    + now apply splice_delete_insert.
Qed.

Lemma handleDragOver_reorders_witness :
  exists trace,
    handleDragOver three_tracks (Some 0) 2 = Some trace /\
    let newAudioFiles := audioFiles_after trace three_tracks in
    Permutation three_tracks newAudioFiles /\
    Permutation (map AudioFile.id three_tracks) (map AudioFile.id newAudioFiles) /\
    nth_error newAudioFiles 2 = nth_error three_tracks 0 /\
    splice_delete 2 newAudioFiles = splice_delete 0 three_tracks.
Proof.
  apply (handleDragOver_reorders float); simpl; lia.
Defined.

(** ** Even split *)

Lemma addEvenBreakpoints_points {T : Type} `{JsNumber T}
    (audioFiles : list (AudioFile.t T)) (fileId : string) (count : Z)
    (audioFile : AudioFile.t T) (state : list (AudioFile.t T)) :
  (1 <= count)%Z ->
  find (fun file => String.eqb (AudioFile.id file) fileId) audioFiles = Some audioFile ->
  audioFiles_after (addEvenBreakpoints audioFiles fileId count) state =
  map (fun file =>
         if String.eqb (AudioFile.id file) fileId
         then AudioFile.with_breakpoints
                (spec_evenSplit (AudioFile.duration audioFile) count) file
         else file)
      state.
Proof.
  intros Hcount Hfind. unfold addEvenBreakpoints.
  destruct (Z.leb_spec count 0) as [|_]; [lia|].
  rewrite Hfind. unfold spec_evenSplit. simpl. rewrite for_range_push, map_map.
  replace (S (Z.to_nat count) - 1) with (Z.to_nat count) by lia.
  apply map_ext. intros file. simpl.
  destruct (String.eqb (AudioFile.id file) fileId) eqn:Hid; simpl; now rewrite Hid.
Qed.

(** *** Rounding, in the rationals *)





Section EvenSplitRounded.
Context {T : Type} `{JsNumber T} `{JsNumberValue T}.
Variable d : T.
Variable count : Z.
Hypothesis count_positive : (1 <= count)%Z.





End EvenSplitRounded.



(** The section 8 scenario in exact arithmetic: the operations on rationals
    round within 0, and the four chunks of the 100 s track last 25 s. *)
Example evenSplit_exact :
  map (fun file =>
         (AudioFile.breakpoints file, map AudioChunk.duration (saveChunks file)))
      (audioFiles_after (addEvenBreakpoints [even_track] "file-1" 3) [even_track]) =
  [([ofZ 25; ofZ 50; ofZ 75], [ofZ 25; ofZ 25; ofZ 25; ofZ 25])].
Proof.
  cbn. repeat f_equal; apply Qc_is_canon; reflexivity.
Qed.

(** The section 8 scenario as binary64 computes it: the old breakpoint is
    gone, the new ones are 25, 50 and 75, and the four chunks last 25 s. *)
Example evenSplit_binary64 :
  map (fun file =>
         (AudioFile.breakpoints file, map AudioChunk.duration (saveChunks file)))
      (audioFiles_after (addEvenBreakpoints [even_track64] "file-1" 3) [even_track64]) =
  [([25; 50; 75]%float, [25; 25; 25; 25]%float)].
Proof. reflexivity. Qed.

(** Splitting 1 s in three in binary64: the last chunk is not [===] to the
    first, the durations agree up to rounding only. *)
Example evenSplit_binary64_rounds :
  match flat_map saveChunks
          (audioFiles_after (addEvenBreakpoints [unit_track64] "file-1" 2)
                            [unit_track64]) with
  | [first; _; last] =>
      (AudioChunk.duration first === AudioChunk.duration last)%js = false /\
      (PrimFloat.abs (AudioChunk.duration last - AudioChunk.duration first)
         <? 0x1p-52)%float = true
  | _ => False
  end.
Proof. vm_compute. split; reflexivity. Qed.

(** ** The upload route *)

Module UploadRouteFacts.
Import UploadRoute.

(** The metadata block never throws, whatever the parser and the storage
    client do. *)
Lemma store_metadata_returns (env : Env) (breakpointsJson : option string) :
  snd (store_metadata env breakpointsJson) = inr tt.
Proof.
  unfold store_metadata.
  destruct breakpointsJson as [text|]; [|reflexivity].
  destruct (truthy text); [|reflexivity].
  cbn -[append].
  destruct (JSON_parse env text) as [reason|[]]; cbn -[append]; [reflexivity|].
  destruct (upload_metadata env _ text) as [[metadataError|]|reason]; reflexivity.
Qed.

(** When it fails, the failure is written to the console. *)
Lemma store_metadata_logs (env : Env) (text : string) :
  truthy text = true ->
  (exists reason, JSON_parse env text = inl reason) \/
  (exists reason,
     upload_metadata env ("audio/metadata-" ++ randomHash env ++ ".json")%string text =
     Rejected reason) \/
  (exists message,
     upload_metadata env ("audio/metadata-" ++ randomHash env ++ ".json")%string text =
     Fulfilled (Some message)) ->
  In (Log "warn" "Failed to upload metadata, but continuing with main file upload:")
     (events (fst (store_metadata env (Some text)))) \/
  In (Log "error" "Failed to process or upload metadata, but continuing:")
     (events (fst (store_metadata env (Some text)))).
Proof.
  intros Htext Hfail. unfold store_metadata. rewrite Htext.
  destruct (JSON_parse env text) as [reason|[]] eqn:Hparse; cbn -[append].
  - right. auto.
  - destruct Hfail as [[r Hr]|[[r Hr]|[m Hm]]].
    + discriminate.
    + rewrite Hr. cbn. right. auto.
    + rewrite Hm. cbn. left. auto.
Qed.

(** C9. Once the credentials are present, the form holds a file, the bucket
    is there (or was created), the audio file is stored and its public URL is
    known, [POST] answers [{success: true, key, url}] with status 200, for
    every [breakpoints] field, every verdict of [JSON.parse] and every outcome
    of the metadata upload; and when the metadata step fails the failure is
    written to the console. *)
Theorem POST_metadata_failure_not_fatal :
  forall (env : Env) (audioFile : File) (breakpointsJson : option string)
         (names : list string) (stored : option unit) (publicUrl : string),
    truthy (supabaseUrl env) = true ->
    truthy (supabaseAnonKey env) = true ->
    formData env = Fulfilled (Some audioFile, breakpointsJson) ->
    arrayBuffer env = Fulfilled tt ->
    listBuckets env = Fulfilled {| data := Some names; error := None |} ->
    existsb (fun bucket => String.eqb bucket "audio-files") names = true \/
      createBucket env = Fulfilled None ->
    let key :=
      ("audio/original-" ++ randomHash env ++ "." ++
       split_pop (name audioFile) EmptyString)%string in
    upload env key = Fulfilled {| data := stored; error := None |} ->
    getPublicUrl env key = Some publicUrl ->
    truthy publicUrl = true ->
    snd (POST env) = inr {| status := 200; body := Success key publicUrl |} /\
    forall text,
      breakpointsJson = Some text ->
      truthy text = true ->
      (exists reason, JSON_parse env text = inl reason) \/
      (exists reason,
         upload_metadata env ("audio/metadata-" ++ randomHash env ++ ".json")%string text =
         Rejected reason) \/
      (exists message,
         upload_metadata env ("audio/metadata-" ++ randomHash env ++ ".json")%string text =
         Fulfilled (Some message)) ->
      In (Log "warn" "Failed to upload metadata, but continuing with main file upload:")
         (events (fst (POST env))) \/
      In (Log "error" "Failed to process or upload metadata, but continuing:")
         (events (fst (POST env))).
Proof.
  intros env audioFile breakpointsJson names stored publicUrl
         Hurl Hkey Hform Hbuffer Hbuckets Hbucket key Hupload Hpublic Htruthy.
  pose proof (store_metadata_returns env breakpointsJson) as Hreturns.
  destruct (store_metadata env breakpointsJson) as [steps r] eqn:Hsteps.
  cbn [snd] in Hreturns. subst r.
  assert (Hpost :
            snd (POST env) = inr {| status := 200; body := Success key publicUrl |} /\
            exists before, fst (POST env) = before ++ steps).
  { subst key.
    unfold POST, POST_with. rewrite Hurl, Hkey, Hform, Hbuffer, Hbuckets.
    cbn -[append split_pop store_metadata].
    destruct Hbucket as [Hexists|Hcreate].
    - rewrite Hexists. cbn -[append split_pop store_metadata].
      rewrite Hupload. cbn -[append split_pop store_metadata].
      rewrite Hpublic, Htruthy, Hsteps. cbn -[append split_pop store_metadata].
      rewrite app_nil_r. split; [reflexivity|].
      repeat apply suffix_cons. now exists [].
    - destruct (existsb _ names); cbn -[append split_pop store_metadata].
      + rewrite Hupload. cbn -[append split_pop store_metadata].
        rewrite Hpublic, Htruthy, Hsteps. cbn -[append split_pop store_metadata].
        rewrite app_nil_r. split; [reflexivity|].
        repeat apply suffix_cons. now exists [].
      + rewrite Hcreate. cbn -[append split_pop store_metadata].
        rewrite Hupload. cbn -[append split_pop store_metadata].
        rewrite Hpublic, Htruthy, Hsteps. cbn -[append split_pop store_metadata].
        rewrite app_nil_r. split; [reflexivity|].
        repeat apply suffix_cons. now exists []. }
  destruct Hpost as [Hresponse [before Hbefore]].
  split; [exact Hresponse|].
  intros text -> Htext Hfail.
  pose proof (store_metadata_logs env text Htext Hfail) as Hlogs.
  rewrite Hsteps in Hlogs. cbn [fst] in Hlogs.
  rewrite Hbefore, events_app.
  destruct Hlogs as [Hlog|Hlog]; [left|right]; apply in_or_app; now right.
Qed.

Lemma POST_metadata_failure_not_fatal_witness :
  snd (POST bad_metadata_env) =
    inr {| status := 200;
           body := Success "audio/original-h.mp3"
                     "https://project.supabase.co/storage/audio/original-h.mp3" |} /\
  (In (Log "warn" "Failed to upload metadata, but continuing with main file upload:")
      (events (fst (POST bad_metadata_env))) \/
   In (Log "error" "Failed to process or upload metadata, but continuing:")
      (events (fst (POST bad_metadata_env)))).
Proof.
  destruct (POST_metadata_failure_not_fatal
              bad_metadata_env mp3 (Some "{not json") ["audio-files"] (Some tt)
              "https://project.supabase.co/storage/audio/original-h.mp3"
              eq_refl eq_refl eq_refl eq_refl eq_refl (or_introl eq_refl)
              eq_refl eq_refl eq_refl)
    as [Hresponse Hlogged].
  split; [exact Hresponse|].
  apply (Hlogged "{not json" eq_refl eq_refl).
  left. eexists. reflexivity.
Defined.
End UploadRouteFacts.

(** ** Submitting *)

(** C4. When the track list the handler sees holds a track that is
    uploading, [handleSubmit] raises the submitting flag, reports "Please wait
    for all files to finish uploading" in a destructive toast, lowers the
    flag, and does nothing else: it never suspends and no request is sent,
    neither to the upload route nor to [/video/process-and-store]. *)
Theorem handleSubmit_waits_for_uploads :
  forall (T : Type) (N : JsNumber T) (audioFiles : list (AudioFile.t T))
         (network : Network T) (NEXT_PUBLIC_API_URL : string),
    existsb AudioFile.uploading audioFiles = true ->
    handleSubmit audioFiles network NEXT_PUBLIC_API_URL =
      ([Do (SetIsSubmitting true);
        Do (Console "error" "Error submitting project:");
        Do (Toast {| title := "Error submitting project";
                     description := "Please wait for all files to finish uploading";
                     variant := Some "destructive" |});
        Do (SetIsSubmitting false)],
       inr tt) /\
    requests (events (fst (handleSubmit audioFiles network NEXT_PUBLIC_API_URL))) = [].
Proof.
  intros T N audioFiles network api Huploading.
  unfold handleSubmit. rewrite Huploading. split; reflexivity.
Qed.

Lemma handleSubmit_waits_for_uploads_witness :
  handleSubmit [uploading_track64] accepting_network "https://api.example" =
    ([Do (SetIsSubmitting true);
      Do (Console "error" "Error submitting project:");
      Do (Toast {| title := "Error submitting project";
                   description := "Please wait for all files to finish uploading";
                   variant := Some "destructive" |});
      Do (SetIsSubmitting false)],
     inr tt) /\
  requests (events (fst (handleSubmit [uploading_track64] accepting_network
                                      "https://api.example"))) = [].
Proof.
  apply (handleSubmit_waits_for_uploads float JsNumber_float). reflexivity.
Defined.

(** ** Saving a track *)

Section SaveAudioFile.
Context {T : Type} `{JsNumber T}.
Variable audioFiles : list (AudioFile.t T).
Variable network : Network T.
Variable fileId : string.

Lemma uploading_reverted (state : list (AudioFile.t T)) :
  map (fun file =>
         if String.eqb (AudioFile.id file) fileId
         then AudioFile.with_uploading false file else file)
      (map (fun file =>
              if String.eqb (AudioFile.id file) fileId
              then AudioFile.with_uploading true file else file)
           state) =
  map (fun file =>
         if String.eqb (AudioFile.id file) fileId
         then AudioFile.with_uploading false file else file)
      state.
Proof.
  rewrite map_map. apply map_ext. intros file.
  destruct (String.eqb (AudioFile.id file) fileId) eqn:Hid; cbn; now rewrite Hid.
Qed.

Lemma not_uploading_fixed (state : list (AudioFile.t T)) :
  (forall file, In file state -> AudioFile.id file = fileId ->
                AudioFile.uploading file = false) ->
  map (fun file =>
         if String.eqb (AudioFile.id file) fileId
         then AudioFile.with_uploading false file else file)
      state = state.
Proof.
  intros Hlocal. apply map_fixes. intros file Hfile.
  destruct (String.eqb_spec (AudioFile.id file) fileId) as [Hid|]; [|reflexivity].
  specialize (Hlocal file Hfile Hid). destruct file. cbn in *. now subst.
Qed.

(** [saveAudioFile] catches whatever goes wrong: its promise is never
    rejected. *)
Lemma saveAudioFile_returns :
  snd (saveAudioFile audioFiles network fileId) = inr tt.
Proof.
  unfold saveAudioFile.
  destruct (find _ audioFiles) as [audioFile|]; [|reflexivity].
  cbn -[append].
  destruct (fetch_upload network _) as [response|reason]; cbn -[append];
    [|reflexivity].
  destruct (json response) as [result|reason]; cbn -[append]; [|reflexivity].
  destruct (success result); reflexivity.
Qed.

(** It talks to the upload route only. *)
Lemma saveAudioFile_json_posts :
  json_posts (events (fst (saveAudioFile audioFiles network fileId))) = [].
Proof.
  unfold saveAudioFile.
  destruct (find _ audioFiles) as [audioFile|]; [|reflexivity].
  cbn -[append].
  destruct (fetch_upload network _) as [response|reason]; cbn -[append];
    [|reflexivity].
  destruct (json response) as [result|reason]; cbn -[append]; [|reflexivity].
  destruct (success result); reflexivity.
Qed.

(** On success the track is marked uploaded and receives the key, the URL
    and the chunks derived from the captured track. *)
Lemma saveAudioFile_success_stores (audioFile : AudioFile.t T)
    (response : Response UploadResult) (result : UploadResult)
    (state : list (AudioFile.t T)) :
  find (fun file => String.eqb (AudioFile.id file) fileId) audioFiles = Some audioFile ->
  fetch_upload network
    {| form_file := AudioFile.file audioFile;
       form_fileName := AudioFile.fileName audioFile;
       form_breakpoints :=
         {| meta_fileName := AudioFile.fileName audioFile;
            meta_duration := AudioFile.duration audioFile;
            meta_breakpoints := AudioFile.breakpoints audioFile |} |} =
    Fulfilled response ->
  json response = Fulfilled result ->
  success result = true ->
  audioFiles_after (events (fst (saveAudioFile audioFiles network fileId))) state =
  map (fun file =>
         if String.eqb (AudioFile.id file) fileId
         then AudioFile.with_upload (or_else (key result) "") (or_else (url result) "")
                                    (saveChunks audioFile) file
         else file)
      state.
Proof.
  intros Hfind Hfetch Hjson Hsuccess.
  unfold saveAudioFile. rewrite Hfind, Hfetch. cbn -[append saveChunks].
  rewrite Hjson. cbn -[append saveChunks]. rewrite Hsuccess. cbn -[append saveChunks].
  rewrite map_map. apply map_ext. intros file.
  destruct (String.eqb (AudioFile.id file) fileId) eqn:Hid; cbn; now rewrite Hid.
Qed.

(** C7. When the upload request is rejected, its body cannot be read, or
    the route answers without [success], [saveAudioFile] does not throw; its
    two updates together set [uploading] to false on the track and change no
    other field of any track, so a track that was not uploading before the
    save is again exactly what it was (there is no failure state to keep, and
    [uploaded], the breakpoints, the chunks and the storage key and URL are
    untouched); and one destructive toast "Upload failed" is shown. *)
Theorem saveAudioFile_failure_reverts :
  forall audioFile : AudioFile.t T,
    find (fun file => String.eqb (AudioFile.id file) fileId) audioFiles = Some audioFile ->
    let formData :=
      {| form_file := AudioFile.file audioFile;
         form_fileName := AudioFile.fileName audioFile;
         form_breakpoints :=
           {| meta_fileName := AudioFile.fileName audioFile;
              meta_duration := AudioFile.duration audioFile;
              meta_breakpoints := AudioFile.breakpoints audioFile |} |} in
    (exists reason, fetch_upload network formData = Rejected reason) \/
    (exists response reason,
       fetch_upload network formData = Fulfilled response /\
       json response = Rejected reason) \/
    (exists response result,
       fetch_upload network formData = Fulfilled response /\
       json response = Fulfilled result /\ success result = false) ->
    let trace := events (fst (saveAudioFile audioFiles network fileId)) in
    snd (saveAudioFile audioFiles network fileId) = inr tt /\
    (forall state,
       audioFiles_after trace state =
       map (fun file =>
              if String.eqb (AudioFile.id file) fileId
              then AudioFile.with_uploading false file else file)
           state) /\
    (forall state,
       (forall file, In file state -> AudioFile.id file = fileId ->
                     AudioFile.uploading file = false) ->
       audioFiles_after trace state = state) /\
    exists message,
      toasts trace =
      [{| title := "Upload failed";
          description :=
            ("Failed to upload " ++ AudioFile.fileName audioFile ++ ". " ++ message)%string;
          variant := Some "destructive" |}].
Proof.
  intros audioFile Hfind formData Hfails trace.
  split; [apply saveAudioFile_returns|].
  assert (Htrace :
    (forall state,
       audioFiles_after trace state =
       map (fun file =>
              if String.eqb (AudioFile.id file) fileId
              then AudioFile.with_uploading false file else file)
           state) /\
    exists message,
      toasts trace =
      [{| title := "Upload failed";
          description :=
            ("Failed to upload " ++ AudioFile.fileName audioFile ++ ". " ++ message)%string;
          variant := Some "destructive" |}]).
  { subst trace. unfold saveAudioFile. rewrite Hfind. fold formData.
    destruct Hfails as [[reason Hfetch]|[(response & reason & Hfetch & Hjson)
                                        |(response & result & Hfetch & Hjson & Hsuccess)]];
      rewrite Hfetch; cbn -[append];
      try (rewrite Hjson; cbn -[append]);
      try (rewrite Hsuccess; cbn -[append]);
      (split; [intros state; apply uploading_reverted | eexists; reflexivity]). }
  destruct Htrace as [Hstate Htoast].
  split; [exact Hstate|]. split; [|exact Htoast].
  intros state Hlocal. rewrite Hstate. now apply not_uploading_fixed.
Qed.
End SaveAudioFile.

Lemma saveAudioFile_failure_reverts_witness :
  snd (saveAudioFile [scenario_track64] refusing_network "file-1") = inr tt /\
  audioFiles_after
    (events (fst (saveAudioFile [scenario_track64] refusing_network "file-1")))
    [scenario_track64] = [scenario_track64] /\
  exists message,
    toasts (events (fst (saveAudioFile [scenario_track64] refusing_network "file-1"))) =
    [{| title := "Upload failed";
        description := ("Failed to upload take.one.mp3. " ++ message)%string;
        variant := Some "destructive" |}].
Proof.
  destruct (saveAudioFile_failure_reverts
              [scenario_track64] refusing_network "file-1" scenario_track64 eq_refl)
    as (Hreturns & _ & Hlocal & Htoast).
  - right. right. do 2 eexists. repeat split; reflexivity.
  - split; [exact Hreturns|]. split; [|exact Htoast].
    apply Hlocal. intros file [<-|[]] _. reflexivity.
Defined.

(** ** The payload of a submission *)


Lemma NoDup_map_middle {A B : Type} (f : A -> B) (before after : list A) (x y : A) :
  NoDup (map f (before ++ x :: after)) ->
  In y (before ++ after) -> f y <> f x.
Proof.
  rewrite map_app. cbn. intros Hnodup Hy Heq.
  apply NoDup_remove_2 in Hnodup. apply Hnodup.
  rewrite <- map_app, <- Heq. now apply in_map.
Qed.

Lemma find_by_id {T : Type} (audioFiles : list (AudioFile.t T)) (audio : AudioFile.t T) :
  NoDup (map AudioFile.id audioFiles) ->
  In audio audioFiles ->
  find (fun file => String.eqb (AudioFile.id file) (AudioFile.id audio)) audioFiles =
    Some audio /\
  forall file,
    In file audioFiles -> AudioFile.id file = AudioFile.id audio -> file = audio.
Proof.
  induction audioFiles as [|first rest IH]; intros Hids Hin; [easy|].
  cbn [map] in Hids. inversion Hids as [|? ? Hfirst Hrest]; subst.
  cbn [find].
  destruct Hin as [->|Hin].
  - rewrite String.eqb_refl. split; [reflexivity|].
    intros file [->|Hfile] Hid; [reflexivity|].
    exfalso. apply Hfirst. rewrite <- Hid. now apply in_map.
  - destruct (String.eqb_spec (AudioFile.id first) (AudioFile.id audio)) as [Heq|Hne].
    + exfalso. apply Hfirst. rewrite Heq. now apply in_map.
    + destruct (IH Hrest Hin) as [Hfind Hsame]. split; [assumption|].
      intros file [<-|Hfile] Hid; [contradiction|]. now apply Hsame.
Qed.

Section Submit.
Context {T : Type} `{JsNumber T}.
Variable audioFiles : list (AudioFile.t T).
Variable network : Network T.
Variable NEXT_PUBLIC_API_URL : string.

Lemma json_posts_app (trace trace' : list (Effect T)) :
  json_posts (trace ++ trace') = json_posts trace ++ json_posts trace'.
Proof. apply flat_map_app. Qed.

Lemma saves_quiet (files : list (AudioFile.t T))
    (part : list (Step (Effect T)) -> list (Step (Effect T))) :
  (forall trace, json_posts (events trace) = [] -> json_posts (events (part trace)) = []) ->
  json_posts
    (events (flat_map
               (fun c : M (Effect T) unit => part (fst c))
               (map (fun file => saveAudioFile audioFiles network (AudioFile.id file))
                    files))) = [].
Proof.
  intros Hpart. induction files as [|file files IH]; simpl.
  - reflexivity.
  - rewrite events_app, json_posts_app, IH, app_nil_r.
    apply Hpart, saveAudioFile_json_posts.
Qed.

Lemma json_posts_split (trace : list (Step (Effect T))) :
  json_posts (events trace) = [] ->
  json_posts (events (before_await trace)) = [] /\
  json_posts (events (from_await trace)) = [].
Proof.
  intros Hquiet. rewrite <- (before_from_await trace) in Hquiet.
  rewrite events_app, json_posts_app in Hquiet.
  now apply app_eq_nil in Hquiet.
Qed.

Lemma promise_all_saves (files : list (AudioFile.t T)) :
  exists trace values,
    promise_all (map (fun file => saveAudioFile audioFiles network (AudioFile.id file))
                     files) = (trace, inr values) /\
    json_posts (events trace) = [].
Proof.
  unfold promise_all.
  destruct (all_settled_returns
              (map snd (map (fun file =>
                               saveAudioFile audioFiles network (AudioFile.id file))
                            files)))
    as [values Hvalues].
  { rewrite map_map. apply Forall_map, Forall_forall. intros file _.
    exists tt. apply saveAudioFile_returns. }
  rewrite Hvalues. do 2 eexists. split; [reflexivity|].
  rewrite events_app, json_posts_app.
  change (events (Yield :: ?l)) with (events l).
  rewrite !saves_quiet; [reflexivity| |]; intros trace Hquiet;
    now apply json_posts_split in Hquiet.
Qed.

(** Whenever no track is uploading, [handleSubmit] sends exactly one JSON
    request, to [/video/process-and-store], and its payload is built from the
    track list the handler captured: the answers of the upload route, which
    reach the state through queued updates, have no part in it. *)
Lemma handleSubmit_payload :
  existsb AudioFile.uploading audioFiles = false ->
  json_posts (events (fst (handleSubmit audioFiles network NEXT_PUBLIC_API_URL))) =
  [((NEXT_PUBLIC_API_URL ++ "/video/process-and-store")%string,
    requestPayload audioFiles)].
Proof.
  intros Huploading. unfold handleSubmit. rewrite Huploading.
  destruct (promise_all_saves
              (filter (fun file => negb (AudioFile.uploaded file)) audioFiles))
    as (trace & values & Hall & Hposts).
  cbn -[append requestPayload promise_all Nat.ltb json_posts events].
  destruct (Nat.ltb 0 _); [rewrite Hall|];
    cbn -[append requestPayload promise_all Nat.ltb json_posts events];
    (destruct (fetch_process network (requestPayload audioFiles))
       as [response|reason];
     cbn -[append requestPayload promise_all Nat.ltb json_posts events];
     [destruct (ok response);
      cbn -[append requestPayload promise_all Nat.ltb json_posts events];
      destruct (json response) as [result|reason];
      cbn -[append requestPayload promise_all Nat.ltb json_posts events]|]);
    unfold json_posts, events in *;
    repeat (progress cbn [flat_map app] || rewrite flat_map_app || rewrite Hposts);
    reflexivity.
Qed.





End Submit.

(** ** Saving every track, then submitting *)





(** A call that the page does not make: [handleSubmit] on a track that was
    not saved.  The track is uploaded first and the upload route returns its
    public URL, which the queued update writes into the state; the payload
    sent to [/video/process-and-store] is built from the captured track list,
    where the track's [storageUrl] is still the empty string. *)
Remark handleSubmit_stale_storageUrl :
  requests (events (fst unsaved_submit)) =
    [PostForm "/api/upload"
       {| form_file := mp3;
          form_fileName := "take.one.mp3";
          form_breakpoints :=
            {| meta_fileName := "take.one.mp3";
               meta_duration := 120%float;
               meta_breakpoints := [30; 90]%float |} |};
     PostJson "https://api.example/video/process-and-store"
       {| data := [{| supabase_url := ""; breakpoints := [30; 90]%float |}];
          combine_videos := false;
          output_dir := "output_videos" |}] /\
  map (fun file => (AudioFile.uploaded file, AudioFile.storageUrl file))
      (audioFiles_after (events (fst unsaved_submit)) [scenario_track64]) =
    [(true, "https://project.supabase.co/storage/audio/original-h.mp3")] /\
  snd unsaved_submit = inr tt /\
  submitDisabled [scenario_track64] false = true.
Proof. repeat split; reflexivity. Qed.

(** * Further properties of the code *)

(** ** Sorting and the breakpoint list *)

Section SortFacts.
Context {T : Type} `{JsNumber T}.
Variable comparefn : T -> T -> T.

Lemma sort_insert_split (x : T) (sorted : list T) :
  exists before after,
    sorted = before ++ after /\
    sort_insert comparefn x sorted = before ++ x :: after.
Proof.
  induction sorted as [|y rest (before & after & Hrest & Hins)]; simpl.
  - now exists [], [].
  - destruct (comparefn x y <? zero)%js.
    + now exists [], (y :: rest).
    + exists (y :: before), after. simpl. now rewrite <- Hrest, Hins.
Qed.

Lemma sort_insert_Permutation (x : T) (sorted : list T) :
  Permutation (sort_insert comparefn x sorted) (x :: sorted).
Proof.
  destruct (sort_insert_split x sorted) as (before & after & -> & ->).
  symmetry. apply Permutation_middle.
Qed.

Lemma sort_fold_Permutation (arr sorted : list T) :
  Permutation (fold_left (fun acc x => sort_insert comparefn x acc) arr sorted)
              (sorted ++ arr).
Proof.
  revert sorted. induction arr as [|x arr IH]; intros sorted; simpl.
  - now rewrite app_nil_r.
  - rewrite IH. rewrite sort_insert_Permutation.
    apply Permutation_middle.
Qed.

Lemma sort_Permutation (arr : list T) : Permutation (sort comparefn arr) arr.
Proof. unfold sort. apply sort_fold_Permutation. Qed.

Lemma sort_push (arr : list T) (x : T) :
  sort comparefn (arr ++ [x]) = sort_insert comparefn x (sort comparefn arr).
Proof. unfold sort. now rewrite fold_left_app. Qed.
End SortFacts.

(** X1. [addBreakpoint] keeps the number of tracks and every track with
    another id; on a track with the id whose list does not hold the time, the
    new breakpoint list is a rearrangement of the old one with the time
    added, and no other field of the track changes. *)
Theorem addBreakpoint_inserts :
  forall (T : Type) (N : JsNumber T) (state : list (AudioFile.t T))
         (fileId : string) (time : T),
    let state' := audioFiles_after (addBreakpoint fileId time) state in
    List.length state' = List.length state /\
    forall i file,
      nth_error state i = Some file ->
      (AudioFile.id file <> fileId -> nth_error state' i = Some file) /\
      (AudioFile.id file = fileId ->
       includes (AudioFile.breakpoints file) time = false ->
       exists newBreakpoints,
         nth_error state' i = Some (AudioFile.with_breakpoints newBreakpoints file) /\
         Permutation newBreakpoints (time :: AudioFile.breakpoints file)).
Proof.
  intros T N state fileId time. cbn. split; [apply length_map|].
  intros i file Hfile. rewrite nth_error_map, Hfile. cbn.
  split.
  - intros Hid. apply String.eqb_neq in Hid. now rewrite Hid.
  - intros Hid Habsent. apply String.eqb_eq in Hid. rewrite Hid, Habsent. cbn.
    eexists. split; [reflexivity|].
    rewrite sort_Permutation. symmetry. apply Permutation_cons_append.
Qed.

Section AscendingBreakpoints.
Context {T : Type} {N : JsNumber T} {O : JsNumberOrder T}.

Lemma ltb_irrefl (a : T) : (a <? a)%js = false.
Proof.
  destruct (a <? a)%js eqn:Haa; [|reflexivity].
  now rewrite <- (ltb_asym a a Haa).
Qed.

Lemma sameValueZero_strictEq (a b : T) :
  sameValueZero a b = false -> (a === b)%js = false.
Proof.
  unfold sameValueZero. intros Hsame. now apply orb_false_iff in Hsame.
Qed.

Lemma StronglySorted_middle (before after : list T) (x : T) :
  StronglySorted js_lt (before ++ x :: after) ->
  Forall (fun y => js_lt y x) before /\ Forall (js_lt x) after /\
  StronglySorted js_lt (before ++ after).
Proof.
  induction before as [|y before IH]; simpl; intros Hsorted.
  - inversion Hsorted; subst. auto.
  - inversion Hsorted as [|? ? Hrest Hy]; subst.
    destruct (IH Hrest) as (Hbefore & Hafter & Hjoined).
    apply Forall_app in Hy. destruct Hy as [Hy1 Hy2].
    repeat split.
    + constructor; [|exact Hbefore]. now inversion Hy2.
    + exact Hafter.
    + constructor; [exact Hjoined|].
      apply Forall_app. split; [exact Hy1|]. now inversion Hy2.
Qed.

Lemma sort_insert_middle (before after : list T) (x : T) :
  Forall (fun y => js_lt y x) before ->
  Forall (js_lt x) after ->
  sort_insert (fun a b => a - b)%js x (before ++ after) = before ++ x :: after.
Proof.
  intros Hbefore Hafter.
  induction Hbefore as [|y before Hy _ IH]; simpl.
  - destruct Hafter as [|z after Hz _]; simpl; [reflexivity|].
    now rewrite ltb_sub, Hz.
  - now rewrite ltb_sub, (ltb_asym _ _ Hy), IH.
Qed.

Lemma StronglySorted_filter (keep : T -> bool) (arr : list T) :
  StronglySorted js_lt arr -> StronglySorted js_lt (filter keep arr).
Proof.
  induction 1 as [|x arr _ IH Hx]; simpl; [constructor|].
  destruct (keep x); [|exact IH].
  constructor; [exact IH|].
  apply Forall_forall. intros y Hy. apply filter_In in Hy.
  rewrite Forall_forall in Hx. now apply Hx.
Qed.

Lemma ascending_filter (keep : T -> bool) (arr : list T) :
  ascending arr -> ascending (filter keep arr).
Proof.
  intros Harr. apply StronglySorted_Sorted, StronglySorted_filter.
  now apply ascending_StronglySorted.
Qed.

(** X3. For numbers under the order laws of [JsNumberOrder], which are those
    of exact arithmetic: adding a time that is not NaN and that the track's
    ascending breakpoint list does not hold, and then removing it, gives back
    the track list unchanged. *)
Theorem addBreakpoint_then_removeBreakpoint :
  forall (state : list (AudioFile.t T)) (fileId : string) (time : T),
    isNaN time = false ->
    (forall file, In file state -> AudioFile.id file = fileId ->
                  ascending (AudioFile.breakpoints file) /\
                  includes (AudioFile.breakpoints file) time = false) ->
    audioFiles_after (addBreakpoint fileId time ++ removeBreakpoint fileId time) state =
    state.
Proof.
  intros state fileId time Htime Hfiles. cbn.
  rewrite map_map. apply map_fixes. intros file Hfile.
  destruct (String.eqb_spec (AudioFile.id file) fileId) as [Hid|Hid].
  - destruct (Hfiles file Hfile Hid) as [Hasc Habsent].
    rewrite Habsent. cbn. apply String.eqb_eq in Hid. rewrite Hid.
    rewrite sort_push, (sort_ascending _ (ascending_StronglySorted _ Hasc)).
    destruct (sort_insert_split (fun a b => a - b)%js time (AudioFile.breakpoints file))
      as (before & after & Hbps & ->).
    pose proof (includes_false_strictEq _ _ Habsent) as Hne.
    rewrite filter_app. cbn.
    unfold isNaN in Htime. apply negb_false_iff in Htime. rewrite Htime. cbn.
    rewrite !filter_strictEq_absent.
    + rewrite <- Hbps. destruct file. reflexivity.
    + intros bp Hbp. apply Hne. rewrite Hbps. apply in_or_app. now right.
    + intros bp Hbp. apply Hne. rewrite Hbps. apply in_or_app. now left.
  - apply String.eqb_neq in Hid. rewrite Hid. cbn. rewrite ?Hid. reflexivity.
Qed.

Context {C : JsNumberConnected T}.

Lemma absent_above (x y : T) :
  isNaN x = false -> isNaN y = false ->
  (y === x)%js = false -> (x <? y)%js = false -> js_lt y x.
Proof.
  intros Hx Hy Hne Hxy. unfold js_lt.
  destruct (y <? x)%js eqn:Hyx; [reflexivity|].
  now rewrite (ltb_connected y x Hy Hx Hyx Hxy) in Hne.
Qed.

Lemma sort_insert_sorted (x : T) (sorted : list T) :
  isNaN x = false ->
  (forall y, In y sorted -> isNaN y = false) ->
  StronglySorted js_lt sorted ->
  (forall y, In y sorted -> (y === x)%js = false) ->
  StronglySorted js_lt (sort_insert (fun a b => a - b)%js x sorted).
Proof.
  intros Hx Hnumbers Hsorted. revert Hnumbers.
  induction Hsorted as [|y rest Hrest IH Hy]; intros Hnumbers Habsent; simpl.
  - repeat constructor.
  - rewrite ltb_sub. destruct (x <? y)%js eqn:Hxy.
    + constructor; [now constructor|].
      constructor; [exact Hxy|].
      eapply Forall_impl; [|exact Hy].
      intros z Hz. now apply (ltb_trans x y z).
    + constructor.
      * apply IH.
        -- intros z Hz. apply Hnumbers. now right.
        -- intros z Hz. apply Habsent. now right.
      * destruct (sort_insert_split (fun a b => a - b)%js x rest)
          as (before & after & Hsplit & ->).
        rewrite Hsplit in Hy. apply Forall_app in Hy. destruct Hy as [Hy1 Hy2].
        apply Forall_app. split; [exact Hy1|].
        constructor; [|exact Hy2].
        apply absent_above; [exact Hx| | |exact Hxy].
        -- apply Hnumbers. now left.
        -- apply Habsent. now left.
Qed.

(** X2. For numbers under the laws of [JsNumberOrder] and
    [JsNumberConnected], binary64 among them ([JsNumberOrder_float],
    [JsNumberConnected_float]): if the breakpoints
    of every track are strictly ascending and hold no NaN, they still are and
    still hold none after [removeBreakpoint] of any time, and after
    [addBreakpoint] of any time that is not NaN. *)
Theorem breakpoint_edits_keep_ascending :
  forall (state : list (AudioFile.t T)) (fileId : string) (time : T),
    (forall file, In file state ->
       ascending (AudioFile.breakpoints file) /\
       forall bp, In bp (AudioFile.breakpoints file) -> isNaN bp = false) ->
    (isNaN time = false ->
     forall file, In file (audioFiles_after (addBreakpoint fileId time) state) ->
       ascending (AudioFile.breakpoints file) /\
       forall bp, In bp (AudioFile.breakpoints file) -> isNaN bp = false) /\
    (forall file, In file (audioFiles_after (removeBreakpoint fileId time) state) ->
       ascending (AudioFile.breakpoints file) /\
       forall bp, In bp (AudioFile.breakpoints file) -> isNaN bp = false).
Proof.
  intros state fileId time Hstate. cbn -[includes sort].
  split; [intros Htime|]; intros file' Hfile'; apply in_map_iff in Hfile';
    destruct Hfile' as (file & <- & Hfile);
    destruct (Hstate file Hfile) as [Hascending Hnumbers];
    destruct (String.eqb (AudioFile.id file) fileId); try (split; assumption).
  - destruct (includes (AudioFile.breakpoints file) time) eqn:Hinc;
      cbn -[includes sort]; [split; assumption|].
    split.
    + apply StronglySorted_Sorted.
      rewrite sort_push, (sort_ascending _ (ascending_StronglySorted _ Hascending)).
      apply sort_insert_sorted;
        [assumption|assumption|now apply ascending_StronglySorted|].
      now apply includes_false_strictEq.
    + intros bp Hbp.
      apply (Permutation_in _ (sort_Permutation _ _)) in Hbp.
      apply in_app_or in Hbp. destruct Hbp as [Hbp|[<-|[]]]; [|assumption].
      now apply Hnumbers.
  - cbn. split; [now apply ascending_filter|].
    intros bp Hbp. apply filter_In in Hbp. now apply Hnumbers.
Qed.

(** X4. Under the same laws: removing a time that is not NaN and that the
    track's strictly ascending breakpoint list holds, and then adding it
    again, gives back the track list unchanged. *)
Theorem removeBreakpoint_then_addBreakpoint :
  forall (state : list (AudioFile.t T)) (fileId : string) (time : T),
    isNaN time = false ->
    (forall file, In file state -> AudioFile.id file = fileId ->
                  ascending (AudioFile.breakpoints file) /\
                  In time (AudioFile.breakpoints file)) ->
    audioFiles_after (removeBreakpoint fileId time ++ addBreakpoint fileId time) state =
    state.
Proof.
  intros state fileId time Htime Hfiles. cbn -[includes sort].
  assert (Hrefl : (time === time)%js = true).
  { unfold isNaN in Htime. now apply negb_false_iff in Htime. }
  rewrite map_map. apply map_fixes. intros file Hfile.
  destruct (String.eqb_spec (AudioFile.id file) fileId) as [Hid|Hid].
  - destruct (Hfiles file Hfile Hid) as [Hasc Hpresent].
    apply String.eqb_eq in Hid. cbn -[includes sort]. rewrite Hid.
    apply in_split in Hpresent. destruct Hpresent as (before & after & Hbps).
    apply ascending_StronglySorted in Hasc. rewrite Hbps in Hasc.
    destruct (StronglySorted_middle _ _ _ Hasc) as (Hbefore & Hafter & Hjoined).
    assert (Hkept : filter (fun bp => negb (bp === time)%js)
                           (AudioFile.breakpoints file) = before ++ after).
    { rewrite Hbps, filter_app. cbn. rewrite Hrefl. cbn.
      rewrite !filter_strictEq_absent; [reflexivity| |].
      - intros bp Hbp. rewrite Forall_forall in Hafter.
        rewrite strictEq_sym. apply sameValueZero_strictEq, ltb_distinct.
        now apply Hafter.
      - intros bp Hbp. rewrite Forall_forall in Hbefore.
        apply sameValueZero_strictEq, ltb_distinct. now apply Hbefore. }
    rewrite Hkept.
    assert (Habsent : includes (before ++ after) time = false).
    { unfold includes. apply not_true_is_false. intros Hin.
      apply existsb_exists in Hin. destruct Hin as (bp & Hbp & Hsame).
      apply in_app_or in Hbp. destruct Hbp as [Hbp|Hbp].
      - rewrite Forall_forall in Hbefore.
        now rewrite (ltb_distinct _ _ (Hbefore bp Hbp)) in Hsame.
      - rewrite Forall_forall in Hafter.
        pose proof (ltb_distinct _ _ (Hafter bp Hbp)) as Hdistinct.
        unfold sameValueZero in *. rewrite strictEq_sym, andb_comm in Hsame.
        now rewrite Hdistinct in Hsame. }
    rewrite Habsent. cbn -[includes sort].
    rewrite sort_push, (sort_ascending _ Hjoined), sort_insert_middle by assumption.
    rewrite <- Hbps. destruct file. reflexivity.
  - apply String.eqb_neq in Hid. cbn -[includes sort]. now rewrite Hid.
Qed.
End AscendingBreakpoints.

Lemma JsNumberConnected_Qc : JsNumberConnected Qc.
Proof.
  split; cbn [ltb strictEq JsNumber_Qc].
  - intros a b. unfold Qc_eq_bool.
    destruct (Qc_eq_dec a b), (Qc_eq_dec b a); congruence.
  - intros a b _ _ Hab Hba.
    destruct (Qc_dec a b) as [[Hlt|Hgt]|Heq].
    + apply Qc_ltb_lt in Hlt. congruence.
    + apply Qc_ltb_lt in Hgt. congruence.
    + subst b. apply Qc_eq_bool_refl.
Qed.

Lemma addBreakpoint_then_removeBreakpoint_witness :
  audioFiles_after
    (addBreakpoint "file-1" (ofZ 45) ++ removeBreakpoint "file-1" (ofZ 45))
    [scenario_track] = [scenario_track].
Proof.
  apply (@addBreakpoint_then_removeBreakpoint Qc JsNumber_Qc JsNumberOrder_Qc).
  - reflexivity.
  - intros file [<-|[]] _. split; [repeat constructor | reflexivity].
Defined.

Lemma breakpoint_edits_keep_ascending_witness :
  (forall file,
     In file (audioFiles_after (addBreakpoint "file-1" 45%float) [scenario_track64]) ->
     ascending (AudioFile.breakpoints file) /\
     forall bp, In bp (AudioFile.breakpoints file) -> isNaN bp = false) /\
  (forall file,
     In file (audioFiles_after (removeBreakpoint "file-1" 45%float) [scenario_track64]) ->
     ascending (AudioFile.breakpoints file) /\
     forall bp, In bp (AudioFile.breakpoints file) -> isNaN bp = false).
Proof.
  assert (Hstate : forall file, In file [scenario_track64] ->
            ascending (AudioFile.breakpoints file) /\
            forall bp, In bp (AudioFile.breakpoints file) -> isNaN bp = false).
  { intros file [<-|[]]. split; [repeat constructor|].
    intros bp Hbp. cbn in Hbp. destruct Hbp as [<-|[<-|[]]]; reflexivity. }
  split.
  - apply (proj1 (@breakpoint_edits_keep_ascending
                    float JsNumber_float JsNumberOrder_float JsNumberConnected_float
                    [scenario_track64] "file-1" 45%float Hstate)).
    reflexivity.
  - apply (proj2 (@breakpoint_edits_keep_ascending
                    float JsNumber_float JsNumberOrder_float JsNumberConnected_float
                    [scenario_track64] "file-1" 45%float Hstate)).
Defined.

Lemma removeBreakpoint_then_addBreakpoint_witness :
  audioFiles_after
    (removeBreakpoint "file-1" 30%float ++ addBreakpoint "file-1" 30%float)
    [scenario_track64] = [scenario_track64].
Proof.
  apply (@removeBreakpoint_then_addBreakpoint
           float JsNumber_float JsNumberOrder_float JsNumberConnected_float).
  - reflexivity.
  - intros file [<-|[]] _. split; [repeat constructor | now left].
Defined.

(** ** The track list *)

(** X5. When the ids of the tracks are distinct, [removeAudioFile] with the
    id of the track at an index deletes the track at that index and nothing
    else, the other tracks keeping their order; with an id that no track
    has, it leaves the list as it is. *)
Theorem removeAudioFile_deletes_one :
  forall (T : Type) (state : list (AudioFile.t T)) (i : nat) (file : AudioFile.t T),
    NoDup (map AudioFile.id state) ->
    nth_error state i = Some file ->
    audioFiles_after (removeAudioFile (AudioFile.id file)) state = splice_delete i state /\
    forall id,
      (forall other, In other state -> AudioFile.id other <> id) ->
      audioFiles_after (removeAudioFile id) state = state.
Proof.
  intros T state i file Hnodup Hfile. cbn. split.
  - unfold splice_delete.
    pose proof (nth_error_middle state i file Hfile) as Hsplit.
    rewrite Hsplit in Hnodup. rewrite Hsplit at 1.
    rewrite filter_app. cbn. rewrite String.eqb_refl. cbn.
    rewrite !filter_keep_all; [reflexivity| |]; apply Forall_forall; intros other Hother;
      apply negb_true_iff, String.eqb_neq;
      apply (NoDup_map_middle _ _ _ _ _ Hnodup); apply in_or_app; auto.
  - intros id Habsent. apply filter_keep_all, Forall_forall.
    intros other Hother. now apply negb_true_iff, String.eqb_neq, Habsent.
Qed.

Lemma removeAudioFile_deletes_one_witness :
  audioFiles_after (removeAudioFile "b") three_tracks = splice_delete 1 three_tracks /\
  forall id,
    (forall other, In other three_tracks -> AudioFile.id other <> id) ->
    audioFiles_after (removeAudioFile id) three_tracks = three_tracks.
Proof.
  apply (removeAudioFile_deletes_one float three_tracks 1 (local_track "b" 2%float [])).
  - cbn. repeat constructor; cbn; intuition discriminate.
  - reflexivity.
Defined.

Lemma splice_insert_delete {A : Type} (l : list A) (i : nat) (x : A) :
  nth_error l i = Some x -> splice_insert i x (splice_delete i l) = l.
Proof.
  intros Hx. unfold splice_insert, splice_delete.
  assert (Hi : i < List.length l) by (apply nth_error_Some; congruence).
  assert (Hlen : List.length (firstn i l) = i) by (rewrite length_firstn; lia).
  rewrite firstn_app, skipn_app, Hlen, Nat.sub_diag, firstn_firstn, Nat.min_id.
  cbn. rewrite app_nil_r, (skipn_all2 (firstn i l)) by lia. cbn.
  symmetry. now apply nth_error_middle.
Qed.

(** X6. Dragging a track from one index over another and then back over the
    first restores the track list. *)
Theorem handleDragOver_there_and_back :
  forall (T : Type) (audioFiles : list (AudioFile.t T)) (dragged index : nat),
    dragged < List.length audioFiles ->
    index < List.length audioFiles ->
    exists there back,
      handleDragOver audioFiles (Some dragged) index = Some there /\
      handleDragOver (audioFiles_after there audioFiles) (Some index) dragged =
        Some back /\
      audioFiles_after back (audioFiles_after there audioFiles) = audioFiles.
Proof.
  intros T audioFiles dragged index Hdragged Hindex.
  unfold handleDragOver.
  destruct (Nat.eqb_spec dragged index) as [->|Hne].
  - exists [PreventDefault], [PreventDefault]. cbn. rewrite Nat.eqb_refl. auto.
  - destruct (nth_error audioFiles dragged) as [content|] eqn:Hcontent.
    2:{ apply nth_error_None in Hcontent. lia. }
    assert (Hle : index <= List.length (splice_delete dragged audioFiles))
      by (rewrite splice_delete_length; lia).
    eexists. eexists. split; [reflexivity|]. cbn.
    destruct (Nat.eqb_spec index dragged) as [Heq|_]; [congruence|].
    rewrite splice_insert_nth by exact Hle.
    split; [reflexivity|]. cbn.
    rewrite splice_delete_insert by exact Hle.
    now apply splice_insert_delete.
Qed.

Lemma handleDragOver_there_and_back_witness :
  exists there back,
    handleDragOver three_tracks (Some 0) 2 = Some there /\
    handleDragOver (audioFiles_after there three_tracks) (Some 2) 0 = Some back /\
    audioFiles_after back (audioFiles_after there three_tracks) = three_tracks.
Proof.
  apply (handleDragOver_there_and_back float); cbn; lia.
Defined.

(** ** Saving and submitting, further *)

Section SaveAndSubmit.
Context {T : Type} `{JsNumber T}.
Variable audioFiles : list (AudioFile.t T).
Variable network : Network T.

(** X7. When the upload route answers with [success], [saveAudioFile] sends
    the one request (the file under its name, with the name, the duration
    and the breakpoints of the captured track as metadata), leaves the track
    uploaded and not uploading, with the key and the URL of the answer and
    the chunks derived from the captured track, changes no other track, and
    shows one plain toast. *)
Theorem saveAudioFile_success :
  forall (fileId : string) (audioFile : AudioFile.t T)
         (response : Response UploadResult) (result : UploadResult),
    find (fun file => String.eqb (AudioFile.id file) fileId) audioFiles = Some audioFile ->
    let formData :=
      {| form_file := AudioFile.file audioFile;
         form_fileName := AudioFile.fileName audioFile;
         form_breakpoints :=
           {| meta_fileName := AudioFile.fileName audioFile;
              meta_duration := AudioFile.duration audioFile;
              meta_breakpoints := AudioFile.breakpoints audioFile |} |} in
    fetch_upload network formData = Fulfilled response ->
    json response = Fulfilled result ->
    success result = true ->
    let trace := events (fst (saveAudioFile audioFiles network fileId)) in
    requests trace = [PostForm "/api/upload" formData] /\
    (forall state,
       audioFiles_after trace state =
       map (fun file =>
              if String.eqb (AudioFile.id file) fileId
              then AudioFile.mk
                     (AudioFile.id file) (AudioFile.file file) (AudioFile.fileName file)
                     (or_else (key result) "") (or_else (url result) "")
                     (AudioFile.duration file) (AudioFile.url file)
                     (AudioFile.breakpoints file) false true
                     (saveChunks audioFile) (AudioFile.currentTime file)
              else file)
           state) /\
    toasts trace =
      [{| title := "File uploaded successfully";
          description :=
            (AudioFile.fileName audioFile ++ " has been uploaded with " ++
             string_of_nat (List.length (AudioFile.breakpoints audioFile)) ++
             " breakpoints.")%string;
          variant := None |}].
Proof.
  intros fileId audioFile response result Hfind formData Hfetch Hjson Hsuccess trace.
  split; [|split].
  - subst trace. unfold saveAudioFile. rewrite Hfind. fold formData.
    rewrite Hfetch. cbn -[append]. rewrite Hjson. cbn -[append].
    now rewrite Hsuccess.
  - intros state. subst trace.
    now rewrite (saveAudioFile_success_stores _ _ _ _ _ _ state Hfind Hfetch Hjson Hsuccess).
  - subst trace. unfold saveAudioFile. rewrite Hfind. fold formData.
    rewrite Hfetch. cbn -[append]. rewrite Hjson. cbn -[append].
    now rewrite Hsuccess.
Qed.

(** X8. Whatever the network does, [saveAudioFile] does not throw, sends
    nothing but at most one request to [/api/upload], and, when no captured
    track has the id, does nothing at all. *)
Theorem saveAudioFile_contains_failures :
  forall fileId : string,
    snd (saveAudioFile audioFiles network fileId) = inr tt /\
    (requests (events (fst (saveAudioFile audioFiles network fileId))) = [] \/
     exists formData,
       requests (events (fst (saveAudioFile audioFiles network fileId))) =
       [PostForm "/api/upload" formData]) /\
    (find (fun file => String.eqb (AudioFile.id file) fileId) audioFiles = None ->
     fst (saveAudioFile audioFiles network fileId) = []).
Proof.
  intros fileId. unfold saveAudioFile.
  destruct (find _ audioFiles) as [audioFile|]; [|cbn; auto].
  cbn -[append].
  destruct (fetch_upload network _) as [response|reason]; cbn -[append].
  - destruct (json response) as [result|reason]; cbn -[append].
    + destruct (success result); cbn -[append];
        (split; [reflexivity|]; split; [right; eexists; reflexivity|discriminate]).
    + split; [reflexivity|]. split; [right; eexists; reflexivity|discriminate].
  - split; [reflexivity|]. split; [right; eexists; reflexivity|discriminate].
Qed.

Variable NEXT_PUBLIC_API_URL : string.

Lemma no_unprocessed :
  forallb AudioFile.uploaded audioFiles = true ->
  filter (fun file => negb (AudioFile.uploaded file)) audioFiles = [].
Proof.
  intros Hall. rewrite forallb_forall in Hall.
  induction audioFiles as [|file files IH]; cbn; [reflexivity|].
  rewrite (Hall file (or_introl eq_refl)). cbn.
  apply IH. intros other Hother. apply Hall. now right.
Qed.

(** X9. When every captured track is uploaded and none is uploading,
    [handleSubmit] uploads nothing and queues no update of the track list:
    its one request is the POST to [/video/process-and-store], whose [data]
    holds, track by track and in order, the stored URL and the breakpoints. *)
Theorem handleSubmit_when_all_uploaded :
  forallb AudioFile.uploaded audioFiles = true ->
  existsb AudioFile.uploading audioFiles = false ->
  let trace := events (fst (handleSubmit audioFiles network NEXT_PUBLIC_API_URL)) in
  requests trace =
    [PostJson (NEXT_PUBLIC_API_URL ++ "/video/process-and-store")%string
       {| data := map (fun file =>
                         {| supabase_url := AudioFile.storageUrl file;
                            breakpoints := AudioFile.breakpoints file |})
                      audioFiles;
          combine_videos := false;
          output_dir := "output_videos" |}] /\
  forall state, audioFiles_after trace state = state.
Proof.
  intros Hall Huploading trace. subst trace.
  unfold handleSubmit. rewrite Huploading, (no_unprocessed Hall).
  cbn -[append requestPayload].
  destruct (fetch_process network (requestPayload audioFiles)) as [response|reason];
    cbn -[append requestPayload]; [|split; reflexivity].
  destruct (ok response); cbn -[append requestPayload];
    destruct (json response) as [result|reason]; split; reflexivity.
Qed.

(** X10. Whatever the tracks and the network, [handleSubmit] does not
    throw, begins by raising the submitting flag and ends by lowering it. *)
Theorem handleSubmit_always_settles :
  snd (handleSubmit audioFiles network NEXT_PUBLIC_API_URL) = inr tt /\
  exists between,
    events (fst (handleSubmit audioFiles network NEXT_PUBLIC_API_URL)) =
    SetIsSubmitting true :: between ++ [SetIsSubmitting false].
Proof.
  unfold handleSubmit.
  match goal with
  | |- context [try_catch ?body ?handler] => destruct body as [trace [reason|[]]]
  end; cbn -[append events]; (split; [reflexivity|]);
    change (events (Do ?e :: ?l)) with (e :: events l);
    rewrite !events_app; eexists; reflexivity.
Qed.

(** X11. With every captured track uploaded and none uploading,
    [handleSubmit] shows exactly one toast, whatever the API does: the plain
    "Project submitted successfully" when the API answers ok with a readable
    body; a destructive one that carries "API error: " with the [detail] of
    the body (the status text when there is none) when it answers not ok with
    a readable body; and, when the request is rejected or the body cannot be
    read, a destructive one with the message of what was thrown, or with the
    standing text when that is not an [Error]. *)
Theorem handleSubmit_reports_outcome :
  forallb AudioFile.uploaded audioFiles = true ->
  existsb AudioFile.uploading audioFiles = false ->
  let trace := events (fst (handleSubmit audioFiles network NEXT_PUBLIC_API_URL)) in
  let failed message :=
    [{| title := "Error submitting project";
        description := message;
        variant := Some "destructive" |}] in
  let thrown reason :=
    failed (message_or "There was a problem submitting your project. Please try again."
                       reason) in
  toasts trace =
    match fetch_process network (requestPayload audioFiles) with
    | Fulfilled response =>
        match json response with
        | Fulfilled body =>
            if ok response then
              [{| title := "Project submitted successfully";
                  description :=
                    "Your audio files and breakpoints have been sent for processing.";
                  variant := None |}]
            else
              failed ("API error: " ++
                      or_else (detail body) (statusText response))%string
        | Rejected reason => thrown reason
        end
    | Rejected reason => thrown reason
    end.
Proof.
  intros Hall Huploading trace failed thrown. subst trace failed thrown.
  unfold handleSubmit. rewrite Huploading, (no_unprocessed Hall).
  cbn -[append requestPayload].
  destruct (fetch_process network (requestPayload audioFiles)) as [response|reason];
    cbn -[append requestPayload]; [|reflexivity].
  destruct (ok response); cbn -[append requestPayload];
    destruct (json response) as [body|reason]; reflexivity.
Qed.
End SaveAndSubmit.

Lemma saveAudioFile_success_witness :
  requests (events (fst (saveAudioFile [scenario_track64] accepting_network "file-1"))) =
    [PostForm "/api/upload"
       {| form_file := mp3;
          form_fileName := "take.one.mp3";
          form_breakpoints :=
            {| meta_fileName := "take.one.mp3";
               meta_duration := 120%float;
               meta_breakpoints := [30; 90]%float |} |}] /\
  audioFiles_after
    (events (fst (saveAudioFile [scenario_track64] accepting_network "file-1")))
    [scenario_track64] = [uploaded_track64].
Proof.
  destruct (@saveAudioFile_success
              float JsNumber_float [scenario_track64] accepting_network
              "file-1" scenario_track64 _ _ eq_refl eq_refl eq_refl eq_refl)
    as (Hrequests & Hstate & _).
  split; [exact Hrequests|]. now rewrite Hstate.
Defined.

Lemma handleSubmit_when_all_uploaded_witness :
  requests (events (fst (handleSubmit [uploaded_track64] accepting_network
                                      "https://api.example"))) =
    [PostJson "https://api.example/video/process-and-store"
       {| data :=
            [{| supabase_url :=
                  "https://project.supabase.co/storage/audio/original-h.mp3";
                breakpoints := [30; 90]%float |}];
          combine_videos := false;
          output_dir := "output_videos" |}] /\
  forall state,
    audioFiles_after
      (events (fst (handleSubmit [uploaded_track64] accepting_network
                                 "https://api.example")))
      state = state.
Proof.
  apply (@handleSubmit_when_all_uploaded float JsNumber_float); reflexivity.
Defined.

Lemma handleSubmit_reports_outcome_witness :
  toasts (events (fst (handleSubmit [uploaded_track64] refusing_api_network
                                    "https://api.example"))) =
    [{| title := "Error submitting project";
        description := "API error: breakpoints out of range";
        variant := Some "destructive" |}].
Proof.
  exact (@handleSubmit_reports_outcome
           float JsNumber_float [uploaded_track64] refusing_api_network
           "https://api.example" eq_refl eq_refl).
Defined.

(** ** Strings *)

Lemma string_take_drop (k : nat) (s : string) :
  (string_take k s ++ string_drop k s)%string = s.
Proof.
  revert s. induction k as [|k IH]; intros [|c s]; cbn; try reflexivity.
  now rewrite IH.
Qed.

Lemma prefix_app (p s : string) : String.prefix p (p ++ s)%string = true.
Proof.
  induction p as [|c p IH]; cbn.
  - now destruct s.
  - destruct (ascii_dec c c); [exact IH|contradiction].
Qed.

Lemma prefix_refl (s : string) : String.prefix s s = true.
Proof.
  induction s as [|c s IH]; cbn; [reflexivity|].
  destruct (ascii_dec c c); [exact IH|contradiction].
Qed.

Lemma prefix_app_l (p q s : string) :
  String.prefix q s = true -> String.prefix (p ++ q)%string (p ++ s)%string = true.
Proof.
  intros Hq. induction p as [|c p IH]; cbn; [exact Hq|].
  destruct (ascii_dec c c); [exact IH|contradiction].
Qed.

Lemma split_first_prefix (sep : ascii) (s : string) :
  String.prefix (split_first sep s) s = true.
Proof.
  induction s as [|c s IH]; cbn; [reflexivity|].
  destruct (Ascii.eqb c sep); cbn; [reflexivity|].
  destruct (ascii_dec c c); [exact IH|contradiction].
Qed.

Lemma split_first_lacking (sep : ascii) (s : string) :
  has_char sep s = false -> split_first sep s = s.
Proof.
  induction s as [|c s IH]; cbn; [reflexivity|].
  intros Hlacks. apply orb_false_iff in Hlacks. destruct Hlacks as [Hc Hs].
  now rewrite Hc, IH.
Qed.

Lemma split_first_has_none (sep : ascii) (s : string) :
  has_char sep (split_first sep s) = false.
Proof.
  induction s as [|c s IH]; cbn; [reflexivity|].
  destruct (Ascii.eqb c sep) eqn:Hc; cbn; [reflexivity|]. now rewrite Hc.
Qed.

Lemma has_char_drop (c : ascii) (k : nat) (s : string) :
  has_char c s = false -> has_char c (string_drop k s) = false.
Proof.
  revert s. induction k as [|k IH]; intros [|c' s]; cbn; try easy.
  intros Hs. apply orb_false_iff in Hs. now apply IH.
Qed.

Lemma string_drop_take_app (k : nat) (s rest : string) :
  k <= String.length s ->
  string_drop k (string_take k s ++ rest)%string = rest.
Proof.
  revert s. induction k as [|k IH]; intros [|c s] Hk; cbn in *; try reflexivity; try lia.
  apply IH. lia.
Qed.

Lemma lastIndexOf_from_bound (pattern s : string) (pos last : nat) :
  lastIndexOf_from pattern s pos = Some last ->
  pos <= last <= pos + String.length s.
Proof.
  revert pos. induction s as [|c s IH]; intros pos; cbn -[String.prefix].
  - destruct (String.prefix pattern ""); intros Hlast; [|discriminate].
    injection Hlast as <-. cbn. lia.
  - destruct (lastIndexOf_from pattern s (S pos)) as [later|] eqn:Hlater.
    + intros Hlast. injection Hlast as <-. apply IH in Hlater. cbn. lia.
    + destruct (String.prefix pattern (String c s)); intros Hlast; [|discriminate].
      injection Hlast as <-. cbn. lia.
Qed.

Lemma indexOf_none_lastIndexOf (pattern s : string) (pos : nat) :
  indexOf_from pattern s pos = None -> lastIndexOf_from pattern s pos = None.
Proof.
  revert pos. induction s as [|c s IH]; intros pos; cbn -[String.prefix].
  - now destruct (String.prefix pattern "").
  - destruct (String.prefix pattern (String c s)); [discriminate|].
    intros Hindex. now rewrite (IH _ Hindex).
Qed.

(** ** The edit page *)

Module EditVideoPageFacts.
Import EditVideoPage.

(** X12. Cleaning a chunk URL only ever cuts its end off: the result is a
    prefix of the URL; a URL without a question mark is returned as it is;
    and when the URL is cut, at the last place where the storage URL begins,
    no question mark is left from that place on. *)
Theorem cleanUrl_truncates :
  forall url : string,
    String.prefix (cleanUrl url) url = true /\
    (has_char "?" url = false -> cleanUrl url = url) /\
    (forall secondBaseUrlIndex,
       lastIndexOf url storageBaseUrl = Some secondBaseUrlIndex ->
       indexOf url storageBaseUrl <> Some secondBaseUrlIndex ->
       has_char "?" (string_drop secondBaseUrlIndex (cleanUrl url)) = false).
Proof.
  intros url. unfold cleanUrl.
  destruct (string_includes url storageBaseUrl) eqn:Hincludes.
  2:{ cbn [andb]. repeat split.
      - apply prefix_refl.
      - intros k Hlast Hfirst. unfold string_includes in Hincludes.
        destruct (indexOf url storageBaseUrl) eqn:Hindex; [discriminate|].
        unfold indexOf, lastIndexOf in *.
        now rewrite (indexOf_none_lastIndexOf _ _ _ Hindex) in Hlast. }
  cbn [andb].
  destruct (lastIndexOf url storageBaseUrl) as [second|] eqn:Hlast.
  2:{ destruct (indexOf url storageBaseUrl); cbn; repeat split;
        try apply prefix_refl; discriminate. }
  destruct (indexOf url storageBaseUrl) as [first|] eqn:Hfirst.
  2:{ now unfold string_includes in Hincludes; rewrite Hfirst in Hincludes. }
  destruct (Nat.eqb_spec first second) as [->|Hne]; cbn [negb].
  - repeat split.
    + apply prefix_refl.
    + intros k Hk Hfirst'. injection Hk as <-. congruence.
  - assert (Hbound : second <= String.length url).
    { apply lastIndexOf_from_bound in Hlast. lia. }
    repeat split.
    + pose proof (prefix_app_l (string_take second url) _ _
                    (split_first_prefix "?" (string_drop second url))) as Hprefix.
      now rewrite string_take_drop in Hprefix.
    + intros Hlacks.
      rewrite split_first_lacking by now apply has_char_drop.
      apply string_take_drop.
    + intros k Hk _. injection Hk as <-.
      rewrite string_drop_take_app by exact Hbound.
      apply split_first_has_none.
Qed.

Lemma string_of_nat_inj (a b : nat) : string_of_nat a = string_of_nat b -> a = b.
Proof.
  unfold string_of_nat. intros Heq.
  apply (f_equal NilEmpty.uint_of_string) in Heq. rewrite !NilEmpty.usu in Heq.
  injection Heq as Heq. apply (f_equal Nat.of_uint) in Heq.
  now rewrite !DecimalNat.Unsigned.of_to in Heq.
Qed.

Lemma In_map_indexed {A B : Type} (f : A -> nat -> B) (start : nat) (arr : list A) (y : B) :
  In y (map_indexed f start arr) <->
  exists k x, nth_error arr k = Some x /\ y = f x (start + k).
Proof.
  revert start. induction arr as [|a arr IH]; intros start; cbn.
  - split; [easy|]. now intros ([|k] & x & Hx & _).
  - rewrite IH. split.
    + intros [<-|(k & x & Hx & ->)].
      * exists 0, a. now rewrite Nat.add_0_r.
      * exists (S k), x. split; [exact Hx|]. f_equal. lia.
    + intros ([|k] & x & Hx & ->); cbn in Hx.
      * left. injection Hx as ->. now rewrite Nat.add_0_r.
      * right. exists k, x. split; [exact Hx|]. f_equal. lia.
Qed.

Lemma NoDup_map_filter {A B : Type} (g : A -> B) (keep : A -> bool) (l : list A) :
  NoDup (map g l) -> NoDup (map g (filter keep l)).
Proof.
  induction l as [|a l IH]; cbn; [trivial|].
  intros Hnodup. inversion Hnodup as [|? ? Hnotin Hrest]; subst.
  destruct (keep a); cbn; [|now apply IH].
  constructor; [|now apply IH].
  intros Hin. apply Hnotin. apply in_map_iff in Hin.
  destruct Hin as (x & Hx & Hin). apply filter_In in Hin.
  apply in_map_iff. exists x. tauto.
Qed.

Lemma processedChunks_ids (start : nat) (video_urls : list string) :
  NoDup (map VideoChunk.id
           (map_indexed
              (fun url index =>
                 VideoChunk.mk ("chunk-" ++ string_of_nat index)%string (cleanUrl url)
                               None index 0 None)
              start video_urls)).
Proof.
  revert start. induction video_urls as [|url urls IH]; intros start; cbn -[append].
  - constructor.
  - constructor; [|apply IH].
    intros Hin. apply in_map_iff in Hin. destruct Hin as (chunk & Hid & Hin).
    apply In_map_indexed in Hin. destruct Hin as (k & x & _ & ->).
    cbn [VideoChunk.id append] in Hid. injection Hid as Hid.
    apply string_of_nat_inj in Hid. lia.
Qed.

Lemma In_validChunks (video_urls : list string) (chunk : VideoChunk.t) :
  In chunk (validChunks video_urls) ->
  VideoChunk.id chunk = ("chunk-" ++ string_of_nat (VideoChunk.index chunk))%string /\
  (exists url,
     nth_error video_urls (VideoChunk.index chunk) = Some url /\
     VideoChunk.url chunk = cleanUrl url) /\
  VideoChunk.url chunk <> "" /\
  trims_to_empty (VideoChunk.url chunk) = false /\
  VideoChunk.hasError chunk = None.
Proof.
  unfold validChunks, processedChunks.
  intros Hchunk. apply filter_In in Hchunk. destruct Hchunk as [Hin Hkeep].
  apply andb_true_iff in Hkeep. destruct Hkeep as [Hnonempty Hnonblank].
  apply negb_true_iff in Hnonempty, Hnonblank. apply String.eqb_neq in Hnonempty.
  apply In_map_indexed in Hin. destruct Hin as (k & url & Hurl & ->).
  cbn -[append] in *. repeat split; try assumption.
  now exists url.
Qed.

(** X13. The chunks kept from a video's URL list have distinct ids; each is
    named after the position its URL has in that list (blank entries are
    dropped without renumbering), carries the cleaned URL of that position,
    which is neither empty nor blank, and is not marked as failed. *)
Theorem validChunks_are_positions :
  forall video_urls : list string,
    NoDup (map VideoChunk.id (validChunks video_urls)) /\
    forall chunk,
      In chunk (validChunks video_urls) ->
      VideoChunk.id chunk = ("chunk-" ++ string_of_nat (VideoChunk.index chunk))%string /\
      (exists url,
         nth_error video_urls (VideoChunk.index chunk) = Some url /\
         VideoChunk.url chunk = cleanUrl url) /\
      VideoChunk.url chunk <> "" /\
      trims_to_empty (VideoChunk.url chunk) = false /\
      VideoChunk.hasError chunk = None.
Proof.
  intros video_urls. split.
  - unfold validChunks, processedChunks.
    apply NoDup_map_filter, processedChunks_ids.
  - apply In_validChunks.
Qed.

(** Pages. *)

Lemma firstn_add {A : Type} (n m : nat) (l : list A) :
  firstn (n + m) l = firstn n l ++ firstn m (skipn n l).
Proof.
  revert l. induction n as [|n IH]; intros [|a l]; cbn; try reflexivity.
  - now rewrite firstn_nil.
  - now rewrite IH.
Qed.

Lemma concat_pages {A : Type} (size pages : nat) (l : list A) :
  List.concat (map (fun p => firstn size (skipn (size * p) l)) (seq 0 pages)) =
  firstn (size * pages) l.
Proof.
  induction pages as [|pages IH].
  - now rewrite Nat.mul_0_r.
  - rewrite seq_S, map_app, concat_app, IH. cbn. rewrite app_nil_r.
    replace (size * S pages) with (size * pages + size) by lia.
    now rewrite firstn_add.
Qed.

Lemma slice_page {A : Type} (p : nat) (l : list A) :
  slice (Z.of_nat p * CHUNKS_PER_PAGE) (Z.of_nat p * CHUNKS_PER_PAGE + CHUNKS_PER_PAGE) l =
  firstn 10 (skipn (10 * p) l).
Proof.
  unfold slice, relative_index, CHUNKS_PER_PAGE.
  destruct (Z.ltb_spec (Z.of_nat p * 10) 0) as [|_]; [lia|].
  destruct (Z.ltb_spec (Z.of_nat p * 10 + 10) 0) as [|_]; [lia|].
  replace (Z.to_nat (Z.of_nat p * 10)) with (10 * p) by lia.
  replace (Z.to_nat (Z.of_nat p * 10 + 10)) with (10 * p + 10) by lia.
  destruct (Nat.le_gt_cases (List.length l) (10 * p)) as [Hpast|Hinside].
  - rewrite (Nat.min_r (10 * p)), (Nat.min_r (10 * p + 10)) by lia.
    rewrite !skipn_all2 by lia. now rewrite !firstn_nil.
  - rewrite (Nat.min_l (10 * p)) by lia.
    destruct (Nat.le_gt_cases (10 * p + 10) (List.length l)) as [Hfull|Hshort].
    + rewrite Nat.min_l by lia. f_equal. lia.
    + rewrite Nat.min_r by lia.
      rewrite !firstn_all2; [reflexivity| |]; rewrite length_skipn; lia.
Qed.

Lemma ceil_div_pages (n : nat) :
  n <= 10 * Z.to_nat (ceil_div n CHUNKS_PER_PAGE) < n + 10.
Proof.
  unfold ceil_div, CHUNKS_PER_PAGE.
  pose proof (Z.mul_div_le (Z.of_nat n + 10 - 1) 10 ltac:(lia)).
  pose proof (Z.mul_succ_div_gt (Z.of_nat n + 10 - 1) 10 ltac:(lia)).
  pose proof (Z.div_pos (Z.of_nat n + 10 - 1) 10 ltac:(lia) ltac:(lia)).
  lia.
Qed.

(** X14. The pages shown for the page numbers below [totalPages], one after
    the other, are exactly the chunk list; a page never holds more than ten
    chunks, and it holds at least one exactly when its number is below
    [totalPages]. *)
Theorem pages_partition_chunks :
  forall chunks : list VideoChunk.t,
    let totalPages := Z.to_nat (ceil_div (List.length chunks) CHUNKS_PER_PAGE) in
    let page (p : nat) := displayedChunks_after (displayChunks chunks (Z.of_nat p)) [] in
    List.concat (map page (seq 0 totalPages)) = chunks /\
    forall p, List.length (page p) <= 10 /\ (page p <> [] <-> p < totalPages).
Proof.
  intros chunks totalPages page.
  assert (Hpage : forall p, page p = firstn 10 (skipn (10 * p) chunks)).
  { intros p. subst page. cbn. apply slice_page. }
  pose proof (ceil_div_pages (List.length chunks)) as Hpages. fold totalPages in Hpages.
  split.
  - rewrite (map_ext _ _ Hpage), concat_pages. apply firstn_all2. lia.
  - intros p. rewrite Hpage. split.
    + rewrite length_firstn. lia.
    + rewrite <- length_zero_iff_nil, length_firstn, length_skipn. lia.
Qed.

(** X15. From a page number between 0 and the last page (0 when there is no
    page), [handleNextPage] and [handlePrevPage] lead to a page number in
    that range again; next moves by one until the last page and then stays,
    previous moves by one until page 0 and then stays, and previous undoes
    next. *)
Theorem page_turning_stays_in_range :
  forall currentPage totalPages : Z,
    (0 <= currentPage <= Z.max (totalPages - 1) 0)%Z ->
    let next := currentPage_after (handleNextPage currentPage totalPages) currentPage in
    let prev := currentPage_after (handlePrevPage currentPage) currentPage in
    (0 <= next <= Z.max (totalPages - 1) 0)%Z /\
    (0 <= prev <= Z.max (totalPages - 1) 0)%Z /\
    next = (if (currentPage <? totalPages - 1)%Z then currentPage + 1 else currentPage)%Z /\
    prev = (if (0 <? currentPage)%Z then currentPage - 1 else currentPage)%Z /\
    ((currentPage < totalPages - 1)%Z ->
     currentPage_after (handlePrevPage next) next = currentPage).
Proof.
  intros currentPage totalPages Hrange next prev. subst next prev.
  unfold handleNextPage, handlePrevPage.
  destruct (Z.ltb_spec currentPage (totalPages - 1));
    destruct (Z.ltb_spec 0 currentPage); cbn; repeat split; try lia;
    intros _; destruct (Z.ltb_spec 0 (currentPage + 1)); cbn; lia.
Qed.

Lemma page_turning_stays_in_range_witness :
  currentPage_after (handleNextPage 2 3) 2 = 2%Z /\
  currentPage_after (handlePrevPage 2) 2 = 1%Z.
Proof.
  destruct (page_turning_stays_in_range 2 3 ltac:(lia)) as (_ & _ & Hnext & Hprev & _).
  split; [exact Hnext | exact Hprev].
Defined.

(** Playback. *)

Lemma silence_all (playing : string) (sounding : list string) :
  (forall id, In id sounding -> id = playing) ->
  filter (fun id => negb (String.eqb id playing)) sounding = [].
Proof.
  intros Hall. induction sounding as [|id sounding IH]; cbn; [reflexivity|].
  rewrite (Hall id (or_introl eq_refl)), String.eqb_refl. cbn.
  apply IH. intros other Hother. apply Hall. now right.
Qed.

(** X16. If every audio element that sounds is the one recorded in
    [currentlyPlaying] (a chunk id, hence not the empty string) and has its
    ref, then after [handlePlayPause] every element that sounds is again the
    one recorded in [currentlyPlaying]: starting one chunk stops the
    other. *)
Theorem handlePlayPause_single_playback :
  forall (currentlyPlaying : option string) (audioRefs : string -> bool)
         (sounding : list string) (chunkId : string),
    currentlyPlaying <> Some "" ->
    (forall id, In id sounding -> currentlyPlaying = Some id /\ audioRefs id = true) ->
    let trace := handlePlayPause currentlyPlaying audioRefs chunkId in
    forall id,
      In id (sounding_after trace sounding) ->
      currentlyPlaying_after trace currentlyPlaying = Some id /\ id = chunkId.
Proof.
  intros currentlyPlaying audioRefs sounding chunkId Hnonempty Hsounding trace id.
  subst trace. unfold handlePlayPause.
  destruct currentlyPlaying as [playing|].
  - assert (Hall : forall other, In other sounding -> other = playing).
    { intros other Hother. destruct (Hsounding other Hother) as [Heq _]. congruence. }
    assert (Hrefs : audioRefs playing = false -> sounding = []).
    { intros Href. destruct sounding as [|other rest]; [reflexivity|].
      destruct (Hsounding other (or_introl eq_refl)) as [Heq Hother].
      injection Heq as ->. congruence. }
    destruct (String.eqb_spec playing chunkId) as [->|Hother].
    + destruct (audioRefs chunkId) eqn:Href; cbn.
      * now rewrite (silence_all _ _ Hall).
      * now rewrite (Hrefs eq_refl).
    + destruct (String.eqb_spec playing "") as [->|_]; [congruence|]. cbn [negb andb].
      destruct (audioRefs playing) eqn:Href; destruct (audioRefs chunkId); cbn;
        rewrite ?(silence_all _ _ Hall), ?(Hrefs eq_refl); cbn; intuition congruence.
  - destruct sounding as [|other rest].
    + destruct (audioRefs chunkId); cbn; intuition congruence.
    + destruct (Hsounding other (or_introl eq_refl)) as [Heq _]. discriminate.
Qed.

Lemma handlePlayPause_single_playback_witness :
  currentlyPlaying_after (handlePlayPause (Some "chunk-0") (fun _ => true) "chunk-2")
                         (Some "chunk-0") = Some "chunk-2" /\
  "chunk-2" = "chunk-2".
Proof.
  apply (handlePlayPause_single_playback (Some "chunk-0") (fun _ => true) ["chunk-0"]).
  - discriminate.
  - intros id [<-|[]]. split; reflexivity.
  - cbn. left. reflexivity.
Defined.

(** The drop. *)

Section Drop.
Variable videoId : string.
Variable chunks : list VideoChunk.t.
Variable fetch_replace : ReplaceChunk -> Awaited (Response ReplaceResult).

Lemma drag_after_app (trace trace' : list Effect) (state : DragState) :
  drag_after (trace ++ trace') state = drag_after trace' (drag_after trace state).
Proof. apply fold_left_app. Qed.

(** X17. Whatever was dropped, on whatever chunk, and whatever the API
    does, [handleDrop] does not throw and leaves the drag state cleared: not
    dragging, no dragged item, no drop target. *)
Theorem handleDrop_always_resets :
  forall (transferred : Thrown + DragItem.t) (chunkId : string) (state : DragState),
    snd (handleDrop videoId chunks fetch_replace transferred chunkId) = inr tt /\
    drag_after (events (fst (handleDrop videoId chunks fetch_replace transferred chunkId)))
               state =
      {| isDragging := false; draggedItem := None; dropTargetId := None |}.
Proof.
  intros transferred chunkId state. unfold handleDrop.
  match goal with
  | |- context [try_catch ?body ?handler] => destruct body as [trace [reason|[]]]
  end; cbn -[append events drag_after]; (split; [reflexivity|]);
    change (events (Do ?e :: ?l)) with (e :: events l);
    rewrite !events_app; cbn [drag_after fold_left];
    change (fold_left ?f ?l ?s) with (drag_after l s);
    rewrite !drag_after_app; reflexivity.
Qed.

(** X18. [handleDrop] sends a request only for a parsed item of type
    "custom-video" dropped on a chunk of the captured list: then exactly one,
    to [/video/replace-chunk], with the item's URL, the chunk's URL and
    index and the video id.  An item of another type sends nothing and shows
    nothing; a chunk that is not in the list, or a transfer that does not
    parse, sends nothing and shows one destructive toast. *)
Theorem handleDrop_request :
  forall (transferred : Thrown + DragItem.t) (chunkId : string),
    let trace := events (fst (handleDrop videoId chunks fetch_replace transferred chunkId)) in
    let found := find (fun chunk => String.eqb (VideoChunk.id chunk) chunkId) chunks in
    let failed message :=
      [{| title := "Error processing videos";
          description := message;
          variant := Some "destructive" |}] in
    match transferred with
    | inl reason =>
        requests trace = [] /\
        toasts trace =
          failed (message_or "There was a problem processing the videos." reason)
    | inr data =>
        if String.eqb (DragItem.type data) "custom-video" then
          match found with
          | Some targetChunk =>
              requests trace =
                [("http://localhost:8000/video/replace-chunk",
                  {| custom_video_url := DragItem.url data;
                     chunk_video_url := VideoChunk.url targetChunk;
                     video_id := videoId;
                     chunk_index := VideoChunk.index targetChunk |})]
          | None =>
              requests trace = [] /\ toasts trace = failed "Target chunk not found"
          end
        else requests trace = [] /\ toasts trace = []
    end.
Proof.
  intros transferred chunkId. cbv zeta. unfold handleDrop.
  destruct transferred as [reason|data]; cbn -[append]; [split; reflexivity|].
  destruct (String.eqb (DragItem.type data) "custom-video"); cbn -[append];
    [|split; reflexivity].
  destruct (find _ chunks) as [targetChunk|]; cbn -[append]; [|split; reflexivity].
  destruct (fetch_replace _) as [response|reason]; cbn -[append]; [|reflexivity].
  destruct (ok response); cbn -[append];
    destruct (json response) as [result|reason]; reflexivity.
Qed.
End Drop.

(** X19. When the chunks are those kept from a video's URL list, a request
    that [handleDrop] sends names the chunk by its position in that list:
    the chunk id it was dropped on is "chunk-" and that position, and the
    chunk URL sent is the cleaned URL at that position. *)
Theorem handleDrop_names_position :
  forall (videoId : string) (video_urls : list string)
         (fetch_replace : ReplaceChunk -> Awaited (Response ReplaceResult))
         (data : DragItem.t) (chunkId to : string) (body : ReplaceChunk),
    In (to, body)
       (requests (events (fst (handleDrop videoId (validChunks video_urls) fetch_replace
                                          (inr data) chunkId)))) ->
    chunkId = ("chunk-" ++ string_of_nat (chunk_index body))%string /\
    (exists url,
       nth_error video_urls (chunk_index body) = Some url /\
       chunk_video_url body = cleanUrl url) /\
    custom_video_url body = DragItem.url data /\
    video_id body = videoId.
Proof.
  intros videoId video_urls fetch_replace data chunkId to body.
  unfold handleDrop. cbn -[append validChunks].
  destruct (String.eqb (DragItem.type data) "custom-video"); cbn -[append validChunks];
    [|easy].
  destruct (find _ (validChunks video_urls)) as [targetChunk|] eqn:Hfind;
    cbn -[append validChunks]; [|easy].
  apply find_some in Hfind. destruct Hfind as [Hin Hid].
  apply String.eqb_eq in Hid.
  destruct (In_validChunks video_urls targetChunk Hin) as (Hname & Hurl & _).
  assert (Hbody : ("http://localhost:8000/video/replace-chunk",
                   {| custom_video_url := DragItem.url data;
                      chunk_video_url := VideoChunk.url targetChunk;
                      video_id := videoId;
                      chunk_index := VideoChunk.index targetChunk |}) = (to, body) \/
                  False ->
            chunkId = ("chunk-" ++ string_of_nat (chunk_index body))%string /\
            (exists url,
               nth_error video_urls (chunk_index body) = Some url /\
               chunk_video_url body = cleanUrl url) /\
            custom_video_url body = DragItem.url data /\
            video_id body = videoId).
  { intros [Hsent|[]]. injection Hsent as _ <-. cbn -[append string_of_nat].
    split; [congruence|]. split; [exact Hurl|]. split; reflexivity. }
  destruct (fetch_replace _) as [response|reason]; cbn -[append validChunks].
  - destruct (ok response); cbn -[append validChunks];
      destruct (json response) as [result|reason]; cbn -[append validChunks];
      exact Hbody.
  - exact Hbody.
Qed.
Lemma handleDrop_names_position_witness :
  exists url,
    nth_error sample_video_urls 2 = Some url /\
    "https://qfpjbgjxkpwtsegtkaze.supabase.co/storage/v1/object/public/videos/https://qfpjbgjxkpwtsegtkaze.supabase.co/storage/v1/object/public/videos/c2.mp4" =
      cleanUrl url.
Proof.
  apply (handleDrop_names_position "video-1" sample_video_urls replace_accepted
           sample_drag_item "chunk-2" "http://localhost:8000/video/replace-chunk"
           {| custom_video_url := DragItem.url sample_drag_item;
              chunk_video_url :=
                "https://qfpjbgjxkpwtsegtkaze.supabase.co/storage/v1/object/public/videos/https://qfpjbgjxkpwtsegtkaze.supabase.co/storage/v1/object/public/videos/c2.mp4";
              video_id := "video-1";
              chunk_index := 2 |}).
  vm_compute. left. reflexivity.
Defined.

(** Loading the video and uploading a replacement. *)

Lemma fold_left_quiet {S : Type} (f : S -> Effect -> S) (trace : list Effect) (s : S) :
  (forall st eff, In eff trace -> f st eff = st) -> fold_left f trace s = s.
Proof.
  induction trace as [|eff trace IH]; intros Hquiet; cbn; [reflexivity|].
  rewrite (Hquiet s eff (or_introl eq_refl)).
  apply IH. intros st eff' Hin. apply Hquiet. now right.
Qed.

Lemma events_Do {E : Type} (event : E) (trace : list (@Step E)) :
  events (Do event :: trace) = event :: events trace.
Proof. reflexivity. Qed.

Lemma events_Yield {E : Type} (trace : list (@Step E)) :
  events (Yield :: trace) = events trace.
Proof. reflexivity. Qed.

Lemma url_logs_console (video_urls : list string) (eff : Effect) :
  In eff (events (flat_map
                    (fun url =>
                       [Do (Console "log" ("Original URL: " ++ url)%string);
                        Do (Console "log" ("Cleaned URL: " ++ cleanUrl url)%string)])
                    video_urls)) ->
  exists level text, eff = Console level text.
Proof.
  induction video_urls as [|url rest IH]; cbn -[append]; [easy|].
  intros [<-|[<-|Hin]]; eauto.
Qed.

(** X20. [fetchVideoData] never throws and always ends with [loading] false.
    When the row arrives with a URL list, [chunks] become the valid chunks of
    that list and [totalPages] the number of pages they fill, and [error] is
    left as it was, so an error shown before stays.  When the query fails or
    is rejected, [error] is set and [chunks] and [totalPages] are left as they
    were. *)
Theorem fetchVideoData_outcome :
  forall (videoId : string) (client : Supabase) (chunks : list VideoChunk.t)
         (pages : Z) (loading : bool) (shown : option string),
    let run := fetchVideoData videoId (Some client) in
    let trace := events (fst run) in
    let unchanged :=
      chunks_after trace chunks = chunks /\ totalPages_after trace pages = pages in
    snd run = inr tt /\
    loading_after trace loading = false /\
    match select_video client videoId with
    | Fulfilled {| data := Some video; error := None |} =>
        error_after trace shown = shown /\
        match Video.video_urls video with
        | Some video_urls =>
            chunks_after trace chunks = validChunks video_urls /\
            totalPages_after trace pages =
              ceil_div (List.length (validChunks video_urls)) CHUNKS_PER_PAGE
        | None => unchanged
        end
    | Fulfilled {| data := None; error := None |} =>
        unchanged /\ exists text, error_after trace shown = Some text
    | Fulfilled {| data := _; error := Some reason |} | Rejected reason =>
        unchanged /\
        error_after trace shown = Some (message_or "Failed to load video data" reason)
    end.
Proof.
  intros videoId client chunks pages loading shown. cbv zeta. unfold fetchVideoData.
  destruct (select_video client videoId) as [[[video|] [reason|]]|reason];
    cbn -[append validChunks ceil_div]; try (now repeat split);
    [|repeat split; eauto].
  destruct (Video.video_urls video) as [video_urls|];
    cbn -[append validChunks ceil_div events]; [|now repeat split].
  repeat (rewrite events_Do || rewrite events_Yield || rewrite events_app).
  unfold loading_after, error_after, chunks_after, totalPages_after.
  cbn -[append validChunks ceil_div events]. rewrite !fold_left_app.
  pose proof (url_logs_console video_urls) as Hlogs.
  set (logs := events (flat_map _ video_urls)) in *.
  rewrite !(fold_left_quiet _ logs);
    try (intros st eff Hin; apply Hlogs in Hin;
         destruct Hin as (level & text & ->); reflexivity).
  now repeat split.
Qed.

(** X21. With a client and a file chosen, [handleFileUpload] never throws,
    always ends with [uploadingFile] false, and shows exactly one
    notification.  Either the storage returned a non-empty public URL for the
    uploaded file: then one custom video with that URL and the file's name is
    put in front of the list; or the list is left as it was and the
    notification is the destructive one. *)
Theorem handleFileUpload_outcome :
  forall (videoId : string) (client : Supabase) (fileInputRef_current : bool)
         (now_fileName now_id now_iso : string) (file : File)
         (videos : list CustomVideo.t) (uploading : bool),
    let run := handleFileUpload videoId (Some client) fileInputRef_current
                                now_fileName now_id now_iso (Some file) in
    let trace := events (fst run) in
    let fileName := (videoId ++ "/" ++ now_fileName ++ "-" ++ name file)%string in
    snd run = inr tt /\
    uploadingFile_after trace uploading = false /\
    ((exists publicUrl,
        publicUrl <> "" /\
        storage_getPublicUrl client fileName = Fulfilled (Some publicUrl) /\
        customVideos_after trace videos =
          CustomVideo.mk now_id publicUrl (name file) now_iso :: videos /\
        toasts trace =
          [{| title := "File uploaded successfully";
              description := "Your custom video has been uploaded.";
              variant := None |}]) \/
     (customVideos_after trace videos = videos /\
      exists text,
        toasts trace =
          [{| title := "Error uploading file";
              description := text;
              variant := Some "destructive" |}])).
Proof.
  intros videoId client ref now_fileName now_id now_iso file videos uploading.
  cbv zeta. unfold handleFileUpload.
  destruct (storage_upload client _ file) as [[uploaded [[text|]|]]|[text|]];
    cbn -[append];
    try (destruct ref; (split; [reflexivity|]); (split; [reflexivity|]);
         right; (split; [reflexivity|eexists; reflexivity])).
  destruct (storage_getPublicUrl client _) as [[publicUrl|]|[text|]] eqn:Hurl;
    cbn -[append];
    try (destruct ref; (split; [reflexivity|]); (split; [reflexivity|]);
         right; (split; [reflexivity|eexists; reflexivity])).
  destruct (String.eqb_spec publicUrl "") as [->|Hnonempty]; cbn -[append].
  - destruct ref; (split; [reflexivity|]); (split; [reflexivity|]);
      right; (split; [reflexivity|eexists; reflexivity]).
  - destruct ref; (split; [reflexivity|]); (split; [reflexivity|]);
      left; exists publicUrl; repeat split; assumption.
Qed.

End EditVideoPageFacts.

(** ** The upload route, further *)

Module UploadRouteOutcomes.
Import UploadRoute.

Lemma has_char_app (c : ascii) (s t : string) :
  has_char c (s ++ t)%string = has_char c s || has_char c t.
Proof.
  induction s as [|c' s IH]; cbn; [reflexivity|].
  now rewrite IH, orb_assoc.
Qed.

Lemma append_assoc (s t u : string) : ((s ++ t) ++ u)%string = (s ++ t ++ u)%string.
Proof.
  induction s as [|c s IH]; cbn; [reflexivity|]. now rewrite IH.
Qed.

Lemma append_empty (s : string) : (s ++ "")%string = s.
Proof.
  induction s as [|c s IH]; cbn; [reflexivity|]. now rewrite IH.
Qed.

Lemma split_pop_segment (s segment : string) :
  has_char "." segment = false ->
  has_char "." (split_pop s segment) = false /\
  (exists before, (segment ++ s)%string = (before ++ split_pop s segment)%string) /\
  (has_char "." s = false -> split_pop s segment = (segment ++ s)%string).
Proof.
  revert segment. induction s as [|c s IH]; intros segment Hsegment.
  - cbn [split_pop]. rewrite append_empty. repeat split; [assumption|].
    now exists EmptyString.
  - cbn [split_pop has_char]. destruct (Ascii.eqb_spec c ".") as [->|Hc].
    + destruct (IH EmptyString eq_refl) as (Hdot & [before Hbefore] & _).
      repeat split; [assumption| |discriminate].
      exists (segment ++ String "." before)%string.
      cbn [append] in Hbefore. rewrite Hbefore at 1.
      change (String "." (before ++ split_pop s ""))%string
        with (String "." before ++ split_pop s "")%string.
      now rewrite append_assoc.
    + assert (Hkept : has_char "." (segment ++ String c EmptyString) = false).
      { rewrite has_char_app, Hsegment. cbn.
        destruct (Ascii.eqb_spec c "."); [contradiction|reflexivity]. }
      destruct (IH _ Hkept) as (Hdot & Hsuffix & Hwhole).
      rewrite append_assoc in Hsuffix, Hwhole. cbn [append] in Hsuffix, Hwhole.
      repeat split; assumption.
Qed.

(** X22. The extension the route takes from a file name holds no dot and
    is the end of the name; for a name without a dot it is the whole name, so
    such a file is stored under a key that ends in a dot and its name. *)
Theorem split_pop_extension :
  forall fileName : string,
    has_char "." (split_pop fileName EmptyString) = false /\
    (exists before, fileName = (before ++ split_pop fileName EmptyString)%string) /\
    (has_char "." fileName = false -> split_pop fileName EmptyString = fileName).
Proof.
  intros fileName. exact (split_pop_segment fileName EmptyString eq_refl).
Qed.

Lemma split_pop_extension_witness :
  split_pop "recording" EmptyString = "recording".
Proof.
  apply (split_pop_extension "recording"). reflexivity.
Defined.

Ltac respond_failure := right; eexists _, _; split; [reflexivity|auto].

(** The runs of [POST]: it answers with the key and the public URL after an
    upload that succeeded, or with an error and status 400 or 500. *)
Lemma POST_cases (env : Env) :
  (exists audioFile breakpointsJson stored publicUrl,
     let key :=
       ("audio/original-" ++ randomHash env ++ "." ++
        split_pop (name audioFile) EmptyString)%string in
     truthy (supabaseUrl env) = true /\
     truthy (supabaseAnonKey env) = true /\
     formData env = Fulfilled (Some audioFile, breakpointsJson) /\
     upload env key = Fulfilled {| data := stored; error := None |} /\
     getPublicUrl env key = Some publicUrl /\
     truthy publicUrl = true /\
     In (StorageCall "upload" key) (events (fst (POST env))) /\
     snd (POST env) = inr {| status := 200; body := Success key publicUrl |}) \/
  (exists code message,
     snd (POST env) = inr {| status := code; body := Failure message |} /\
     (code = 400 \/ code = 500)).
Proof.
  unfold POST, POST_with.
  destruct (truthy (supabaseUrl env)) eqn:Hurl; cbn -[append split_pop store_metadata];
    [|respond_failure].
  destruct (truthy (supabaseAnonKey env)) eqn:Hanon;
    cbn -[append split_pop store_metadata]; [|respond_failure].
  destruct (formData env) as [[[audioFile|] breakpointsJson]|reason] eqn:Hform;
    cbn -[append split_pop store_metadata]; try respond_failure.
  destruct (arrayBuffer env) as [[]|reason]; cbn -[append split_pop store_metadata];
    try respond_failure.
  destruct (listBuckets env) as [[[names|] [message|]]|reason];
    cbn -[append split_pop store_metadata existsb]; try respond_failure.
  destruct (existsb _ names); cbn -[append split_pop store_metadata];
    [|destruct (createBucket env) as [[message|]|reason];
      cbn -[append split_pop store_metadata]; try respond_failure];
    (destruct (upload env _) as [[stored [message|]]|reason] eqn:Hupload;
       cbn -[append split_pop store_metadata]; try respond_failure;
     destruct (getPublicUrl env _) as [publicUrl|] eqn:Hpublic;
       cbn -[append split_pop store_metadata]; try respond_failure;
     destruct (truthy publicUrl) eqn:Htruthy;
       cbn -[append split_pop store_metadata]; try respond_failure;
     pose proof (UploadRouteFacts.store_metadata_returns env breakpointsJson) as Hmeta;
     destruct (store_metadata env breakpointsJson) as [trace [thrown|[]]];
       cbn -[append split_pop] in Hmeta |- *; [discriminate|];
     left; exists audioFile, breakpointsJson, stored, publicUrl;
     cbv zeta; repeat split; try assumption; auto 12).
Qed.

(** X23. [POST] never throws: it always answers, with status 200 exactly
    when the body is [{success: true, key, url}], and with status 400 or 500
    and an error message otherwise. *)
Theorem POST_always_responds :
  forall env : Env,
    exists response,
      snd (POST env) = inr response /\
      match body response with
      | Success _ _ => status response = 200
      | Failure _ => status response = 400 \/ status response = 500
      end.
Proof.
  intros env.
  destruct (POST_cases env) as
    [(audioFile & json & stored & publicUrl & _ & _ & _ & _ & _ & _ & _ & Hresponse)
    |(code & message & Hresponse & Hcode)];
    rewrite Hresponse; eexists; (split; [reflexivity|]); cbn; auto.
Qed.

(** X24. A success answer means the file is in storage under the key
    answered: the credentials were present, the upload of the form's file
    under that key was requested and reported no error, the key is
    "audio/original-", the hash, a dot and the extension of the file's name,
    and the URL answered is the non-empty public URL of that key. *)
Theorem POST_success_means_stored :
  forall (env : Env) (code : nat) (key url : string),
    snd (POST env) = inr {| status := code; body := Success key url |} ->
    code = 200 /\
    truthy (supabaseUrl env) = true /\
    truthy (supabaseAnonKey env) = true /\
    (exists audioFile breakpointsJson,
       formData env = Fulfilled (Some audioFile, breakpointsJson) /\
       key = ("audio/original-" ++ randomHash env ++ "." ++
              split_pop (name audioFile) EmptyString)%string) /\
    (exists stored, upload env key = Fulfilled {| data := stored; error := None |}) /\
    In (StorageCall "upload" key) (events (fst (POST env))) /\
    getPublicUrl env key = Some url /\
    url <> "".
Proof.
  intros env code key url Hsuccess.
  destruct (POST_cases env) as
    [(audioFile & json & stored & publicUrl &
      Hurl & Hanon & Hform & Hupload & Hpublic & Htruthy & Hcall & Hresponse)
    |(code' & message & Hresponse & _)];
    rewrite Hresponse in Hsuccess; [|discriminate].
  injection Hsuccess as <- <- <-.
  repeat split; try assumption.
  - now exists audioFile, json.
  - now exists stored.
  - intros ->. discriminate.
Qed.

Lemma POST_success_means_stored_witness :
  getPublicUrl bad_metadata_env "audio/original-h.mp3" =
    Some "https://project.supabase.co/storage/audio/original-h.mp3".
Proof.
  apply (POST_success_means_stored bad_metadata_env 200 "audio/original-h.mp3"
           "https://project.supabase.co/storage/audio/original-h.mp3").
  reflexivity.
Defined.

(** X25. Whatever [createClient] does at line 36: without both credentials,
    with a client that cannot be built, or without a file in the form, [POST]
    answers with an error and never calls the storage.  Without both
    credentials the answer is status 500, "Supabase credentials not
    configured"; with both and [createClient] throwing, it is status 500 with
    the message of what was thrown (from the [catch] of line 151); with both
    and the client built, a form without file is answered with status 400,
    "No file provided". *)
Theorem POST_rejects_before_storage :
  forall (env : Env) (createClient : Thrown + unit),
    truthy (supabaseUrl env) && truthy (supabaseAnonKey env) = false \/
    (exists reason, createClient = inl reason) \/
    (exists breakpointsJson, formData env = Fulfilled (None, breakpointsJson)) ->
    (exists code message,
       snd (POST_with env createClient) =
         inr {| status := code; body := Failure message |} /\
       (truthy (supabaseUrl env) && truthy (supabaseAnonKey env) = false ->
        code = 500 /\ message = "Supabase credentials not configured") /\
       (truthy (supabaseUrl env) && truthy (supabaseAnonKey env) = true ->
        forall reason, createClient = inl reason ->
          code = 500 /\ message = message_or "Unknown error occurred" reason) /\
       (truthy (supabaseUrl env) && truthy (supabaseAnonKey env) = true ->
        createClient = inr tt ->
        code = 400 /\ message = "No file provided")) /\
    forall method key,
      ~ In (StorageCall method key) (events (fst (POST_with env createClient))).
Proof.
  intros env createClient Hearly. unfold POST_with.
  destruct (truthy (supabaseUrl env)); cbn -[append split_pop store_metadata].
  2:{ split; [eexists _, _; split; [reflexivity|]|].
      - repeat split; try discriminate; reflexivity.
      - intros method key [Hlog|[]]. discriminate. }
  destruct (truthy (supabaseAnonKey env)); cbn -[append split_pop store_metadata].
  2:{ split; [eexists _, _; split; [reflexivity|]|].
      - repeat split; try discriminate; reflexivity.
      - intros method key [Hlog|[]]. discriminate. }
  destruct createClient as [reason|[]]; cbn -[append split_pop store_metadata].
  - split; [eexists _, _; split; [reflexivity|]|].
    + split; [discriminate|]. split; [|discriminate].
      intros _ reason' Hreason. injection Hreason as <-. now split.
    + intros method key [Hlog|[]]. discriminate.
  - destruct Hearly as [Hmissing|[[reason Hthrown]|[breakpointsJson Hform]]];
      [discriminate|discriminate|].
    rewrite Hform. cbn. split; [eexists _, _; split; [reflexivity|]|].
    + split; [discriminate|]. split; [discriminate|]. now split.
    + intros method key [].
Qed.

Lemma POST_rejects_before_storage_witness :
  (forall method key,
     ~ In (StorageCall method key) (events (fst (POST_with no_file_env (inr tt))))) /\
  (forall method key,
     ~ In (StorageCall method key)
          (events (fst (POST_with no_credentials_env (inr tt))))) /\
  (forall method key,
     ~ In (StorageCall method key)
          (events (fst (POST_with bad_metadata_env
                          (inl (ErrorObject "Invalid supabaseUrl")))))).
Proof.
  split; [|split].
  - apply (POST_rejects_before_storage no_file_env (inr tt)).
    right. right. eexists. reflexivity.
  - apply (POST_rejects_before_storage no_credentials_env (inr tt)).
    left. reflexivity.
  - apply (POST_rejects_before_storage bad_metadata_env
             (inl (ErrorObject "Invalid supabaseUrl"))).
    right. left. eexists. reflexivity.
Defined.

(** The three early answers, computed. *)
Example POST_early_answers :
  snd (POST_with no_file_env (inr tt)) =
    inr {| status := 400; body := Failure "No file provided" |} /\
  snd (POST_with no_credentials_env (inr tt)) =
    inr {| status := 500; body := Failure "Supabase credentials not configured" |} /\
  snd (POST_with bad_metadata_env (inl (ErrorObject "Invalid supabaseUrl"))) =
    inr {| status := 500; body := Failure "Invalid supabaseUrl" |}.
Proof. repeat split. Qed.

(** [POST] answers whatever [createClient] does: a client that cannot be
    built is answered with status 500 as well. *)
Lemma POST_with_thrown_client (env : Env) (reason : Thrown) :
  exists code message,
    snd (POST_with env (inl reason)) =
      inr {| status := code; body := Failure message |} /\ code = 500.
Proof.
  unfold POST_with.
  destruct (truthy (supabaseUrl env)); cbn; [|eauto].
  destruct (truthy (supabaseAnonKey env)); cbn; eauto.
Qed.
End UploadRouteOutcomes.

(** ** The track component's even split *)

Lemma filter_filter {A : Type} (p q : A -> bool) (l : list A) :
  filter p (filter q l) = filter (fun a => q a && p a) l.
Proof.
  induction l as [|a l IH]; cbn; [reflexivity|].
  destruct (q a); cbn; [destruct (p a)|]; now rewrite IH.
Qed.

Lemma filter_drop_all {A : Type} (p : A -> bool) (l : list A) :
  (forall a, In a l -> p a = false) -> filter p l = [].
Proof.
  induction l as [|a l IH]; intros Hdrop; cbn; [reflexivity|].
  rewrite (Hdrop a (or_introl eq_refl)). apply IH. intros b Hb. apply Hdrop. now right.
Qed.

Lemma audioFiles_after_app {T : Type} (trace trace' : list (Effect T))
    (state : list (AudioFile.t T)) :
  audioFiles_after (trace ++ trace') state =
  audioFiles_after trace' (audioFiles_after trace state).
Proof. apply fold_left_app. Qed.

Section ComponentEvenSplit.
Context {T : Type} {N : JsNumber T} {O : JsNumberOrder T}.
Variable fileId : string.

(** Removing, one call after the other, every time of a list. *)
Lemma removeBreakpoint_all (times : list T) (state : list (AudioFile.t T)) :
  audioFiles_after (flat_map (removeBreakpoint fileId) times) state =
  map (fun file =>
         if String.eqb (AudioFile.id file) fileId then
           AudioFile.with_breakpoints
             (filter (fun bp => forallb (fun time => negb (bp === time)%js) times)
                     (AudioFile.breakpoints file))
             file
         else file)
      state.
Proof.
  revert state. induction times as [|time times IH]; intros state.
  - cbn. symmetry. apply map_fixes. intros file _.
    destruct (String.eqb (AudioFile.id file) fileId); [|reflexivity].
    rewrite filter_keep_all; [apply with_breakpoints_same|].
    apply Forall_forall. reflexivity.
  - cbn [flat_map]. rewrite audioFiles_after_app, IH.
    unfold removeBreakpoint at 1, audioFiles_after at 1. cbn [fold_left].
    rewrite map_map.
    apply map_ext. intros file.
    destruct (String.eqb (AudioFile.id file) fileId) eqn:Hid;
      cbn [AudioFile.id AudioFile.with_breakpoints AudioFile.breakpoints];
      rewrite Hid; [|reflexivity].
    unfold AudioFile.with_breakpoints. cbn. now rewrite filter_filter.
Qed.

(** Adding, one call after the other, every time of a list. *)
Lemma addBreakpoint_all (times : list T) (state : list (AudioFile.t T)) :
  audioFiles_after (flat_map (addBreakpoint fileId) times) state =
  map (fun file =>
         fold_left
           (fun f time =>
              if String.eqb (AudioFile.id f) fileId then
                if negb (includes (AudioFile.breakpoints f) time) then
                  AudioFile.with_breakpoints
                    (sort (fun a b => a - b)%js (AudioFile.breakpoints f ++ [time])) f
                else f
              else f)
           times file)
      state.
Proof.
  revert state. induction times as [|time times IH]; intros state.
  - cbn. now rewrite map_id.
  - cbn [flat_map]. rewrite audioFiles_after_app, IH.
    unfold addBreakpoint at 1, audioFiles_after at 1. cbn [fold_left].
    now rewrite map_map.
Qed.

Lemma addBreakpoint_all_other (times : list T) (file : AudioFile.t T) :
  String.eqb (AudioFile.id file) fileId = false ->
  fold_left
    (fun f time =>
       if String.eqb (AudioFile.id f) fileId then
         if negb (includes (AudioFile.breakpoints f) time) then
           AudioFile.with_breakpoints
             (sort (fun a b => a - b)%js (AudioFile.breakpoints f ++ [time])) f
         else f
       else f)
    times file = file.
Proof.
  intros Hid. induction times as [|time times IH]; cbn [fold_left]; [reflexivity|].
  now rewrite Hid.
Qed.

Lemma StronglySorted_prefix (before after : list T) :
  StronglySorted js_lt (before ++ after) -> StronglySorted js_lt before.
Proof.
  induction before as [|x before IH]; cbn; intros Hsorted; [constructor|].
  inversion Hsorted as [|? ? Hrest Hall]; subst. constructor; [now apply IH|].
  apply Forall_app in Hall. tauto.
Qed.

Lemma addBreakpoint_all_ascending (times done : list T) (file : AudioFile.t T) :
  String.eqb (AudioFile.id file) fileId = true ->
  AudioFile.breakpoints file = done ->
  StronglySorted js_lt (done ++ times) ->
  fold_left
    (fun f time =>
       if String.eqb (AudioFile.id f) fileId then
         if negb (includes (AudioFile.breakpoints f) time) then
           AudioFile.with_breakpoints
             (sort (fun a b => a - b)%js (AudioFile.breakpoints f ++ [time])) f
         else f
       else f)
    times file = AudioFile.with_breakpoints (done ++ times) file.
Proof.
  revert done file. induction times as [|time times IH]; intros done file Hid Hdone Hsorted.
  - rewrite app_nil_r, <- Hdone. cbn. symmetry. apply with_breakpoints_same.
  - cbn [fold_left]. rewrite Hid, Hdone.
    destruct (StronglySorted_middle _ _ _ Hsorted) as (Hbelow & _ & _).
    assert (Habsent : includes done time = false).
    { unfold includes. apply not_true_is_false. intros Hin.
      apply existsb_exists in Hin. destruct Hin as (y & Hy & Hsame).
      rewrite Forall_forall in Hbelow.
      now rewrite (ltb_distinct _ _ (Hbelow y Hy)) in Hsame. }
    rewrite Habsent. cbn [negb].
    assert (Hprefix : StronglySorted js_lt (done ++ [time])).
    { apply (StronglySorted_prefix _ times). now rewrite <- app_assoc. }
    rewrite (sort_ascending _ Hprefix).
    rewrite (IH (done ++ [time])); [|assumption|reflexivity|now rewrite <- app_assoc].
    unfold AudioFile.with_breakpoints. cbn. now rewrite <- app_assoc.
Qed.

(** X26. For numbers under the order laws of [JsNumberOrder], binary64 among
    them ([JsNumberOrder_float]): wired to the page's [addBreakpoint] and
    [removeBreakpoint] for its track, as the page wires it, the track
    component's [addEvenBreakpoints] with a positive count, an audio element
    and not disabled leaves the track list as the page's own
    [addEvenBreakpoints] does, when the ids of the tracks are distinct, no old
    breakpoint of the track is NaN (a NaN is never removed) and the points it
    computes are strictly ascending: the old breakpoints are removed one by
    one, and each new point is appended by the sort of [addBreakpoint]. *)
Theorem component_addEvenBreakpoints_as_page :
  forall (audioFiles : list (AudioFile.t T)) (audio : AudioFile.t T)
         (count : Z) (currentTime : T),
    (0 < count)%Z ->
    NoDup (map AudioFile.id audioFiles) ->
    In audio audioFiles ->
    AudioFile.id audio = fileId ->
    (forall bp, In bp (AudioFile.breakpoints audio) -> isNaN bp = false) ->
    ascending (spec_evenSplit (AudioFile.duration audio) count) ->
    audioFiles_after
      (AudioTrack.addEvenBreakpoints audio (addBreakpoint fileId)
         (removeBreakpoint fileId) false (Some currentTime) count)
      audioFiles =
    audioFiles_after (addEvenBreakpoints audioFiles fileId count) audioFiles.
Proof.
  intros audioFiles audio count currentTime Hcount Hids Hin Hid Hnumbers Hascending.
  destruct (find_by_id audioFiles audio Hids Hin) as [Hfind Hsame].
  rewrite Hid in Hfind, Hsame.
  rewrite (addEvenBreakpoints_points audioFiles fileId count audio audioFiles);
    [|lia|assumption].
  unfold AudioTrack.addEvenBreakpoints.
  destruct (Z.leb_spec count 0) as [Hle|_]; [lia|]. cbn [orb].
  unfold for_range.
  rewrite (for_steps_append
             (fun i => addBreakpoint fileId
                         (AudioFile.duration audio / ofZ (count + 1) *
                          ofZ (Z.of_nat i))%js)).
  cbn [app]. replace (S (Z.to_nat count) - 1) with (Z.to_nat count) by lia.
  assert (Hcalls :
    flat_map
      (fun i => addBreakpoint fileId
                  (AudioFile.duration audio / ofZ (count + 1) * ofZ (Z.of_nat i))%js)
      (seq 1 (Z.to_nat count)) =
    flat_map (addBreakpoint fileId) (spec_evenSplit (AudioFile.duration audio) count)).
  { unfold spec_evenSplit. now rewrite !flat_map_concat_map, map_map. }
  rewrite Hcalls, audioFiles_after_app.
  rewrite removeBreakpoint_all, addBreakpoint_all, map_map.
  apply map_ext_in. intros file Hfile.
  destruct (String.eqb_spec (AudioFile.id file) fileId) as [Hfile_id|Hother].
  - rewrite (Hsame file Hfile Hfile_id).
    rewrite filter_drop_all.
    2:{ intros bp Hbp. apply not_true_is_false. intros Hall.
        rewrite forallb_forall in Hall. specialize (Hall bp Hbp).
        specialize (Hnumbers bp Hbp). unfold isNaN in Hnumbers.
        apply negb_false_iff in Hnumbers. now rewrite Hnumbers in Hall. }
    rewrite (addBreakpoint_all_ascending _ []).
    + reflexivity.
    + cbn. rewrite Hid. apply String.eqb_refl.
    + reflexivity.
    + now apply ascending_StronglySorted.
  - apply addBreakpoint_all_other. now apply String.eqb_neq.
Qed.
End ComponentEvenSplit.

Lemma component_addEvenBreakpoints_as_page_witness :
  audioFiles_after
    (AudioTrack.addEvenBreakpoints even_track64 (addBreakpoint "file-1")
       (removeBreakpoint "file-1") false (Some 12%float) 3)
    [even_track64] =
  audioFiles_after (addEvenBreakpoints [even_track64] "file-1" 3) [even_track64].
Proof.
  apply (@component_addEvenBreakpoints_as_page float JsNumber_float JsNumberOrder_float
            "file-1" [even_track64] even_track64 3 12%float).
  - lia.
  - repeat constructor. intros [].
  - left. reflexivity.
  - reflexivity.
  - intros bp Hbp. cbn in Hbp. destruct Hbp as [<-|[]]. reflexivity.
  - repeat constructor; vm_compute; reflexivity.
Defined.
